(** * HauntedTerminal: risk classification, confirmation, path correction,
      execution, rituals and history, embedded from the Python sources.

    Python [str] values are modelled as lists of characters ([list ascii]);
    the character classes ([str.isspace], [str.lower], the regex classes
    [\s], [\w]) follow CPython's tables on the code points 0..255. *)

From Stdlib Require Import Ascii String.
From Stdlib Require Import List Bool Arith ZArith QArith Lia.
From Stdlib Require Import Orders Sorted Permutation Mergesort.
Import ListNotations.

Set Implicit Arguments.
Local Close Scope Q_scope.
Local Open Scope list_scope.

(** ** Python strings *)

Module Pystr.

Definition str := list ascii.

(** A literal of the source. *)
Definition lit (s : string) : str := list_ascii_of_string s.

Definition code (c : ascii) : nat := nat_of_ascii c.

Definition ascii_eqb (a b : ascii) : bool := Ascii.eqb a b.

Fixpoint str_eqb (a b : str) : bool :=
  match a, b with
  | [], [] => true
  | x :: a', y :: b' => ascii_eqb x y && str_eqb a' b'
  | _, _ => false
  end.

(** [c.isspace()]: tab..CR, FS..US, space, NEL, NBSP. *)
Definition isspace (c : ascii) : bool :=
  let n := code c in
  ((9 <=? n) && (n <=? 13)) || ((28 <=? n) && (n <=? 32))
  || (n =? 133) || (n =? 160).

(** [c.lower()] on one character: A-Z and the Latin-1 capitals. *)
Definition lower_char (c : ascii) : ascii :=
  let n := code c in
  if ((65 <=? n) && (n <=? 90))
     || ((192 <=? n) && (n <=? 222) && negb (n =? 215))
  then ascii_of_nat (n + 32) else c.

Definition lower (s : str) : str := map lower_char s.

Fixpoint lstrip (s : str) : str :=
  match s with
  | c :: s' => if isspace c then lstrip s' else s
  | [] => []
  end.

Definition rstrip (s : str) : str := rev (lstrip (rev s)).

Definition strip (s : str) : str := rstrip (lstrip s).

(** Truthiness of a string: [bool(s)]. *)
Definition truthy (s : str) : bool :=
  match s with [] => false | _ :: _ => true end.

(** [not s or not s.strip()] *)
Definition blank (s : str) : bool := negb (truthy s) || negb (truthy (strip s)).

Fixpoint startswith (s p : str) {struct p} : bool :=
  match p, s with
  | [], _ => true
  | x :: p', y :: s' => ascii_eqb x y && startswith s' p'
  | _ :: _, [] => false
  end.

Definition endswith (s p : str) : bool := startswith (rev s) (rev p).

(** [p in s] *)
Fixpoint contains (p s : str) : bool :=
  startswith s p || match s with _ :: s' => contains p s' | [] => false end.

(** [s.count(c)] for a one-character argument. *)
Definition count_char (c : ascii) (s : str) : nat :=
  length (filter (ascii_eqb c) s).

(** [s.replace(old, new)] for a non-empty [old]: occurrences are replaced
    from the left and do not overlap; [skip] counts the characters of an
    occurrence still to be passed over. *)
Fixpoint replace_from (old new : str) (skip : nat) (s : str) : str :=
  match s with
  | [] => []
  | c :: s' =>
      match skip with
      | S k => replace_from old new k s'
      | O =>
          if startswith s old
          then new ++ replace_from old new (length old - 1) s'
          else c :: replace_from old new 0 s'
      end
  end.

Definition replace (old new s : str) : str := replace_from old new 0 s.

(** [sep.join(xs)] *)
Fixpoint join (sep : str) (xs : list str) : str :=
  match xs with
  | [] => []
  | [x] => x
  | x :: rest => x ++ sep ++ join sep rest
  end.

(** [a <= b] and [a < b] on strings: by code point, the shorter first. *)
Fixpoint str_leb (a b : str) : bool :=
  match a, b with
  | [], _ => true
  | _ :: _, [] => false
  | x :: a', y :: b' =>
      (code x <? code y) || ((code x =? code y) && str_leb a' b')
  end.

Definition str_ltb (a b : str) : bool := negb (str_leb b a).

(** [x in xs] for a list of strings. *)
Definition str_in (x : str) (xs : list str) : bool := existsb (str_eqb x) xs.

End Pystr.
Import Pystr.

(** ** The fragment of Python's [re] used by the pattern tables *)

Module Regex.

(** [\w] on the code points 0..255. *)
Definition is_word (c : ascii) : bool :=
  let n := code c in
  ((48 <=? n) && (n <=? 57)) || ((65 <=? n) && (n <=? 90)) || (n =? 95)
  || ((97 <=? n) && (n <=? 122)) || (n =? 170) || (n =? 178) || (n =? 179)
  || (n =? 181) || (n =? 185) || (n =? 186) || ((188 <=? n) && (n <=? 190))
  || ((192 <=? n) && (n <=? 214)) || ((216 <=? n) && (n <=? 246))
  || (248 <=? n).

(** One-character classes: a literal, [\s] and [.] (anything but newline). *)
Inductive atom :=
| Lit (c : ascii)
| Space
| Dot.

(** Pattern items, in sequence: one atom, [a*], [a+], the word boundary
    [\b], a negative look-behind [(?<!t)] and a negative look-ahead [(?!t)]
    on literal text. *)
Inductive item :=
| One (a : atom)
| Star (a : atom)
| Plus (a : atom)
| WordB
| NotBehind (t : str)
| NotAhead (t : str).

Definition pattern := list item.

(** The literal text [s] as a pattern. *)
Definition text (s : string) : pattern := map (fun c => One (Lit c)) (lit s).

Definition atom_ok (a : atom) (c : ascii) : bool :=
  match a with
  | Lit l => ascii_eqb l c
  | Space => isspace c
  | Dot => negb (code c =? 10)
  end.

Definition word_at (s : str) : bool :=
  match s with c :: _ => is_word c | [] => false end.

(** [\b] holds between the text before ([prev], nearest character first)
    and the text after the position. *)
Definition at_boundary (prev s : str) : bool := xorb (word_at prev) (word_at s).

(** The loop of a starred atom: stop here and go on with the rest of the
    pattern ([k]), or consume one more character of the class. *)
Fixpoint star_loop (a : atom) (k : str -> str -> bool) (prev s : str)
  {struct s} : bool :=
  k prev s
  || match s with
     | c :: s' => atom_ok a c && star_loop a k (c :: prev) s'
     | [] => false
     end.

(** Does the pattern match at this position?  [prev] is the text already
    passed, reversed. *)
Fixpoint match_here (p : pattern) (prev s : str) {struct p} : bool :=
  match p with
  | [] => true
  | One a :: p' =>
      match s with
      | c :: s' => atom_ok a c && match_here p' (c :: prev) s'
      | [] => false
      end
  | Star a :: p' => star_loop a (match_here p') prev s
  | Plus a :: p' =>
      match s with
      | c :: s' => atom_ok a c && star_loop a (match_here p') (c :: prev) s'
      | [] => false
      end
  | WordB :: p' => at_boundary prev s && match_here p' prev s
  | NotBehind t :: p' => negb (startswith prev (rev t)) && match_here p' prev s
  | NotAhead t :: p' => negb (startswith s t) && match_here p' prev s
  end.

Fixpoint search_from (p : pattern) (prev s : str) {struct s} : bool :=
  match_here p prev s
  || match s with
     | c :: s' => search_from p (c :: prev) s'
     | [] => false
     end.

(** [bool(re.search(p, s))] *)
Definition search (p : pattern) (s : str) : bool := search_from p [] s.

(** *** Declarative matching, folding the subject's case

    [Matches f p prev s]: pattern [p] matches some prefix of [s], the
    subject's characters being compared after [f] (the identity for plain
    matching, [lower_char] for matching that ignores case). *)
Inductive Matches (f : ascii -> ascii) : pattern -> str -> str -> Prop :=
| M_nil prev s : Matches f [] prev s
| M_one a p c prev s :
    atom_ok a (f c) = true -> Matches f p (c :: prev) s ->
    Matches f (One a :: p) prev (c :: s)
| M_star_stop a p prev s :
    Matches f p prev s -> Matches f (Star a :: p) prev s
| M_star_more a p c prev s :
    atom_ok a (f c) = true -> Matches f (Star a :: p) (c :: prev) s ->
    Matches f (Star a :: p) prev (c :: s)
| M_plus a p c prev s :
    atom_ok a (f c) = true -> Matches f (Star a :: p) (c :: prev) s ->
    Matches f (Plus a :: p) prev (c :: s)
| M_wordb p prev s :
    at_boundary prev s = true -> Matches f p prev s ->
    Matches f (WordB :: p) prev s
| M_notbehind t p prev s :
    startswith (map f prev) (rev t) = false -> Matches f p prev s ->
    Matches f (NotBehind t :: p) prev s
| M_notahead t p prev s :
    startswith (map f s) t = false -> Matches f p prev s ->
    Matches f (NotAhead t :: p) prev s.

(** The pattern matches somewhere in the subject. *)
Definition Found (f : ascii -> ascii) (p : pattern) (s : str) : Prop :=
  exists a b, s = a ++ b /\ Matches f p (rev a) b.

End Regex.
Import Regex.

(** ** src/safety.py *)

Module Safety.

Inductive CommandRisk := SAFE | MODERATE | DESTRUCTIVE.

(** [\bword\b] *)
Definition whole_word (w : string) : pattern := WordB :: text w ++ [WordB].

(** [\bhead\s+tail] *)
Definition word_then (head tail : string) : pattern :=
  WordB :: text head ++ [Plus Space] ++ text tail.

(** [(?<!2)>\s*/dev/(?!null)]: redirecting to device files (except
    2>/dev/null). *)
Definition device_redirect : pattern :=
  NotBehind (lit "2") :: text ">" ++ [Star Space] ++ text "/dev/"
    ++ [NotAhead (lit "null")].

Definition DESTRUCTIVE_PATTERNS : list pattern :=
  [ whole_word "rm";                 (* \brm\b *)
    whole_word "mv";                 (* \bmv\b *)
    whole_word "dd";                 (* \bdd\b *)
    whole_word "mkfs";               (* \bmkfs\b *)
    whole_word "format";             (* \bformat\b *)
    word_then "chmod" "-r";          (* \bchmod\s+-r *)
    word_then "chown" "-r";          (* \bchown\s+-r *)
    word_then "apt" "remove";        (* \bapt\s+remove *)
    word_then "apt" "purge";         (* \bapt\s+purge *)
    word_then "yum" "remove";        (* \byum\s+remove *)
    word_then "pip" "uninstall";     (* \bpip\s+uninstall *)
    device_redirect;                 (* (?<!2)>\s*/dev/(?!null) *)
    whole_word "truncate"            (* \btruncate\b *)
  ].

Definition MODERATE_PATTERNS : list pattern :=
  [ (* \bcp\s+.*\s+-f *)
    WordB :: text "cp" ++ [Plus Space; Star Dot; Plus Space] ++ text "-f";
    whole_word "chmod";              (* \bchmod\b *)
    whole_word "chown";              (* \bchown\b *)
    whole_word "kill";               (* \bkill\b *)
    whole_word "pkill";              (* \bpkill\b *)
    whole_word "killall"             (* \bkillall\b *)
  ].

(** [for pattern in patterns: if re.search(pattern, s): return ...] *)
Fixpoint first_hit (patterns : list pattern) (s : str) : bool :=
  match patterns with
  | [] => false
  | p :: rest => if search p s then true else first_hit rest s
  end.

(** [classify_command]; [None] is not a [str].  The patterns of the two
    tables compile, so no [re.error] is skipped and nothing reaches the
    outer [except]. *)
Definition classify_command (command : str) : CommandRisk :=
  if blank command then SAFE
  else
    let command_lower := lower command in
    if first_hit DESTRUCTIVE_PATTERNS command_lower then DESTRUCTIVE
    else if first_hit MODERATE_PATTERNS command_lower then MODERATE
    else SAFE.

(** The specification's reading of a tier: some pattern of the list
    matches somewhere in the command, case being ignored. *)
Definition Hits (patterns : list pattern) (command : str) : Prop :=
  exists p, In p patterns /\ Found lower_char p command.

(** What [Prompt.ask] does: it returns the response, or the user
    interrupts (Ctrl+C), or the input ends (Ctrl+D), or it raises
    something else. *)
Inductive interaction :=
| Responds (response : str)
| KeyboardInterrupt
| EOFError
| OtherException (message : str).

(** [console.print(text)] for a text that rich reads as markup: [None]
    when the call returns, [Some e] when it raises an exception whose
    text is [e] (rich refuses a closing tag that closes nothing, as in
    the command "rm [/tmp/x]").  The other calls of [console.print] in
    [get_confirmation] print fixed texts and styled [Text] objects. *)
Definition console : Type := str -> option str.

(** What a call of [get_confirmation] does. *)
Inductive confirmation :=
| Answers (answer : str)
| ConfirmationRaises (message : str).

Definition confirmation_text : str := lit "EXECUTE".

Definition line_feed : str := [ascii_of_nat 10].

(** The handler [except Exception as e] at the end of
    [get_confirmation]: it prints the text of [e] inside markup, which
    may raise in turn, and answers "no". *)
Definition report_error (print : console) (e : str) : confirmation :=
  match print (line_feed ++ lit "[red]Error during confirmation: " ++ e
               ++ lit "[/red]") with
  | Some raised => ConfirmationRaises raised
  | None => Answers (lit "no")
  end.

(** [get_confirmation]: the choice made on [risk], on what the console
    does with the command and on what the prompt does.  For SAFE and
    MODERATE [Prompt.ask] is given the choices and a default; its answer
    is compared after lowering, like the source. *)
Definition get_confirmation (command : str) (risk : CommandRisk)
  (print : console) (io : interaction) : confirmation :=
  match risk with
  | SAFE | MODERATE =>
      match io with
      | Responds response =>
          let response_lower := lower response in
          if str_in response_lower [lit "y"; lit "yes"]
          then Answers (lit "yes")
          else if str_in response_lower [lit "r"; lit "retry"]
          then Answers (lit "retry")
          else Answers (lit "no")
      | KeyboardInterrupt | EOFError => Answers (lit "no")
      | OtherException e => report_error print e
      end
  | DESTRUCTIVE =>
      match print (lit "Command: " ++ command) with
      | Some e => report_error print e
      | None =>
          match io with
          | Responds response =>
              if str_eqb response confirmation_text then Answers (lit "yes")
              else if str_in (lower response) [lit "retry"; lit "r"]
              then Answers (lit "retry")
              else Answers (lit "no")
          | KeyboardInterrupt | EOFError => Answers (lit "no")
          | OtherException e => report_error print e
          end
      end
  end.

(** A console that prints every text. *)
Definition prints_all : console := fun _ => None.

(** A console for examples: it refuses every text that holds "[/t", as
    rich refuses the closing tag in "rm [/tmp/x]" (the text of the
    exception is shortened). *)
Definition refuses_closing_tags : console :=
  fun text =>
    if contains (lit "[/t") text
    then Some (lit "closing tag '[/tmp/x]' doesn't match any open tag")
    else None.

End Safety.
Import Safety.

(** ** Python's [shlex]: [split] (POSIX mode, whitespace splitting, no
    comments), [quote] and [join] *)

Module Shlex.

(** [self.whitespace = ' \t\r\n'] *)
Definition is_whitespace (c : ascii) : bool :=
  let n := code c in (n =? 32) || (n =? 9) || (n =? 13) || (n =? 10).

(** [self.quotes]: the single and the double quote. *)
Definition is_quote (c : ascii) : bool :=
  let n := code c in (n =? 39) || (n =? 34).

(** [self.escape]: the backslash. *)
Definition is_escape (c : ascii) : bool := code c =? 92.

Definition backslash : ascii := ascii_of_nat 92.
Definition dquote : ascii := ascii_of_nat 34.
Definition squote : ascii := ascii_of_nat 39.

(** The lexer's [state]: [' '], ['a'], a quote character, or the escape
    character together with [escapedstate], the state to return to. *)
Inductive state :=
| InSpace
| InWord
| InQuote (q : ascii)
| InEscape (escapedstate : state).

(** [token or (posix and quoted)] *)
Definition emits (token : str) (quoted : bool) : bool := truthy token || quoted.

(** [list(lex)]: the tokens, or the [ValueError] raised on the way. *)
Inductive split_result :=
| Tokens (parts : list str)
| SplitError (message : str).

(** [read_token] iterated to the end of input: the characters still to
    read, the lexer state, the token being built, whether it was quoted,
    and the tokens already returned. *)
Fixpoint read_tokens (s : str) (st : state) (token : str) (quoted : bool)
  (out : list str) : split_result :=
  match s with
  | [] =>
      match st with
      | InSpace | InWord =>
          Tokens (if emits token quoted then out ++ [token] else out)
      | InQuote _ => SplitError (lit "No closing quotation")
      | InEscape _ => SplitError (lit "No escaped character")
      end
  | c :: s' =>
      match st with
      | InSpace =>
          if is_whitespace c then
            if emits token quoted
            then read_tokens s' InSpace [] false (out ++ [token])
            else read_tokens s' InSpace token quoted out
          else if is_escape c then read_tokens s' (InEscape InWord) token quoted out
          else if is_quote c then read_tokens s' (InQuote c) token quoted out
          else read_tokens s' InWord [c] quoted out
      | InQuote q =>
          if ascii_eqb c q then read_tokens s' InWord token true out
          else if is_escape c && ascii_eqb q dquote
          then read_tokens s' (InEscape (InQuote q)) token true out
          else read_tokens s' (InQuote q) (token ++ [c]) true out
      | InEscape escapedstate =>
          let token' :=
            match escapedstate with
            | InQuote q =>
                if negb (ascii_eqb c backslash) && negb (ascii_eqb c q)
                then token ++ [backslash] else token
            | _ => token
            end in
          read_tokens s' escapedstate (token' ++ [c]) quoted out
      | InWord =>
          if is_whitespace c then
            if emits token quoted
            then read_tokens s' InSpace [] false (out ++ [token])
            else read_tokens s' InSpace token quoted out
          else if is_quote c then read_tokens s' (InQuote c) token quoted out
          else if is_escape c then read_tokens s' (InEscape InWord) token quoted out
          else read_tokens s' InWord (token ++ [c]) quoted out
      end
  end.

(** [shlex.split(s)] *)
Definition split (s : str) : split_result :=
  read_tokens s InSpace [] false [].

(** The characters [quote] leaves alone: [[\w@%+=:,./-]] with [re.ASCII]. *)
Definition is_safe (c : ascii) : bool :=
  let n := code c in
  ((48 <=? n) && (n <=? 57)) || ((65 <=? n) && (n <=? 90)) || (n =? 95)
  || ((97 <=? n) && (n <=? 122))
  || (n =? 64) || (n =? 37) || (n =? 43) || (n =? 61) || (n =? 58)
  || (n =? 44) || (n =? 46) || (n =? 47) || (n =? 45).

(** [shlex.quote(s)] *)
Definition quote (s : str) : str :=
  if negb (truthy s) then [squote; squote]
  else if forallb is_safe s then s
  else [squote]
         ++ replace [squote] [squote; dquote; squote; dquote; squote] s
         ++ [squote].

(** [shlex.join(parts)] *)
Definition join (parts : list str) : str := Pystr.join (lit " ") (map quote parts).

End Shlex.

(** ** [os.path] on a POSIX platform *)

Module Posixpath.

Definition sep : ascii := ascii_of_nat 47.

Definition is_sep (c : ascii) : bool := ascii_eqb c sep.

(** [path.split('/')] *)
Fixpoint split_sep (path : str) : list str :=
  match path with
  | [] => [[]]
  | c :: rest =>
      if is_sep c then [] :: split_sep rest
      else match split_sep rest with
           | comp :: comps => (c :: comp) :: comps
           | [] => [[c]]
           end
  end.

Definition isabs (path : str) : bool := startswith path [sep].

(** [os.path.join(a, b)] *)
Definition join (a b : str) : str :=
  if startswith b [sep] then b
  else if negb (truthy a) || endswith a [sep] then a ++ b
  else a ++ [sep] ++ b.

(** The part of [p] after its last separator: [p[p.rfind('/') + 1:]]. *)
Fixpoint until_sep (p : str) : str :=
  match p with
  | [] => []
  | c :: rest => if is_sep c then [] else c :: until_sep rest
  end.

Definition basename (p : str) : str := rev (until_sep (rev p)).

(** [head.rstrip('/')] *)
Fixpoint drop_seps (p : str) : str :=
  match p with
  | c :: rest => if is_sep c then drop_seps rest else p
  | [] => []
  end.

Definition dirname (p : str) : str :=
  let head := firstn (length p - length (basename p)) p in
  if truthy head && negb (forallb is_sep head)
  then rev (drop_seps (rev head)) else head.

(** The loop of [normpath] over the components. *)
Fixpoint norm_comps (initial_slashes : nat) (comps new_comps : list str)
  : list str :=
  match comps with
  | [] => new_comps
  | comp :: rest =>
      if str_eqb comp [] || str_eqb comp (lit ".")
      then norm_comps initial_slashes rest new_comps
      else if negb (str_eqb comp (lit ".."))
              || ((initial_slashes =? 0) && (length new_comps =? 0))
              || match rev new_comps with
                 | last :: _ => str_eqb last (lit "..")
                 | [] => false
                 end
      then norm_comps initial_slashes rest (new_comps ++ [comp])
      else norm_comps initial_slashes rest (removelast new_comps)
  end.

Definition normpath (path : str) : str :=
  if negb (truthy path) then lit "."
  else
    let initial_slashes :=
      if startswith path [sep] then
        if startswith path [sep; sep] && negb (startswith path [sep; sep; sep])
        then 2 else 1
      else 0 in
    let comps := norm_comps initial_slashes (split_sep path) [] in
    let joined := repeat sep initial_slashes ++ Pystr.join [sep] comps in
    if truthy joined then joined else lit ".".

End Posixpath.

(** ** src/executor.py *)

Module Executor.

Import Shlex.

Record ExecutionResult := {
  command : str;
  stdout : str;
  stderr : str;
  exit_code : Z;
  execution_time : Q;
  timestamp : Z
}.

(** The clock readings of one call: [datetime.now()], then [time.time()]
    at the start and when the result is built. *)
Record Clock := { now : Z; start_time : Q; end_time : Q }.

(** [e.stdout] of a [TimeoutExpired]: nothing captured ([None] or empty),
    bytes that [decode()] turns into text, or bytes on which [decode()]
    raises [UnicodeDecodeError]. *)
Inductive captured :=
| NoOutput
| Decodes (text : str)
| Undecodable.

(** What [subprocess.run] does: it completes, or raises; an exception is
    listed under the first [except] clause of [execute] that takes it. *)
Inductive run_outcome :=
| Completed (out err : str) (returncode : Z)
| TimeoutExpired (out : captured)
| PermissionError (message : str)
| FileNotFoundError (message : str)
| OSError (message : str)
| OtherError (type_name message : str).

(** [os.chdir(d)] followed by [os.getcwd()]: the directory the process is
    in afterwards, or the exception raised (its class name and text). *)
Inductive chdir_outcome :=
| Entered (cwd : str)
| ChdirRaises (type_name message : str).

(** The operating system as the executor sees it; [listdir] is [None] when
    it raises [OSError]. *)
Record OS := {
  run : str -> str -> run_outcome;
  expanduser : str -> str;
  expandvars : str -> str;
  isdir : str -> bool;
  listdir : str -> option (list str);
  chdir : str -> chdir_outcome
}.

(** What [execute] raises: [ValueError] for a command it refuses, and
    the [UnicodeDecodeError] of [decode()], which is a [ValueError] too
    (its class derives from [ValueError]). *)
Inductive exception :=
| ValueError (message : str)
| UnicodeDecodeError.

(** [isinstance(e, ValueError)] *)
Definition is_value_error (e : exception) : bool :=
  match e with
  | ValueError _ => true
  | UnicodeDecodeError => true
  end.

Inductive result :=
| Raises (e : exception)
| Returns (r : ExecutionResult).

Definition newline : str := [ascii_of_nat 10].

(** Lines of a message, joined by newlines. *)
Definition lines (ls : list str) : str := Pystr.join newline ls.

(** The checks of [invalid_patterns], in order. *)
Definition invalid_patterns : list (str -> bool) :=
  [ fun c => negb (count_char dquote c mod 2 =? 0);
    fun c => negb (count_char squote c mod 2 =? 0);
    fun c => negb (count_char "("%char c =? count_char ")"%char c);
    fun c => negb (count_char "["%char c =? count_char "]"%char c);
    fun c => negb (count_char "{"%char c =? count_char "}"%char c);
    fun c => startswith c (lit "|");
    fun c => endswith c (lit "|");
    fun c => contains (lit "||") (replace (lit "||") [] c);
    fun c => startswith c (lit ">");
    fun c => startswith c (lit "<") ].

Definition validate_syntax (command : str) : bool :=
  if blank command then false
  else
    let command := strip command in
    if existsb (fun check => check command) invalid_patterns then false
    else match split command with
         | SplitError _ => false
         | Tokens _ => true
         end.

(** The loop over [entries] looking for a directory whose name equals
    [basename] up to case. *)
Fixpoint find_entry (os : OS) (parent basename : str) (entries : list str)
  : option str :=
  match entries with
  | [] => None
  | entry :: rest =>
      if str_eqb (lower entry) (lower basename) then
        let full_path := Posixpath.join parent entry in
        if isdir os full_path then Some full_path
        else find_entry os parent basename rest
      else find_entry os parent basename rest
  end.

(** [_execute_cd]: the result and the executor's [working_directory]
    afterwards. *)
Definition _execute_cd (os : OS) (clk : Clock) (working_directory : str)
  (command : str) : ExecutionResult * str :=
  let elapsed := (end_time clk - start_time clk)%Q in
  let failed message :=
    ({| command := command; stdout := []; stderr := message;
        exit_code := 1; execution_time := elapsed; timestamp := now clk |},
     working_directory) in
  match split command with
  | SplitError message => failed (lit "cd: " ++ message)
  | Tokens parts =>
      let target_dir :=
        match parts with
        | _ :: arg :: _ => expandvars os (expanduser os arg)
        | _ => expanduser os (lit "~")
        end in
      let target_dir :=
        if negb (Posixpath.isabs target_dir)
        then Posixpath.join working_directory target_dir else target_dir in
      let target_dir := Posixpath.normpath target_dir in
      let target_dir :=
        if negb (isdir os target_dir) then
          let parent := Posixpath.dirname target_dir in
          let basename := Posixpath.basename target_dir in
          if isdir os parent then
            match listdir os parent with
            | Some entries =>
                match find_entry os parent basename entries with
                | Some full_path => full_path
                | None => target_dir
                end
            | None => target_dir
            end
          else target_dir
        else target_dir in
      if isdir os target_dir then
        match chdir os target_dir with
        | Entered cwd =>
            ({| command := command;
                stdout := lit "Changed directory to: " ++ cwd;
                stderr := []; exit_code := 0;
                execution_time := elapsed; timestamp := now clk |},
             cwd)
        | ChdirRaises _ message => failed (lit "cd: " ++ message)
        end
      else failed (lit "cd: no such file or directory: " ++ target_dir)
  end.

(** The [stderr] texts of the five [except] clauses. *)
Definition timeout_message (command : str) : str :=
  lines [ lit "Command timed out after 300 seconds";
          lit "  • The command may be waiting for input";
          lit "  • Try running with a shorter timeout or in the background";
          lit "  • Command: " ++ command ].

Definition permission_message (e command : str) : str :=
  lines [ lit "Permission denied: " ++ e;
          lit "  • You may need elevated privileges (sudo)";
          lit "  • Check file/directory permissions";
          lit "  • Command: " ++ command ].

Definition not_found_message (e command : str) : str :=
  lines [ lit "Command or file not found: " ++ e;
          lit "  • Check if the command is installed";
          lit "  • Verify the file path is correct";
          lit "  • Command: " ++ command ].

Definition os_error_message (e command : str) : str :=
  lines [ lit "Operating system error: " ++ e;
          lit "  • The system could not execute the command";
          lit "  • Check system resources and permissions";
          lit "  • Command: " ++ command ].

Definition unexpected_message (e type_name command : str) : str :=
  lines [ lit "Unexpected execution error: " ++ e;
          lit "  • An unknown error occurred";
          lit "  • Command: " ++ command;
          lit "  • Error type: " ++ type_name ].

Definition invalid_syntax_message (command : str) : str :=
  lines [ lit "Invalid command syntax: " ++ command;
          lit "  • Check for unmatched quotes or brackets";
          lit "  • Verify pipe and redirection usage" ].

(** The [subprocess.run] call of [execute] with its [except] clauses. *)
Definition run_subprocess (os : OS) (clk : Clock) (working_directory : str)
  (command : str) : result :=
  let elapsed := (end_time clk - start_time clk)%Q in
  let failure out message :=
    Returns {| command := command; stdout := out; stderr := message;
               exit_code := (-1)%Z; execution_time := elapsed;
               timestamp := now clk |} in
  match run os command working_directory with
  | Completed out err returncode =>
      Returns {| command := command; stdout := out; stderr := err;
                 exit_code := returncode; execution_time := elapsed;
                 timestamp := now clk |}
  | TimeoutExpired NoOutput => failure [] (timeout_message command)
  | TimeoutExpired (Decodes text) => failure text (timeout_message command)
  | TimeoutExpired Undecodable => Raises UnicodeDecodeError
  | PermissionError e => failure [] (permission_message e command)
  | FileNotFoundError e => failure [] (not_found_message e command)
  | OSError e => failure [] (os_error_message e command)
  | OtherError type_name e =>
      failure [] (unexpected_message e type_name command)
  end.

(** [CommandExecutor.execute]: what the call does and the executor's
    [working_directory] afterwards. *)
Definition execute (os : OS) (clk : Clock) (working_directory : str)
  (command : str) : result * str :=
  if blank command
  then (Raises (ValueError (lit "Command cannot be empty")), working_directory)
  else if negb (validate_syntax command)
  then (Raises (ValueError (invalid_syntax_message command)), working_directory)
  else if startswith (strip command) (lit "cd ")
  then let (r, wd) := _execute_cd os clk working_directory command in
       (Returns r, wd)
  else (run_subprocess os clk working_directory command, working_directory).


(** A world for examples: [/root] is a directory that may not be entered,
    and every subprocess is refused. *)
Definition os_denied : OS :=
  {| run := fun _ _ => PermissionError (lit "[Errno 13] Permission denied");
     expanduser := fun p => p;
     expandvars := fun p => p;
     isdir := fun p => str_eqb p (lit "/root");
     listdir := fun _ => None;
     chdir := fun _ =>
       ChdirRaises (lit "PermissionError")
                   (lit "[Errno 13] Permission denied: '/root'") |}.

(** A world in which every subprocess prints bytes that are not UTF-8 and
    runs into the timeout. *)
Definition os_hanging : OS :=
  {| run := fun _ _ => TimeoutExpired Undecodable;
     expanduser := fun p => p;
     expandvars := fun p => p;
     isdir := fun _ => false;
     listdir := fun _ => None;
     chdir := fun d => Entered d |}.

(** A world with the directories [/home/u] and [/home/u/Work]; every
    subprocess succeeds silently. *)
Definition os_home : OS :=
  {| run := fun _ _ => Completed [] [] 0;
     expanduser := fun p => if str_eqb p (lit "~") then lit "/home/u" else p;
     expandvars := fun p => p;
     isdir := fun p => str_eqb p (lit "/home/u") || str_eqb p (lit "/home/u/Work");
     listdir := fun d =>
       if str_eqb d (lit "/home/u") then Some [lit "Work"; lit "notes.txt"]
       else None;
     chdir := fun d => Entered d |}.

Definition clock0 : Clock := {| now := 0%Z; start_time := 0%Q; end_time := 1%Q |}.

End Executor.

(** ** src/rituals.py *)

Module Rituals.

Inductive StepStatus := PENDING | RUNNING | SUCCESS | FAILED | SKIPPED.

Record RitualStep := {
  order : Z;
  command : str;
  description : option str;
  status : StepStatus;
  output : option str;
  error : option str;
  execution_time : Q
}.

Record Ritual := {
  id : Z;
  name : str;
  ritual_description : str;
  steps : list RitualStep
}.

Record RitualExecution := {
  ritual : Ritual;
  current_step : nat;
  start_time : option Z;
  end_time : option Z;
  success : bool
}.

(** What a call of [executor_func] does: it returns the tuple
    [(exit_code, stdout, stderr)], or raises. *)
Inductive call_outcome :=
| Returned (exit_code : Z) (out err : str)
| Raised (message : str).


(** The attribute assignments of the loop body. *)
Definition with_status (s : RitualStep) (st : StepStatus) : RitualStep :=
  {| order := order s; command := command s; description := description s;
     status := st; output := output s; error := error s;
     execution_time := execution_time s |}.

Definition with_result (s : RitualStep) (elapsed : Q) (out err : str)
  (st : StepStatus) : RitualStep :=
  {| order := order s; command := command s; description := description s;
     status := st; output := Some out; error := Some err;
     execution_time := elapsed |}.

Definition with_exception (s : RitualStep) (elapsed : Q) (message : str)
  : RitualStep :=
  {| order := order s; command := command s; description := description s;
     status := FAILED; output := output s; error := Some message;
     execution_time := elapsed |}.

Section Run.

(** The world the executor function and the callback act on, with its
    clocks [time.time()] and [datetime.now()]. *)
Variable World : Type.
Variable time : World -> Q.
Variable datetime_now : World -> Z.

Definition executor := str -> World -> call_outcome * World.

(** [progress_callback(step, step_num, total)]; [None] when it raises. *)
Definition callback := RitualStep -> nat -> nat -> World -> option World.

(** How the [for] loop ends. *)
Inductive loop_end :=
| Completed
| Halted
| CallbackRaised.

(** The state left by the loop: how it ended, the ritual's steps as
    mutated, [execution.current_step], the world, and the calls made to
    [executor_func] with their outcomes, oldest first. *)
Record loop_state := {
  ending : loop_end;
  steps_now : list RitualStep;
  current : nat;
  world : World;
  calls : list (str * call_outcome)
}.

(** [for i, step in enumerate(ritual.steps)], from index [i] on; [done]
    are the steps before [i]. *)
Fixpoint run_steps (executor_func : executor)
  (progress_callback : option callback) (total i current : nat)
  (done todo : list RitualStep) (w : World)
  (calls : list (str * call_outcome)) : loop_state :=
  match todo with
  | [] =>
      {| ending := Completed; steps_now := done; current := current;
         world := w; calls := calls |}
  | step :: rest =>
      let step := with_status step RUNNING in
      match match progress_callback with
            | Some notify => notify step (i + 1) total w
            | None => Some w
            end with
      | None =>
          {| ending := CallbackRaised; steps_now := done ++ step :: rest;
             current := i; world := w; calls := calls |}
      | Some w1 =>
          let start := time w1 in
          let (o, w2) := executor_func (command step) w1 in
          let elapsed := (time w2 - start)%Q in
          let calls := calls ++ [(command step, o)] in
          match o with
          | Returned exit_code out err =>
              if (exit_code =? 0)%Z then
                run_steps executor_func progress_callback total (i + 1) i
                  (done ++ [with_result step elapsed out err SUCCESS])
                  rest w2 calls
              else
                {| ending := Halted;
                   steps_now :=
                     done ++ with_result step elapsed out err FAILED :: rest;
                   current := i; world := w2; calls := calls |}
          | Raised message =>
              {| ending := Halted;
                 steps_now := done ++ with_exception step elapsed message :: rest;
                 current := i; world := w2; calls := calls |}
          end
      end
  end.


(** What [execute_ritual] leaves behind: the execution it returns ([None]
    when the callback's exception propagates), the ritual's steps as the
    caller sees them afterwards, the world, and the calls made to
    [executor_func]. *)
Record run := {
  returned : option RitualExecution;
  steps_after : list RitualStep;
  world_after : World;
  executor_calls : list (str * call_outcome)
}.

Definition execute_ritual (r : Ritual) (executor_func : executor)
  (progress_callback : option callback) (w : World) : run :=
  let started := datetime_now w in
  let total_steps := length (steps r) in
  let final :=
    run_steps executor_func progress_callback total_steps 0 0 [] (steps r) w [] in
  let mutated :=
    {| id := id r; name := name r; ritual_description := ritual_description r;
       steps := steps_now final |} in
  let finish ok :=
    Some {| ritual := mutated; current_step := current final;
            start_time := Some started;
            end_time := Some (datetime_now (world final));
            success := ok |} in
  {| returned :=
       match ending final with
       | Completed => finish true
       | Halted => finish false
       | CallbackRaised => None
       end;
     steps_after := steps_now final;
     world_after := world final;
     executor_calls := calls final |}.

End Run.

(** A ritual as [get_ritual] builds it, and an executor function for
    examples: the command "make test" exits with code 2, every other
    command with code 0; the world counts the calls. *)
Definition fresh_step (i : Z) (cmd : str) : RitualStep :=
  {| order := i; command := cmd; description := None; status := PENDING;
     output := None; error := None; execution_time := 0%Q |}.

Definition deploy : Ritual :=
  {| id := 1%Z; name := lit "deploy"; ritual_description := lit "Deploy";
     steps := [ fresh_step 0 (lit "git pull");
                fresh_step 1 (lit "make test");
                fresh_step 2 (lit "make install") ] |}.

Definition failing_tests : executor nat :=
  fun cmd w =>
    if str_eqb cmd (lit "make test")
    then (Returned 2 [] (lit "1 test failed"), S w)
    else (Returned 0 (lit "ok") [], S w).

End Rituals.

(** ** src/history.py, with the SQL it sends to SQLite *)

Module History.

Record HistoryEntry := {
  id : Z;
  natural_language : str;
  shell_command : str;
  working_directory : str;
  exit_code : Z;
  timestamp : str;      (* the ISO text stored in the table *)
  execution_time : Q
}.

(** The table [command_history], oldest row first, and the last id given
    out by AUTOINCREMENT. *)
Record Store := { rows : list HistoryEntry; last_id : Z }.

Inductive exception :=
| ValueError (message : str)
| SqliteError (message : str)
| RuntimeError (message : str)
| OverflowError (message : str).

Inductive result (A : Type) :=
| Raises (e : exception)
| Returns (a : A).
Arguments Raises {A} e.
Arguments Returns {A} a.

(** *** SQLite's LIKE *)

(** SQLite folds the case of the ASCII letters only. *)
Definition sql_fold (c : ascii) : ascii :=
  let n := code c in
  if (65 <=? n) && (n <=? 90) then ascii_of_nat (n + 32) else c.

(** Text as the LIKE function reads it: up to the first NUL. *)
Fixpoint c_text (s : str) : str :=
  match s with
  | [] => []
  | c :: rest => if code c =? 0 then [] else c :: c_text rest
  end.

Definition percent : ascii := "%"%char.
Definition underscore : ascii := "_"%char.

(** [%] matches any run of characters, [_] any one character, every
    other character itself up to ASCII case. *)
Fixpoint like_here (pattern s : str) {struct pattern} : bool :=
  match pattern with
  | [] => negb (truthy s)
  | p :: pattern' =>
      if ascii_eqb p percent then
        (fix skip (s : str) : bool :=
           like_here pattern' s
           || match s with
              | _ :: s' => skip s'
              | [] => false
              end) s
      else
        match s with
        | c :: s' =>
            (ascii_eqb p underscore || ascii_eqb (sql_fold p) (sql_fold c))
            && like_here pattern' s'
        | [] => false
        end
  end.

(** [s LIKE pattern] *)
Definition like (s pattern : str) : bool := like_here (c_text pattern) (c_text s).

(** The parameter [f"%{natural_language}%"]. *)
Definition like_parameter (natural_language : str) : str :=
  [percent] ++ natural_language ++ [percent].

(** The integers [sqlite3] binds to a statement: those of 64 bits.  For
    any other it raises [OverflowError] with the text below, when it
    binds the parameters. *)
Definition fits_int64 (n : Z) : bool :=
  (- 2 ^ 63 <=? n)%Z && (n <? 2 ^ 63)%Z.

Definition too_large : str :=
  lit "Python int too large to convert to SQLite INTEGER".

(** *** save_command *)

(** [fault] is the [sqlite3.Error] that the call meets, if it meets
    one. *)
Definition save_command (store : Store) (fault : option str)
  (getcwd now_iso : str)
  (natural_language shell_command : str) (exit_code : Z) (execution_time : Q)
  (working_directory : option str) : result unit * Store :=
  if blank natural_language
  then (Raises (ValueError (lit "natural_language cannot be empty")), store)
  else if blank shell_command
  then (Raises (ValueError (lit "shell_command cannot be empty")), store)
  else if negb (Qle_bool 0 execution_time)
  then (Raises (ValueError (lit "execution_time cannot be negative")), store)
  else
    let working_directory :=
      match working_directory with
      | None => getcwd
      | Some d => d
      end in
    let timestamp := now_iso in
    match fault with
    | Some e =>
        (Raises (SqliteError (lit "Failed to save command to history: " ++ e)),
         store)
    | None =>
        if negb (fits_int64 exit_code)
        then (Raises (RuntimeError
                        (lit "Unexpected error saving command: " ++ too_large)),
              store)
        else
        let new_id := (last_id store + 1)%Z in
        (Returns tt,
         {| rows := rows store
                    ++ [ {| id := new_id;
                            natural_language := natural_language;
                            shell_command := shell_command;
                            working_directory := working_directory;
                            exit_code := exit_code;
                            timestamp := timestamp;
                            execution_time := execution_time |} ];
            last_id := new_id |})
    end.

(** *** get_suggestions *)

(** One row of the grouped query: the bare columns (taken from the row
    of the group holding the greatest timestamp), [COUNT( * )] and
    [MAX(timestamp)]. *)
Record group := {
  row : HistoryEntry;
  frequency : nat;
  last_used : str
}.

(** The first row with the greatest timestamp. *)
Fixpoint latest (r : HistoryEntry) (rs : list HistoryEntry) : HistoryEntry :=
  match rs with
  | [] => r
  | x :: rs' => latest (if str_ltb (timestamp r) (timestamp x) then x else r) rs'
  end.

(** The distinct elements, by first appearance. *)
Fixpoint distinct (seen l : list str) : list str :=
  match l with
  | [] => []
  | x :: rest =>
      if str_in x seen then distinct seen rest
      else x :: distinct (x :: seen) rest
  end.

Definition has_command (k : str) (r : HistoryEntry) : bool :=
  str_eqb (shell_command r) k.

(** [GROUP BY shell_command] *)
Definition group_by_command (matching : list HistoryEntry) : list group :=
  flat_map
    (fun k =>
       match filter (has_command k) matching with
       | [] => []
       | r :: rs =>
           let top := latest r rs in
           [ {| row := top; frequency := length (r :: rs);
                last_used := timestamp top |} ]
       end)
    (distinct [] (map shell_command matching)).

(** [ORDER BY frequency DESC, last_used DESC]: [a] may come before [b]. *)
Module GroupOrder <: TotalLeBool.
Definition t := group.
Definition leb (a b : group) : bool :=
  (frequency b <? frequency a)
  || ((frequency a =? frequency b) && str_leb (last_used b) (last_used a)).
Lemma str_leb_total a : forall b, str_leb a b = true \/ str_leb b a = true.
Proof.
  induction a as [|x a IH]; intros [|y b]; simpl; auto.
  destruct (Nat.lt_trichotomy (code x) (code y)) as [H | [H | H]].
  - left. apply orb_true_iff. left. now apply Nat.ltb_lt.
  - rewrite H, Nat.eqb_refl, Nat.ltb_irrefl. simpl. apply IH.
  - right. apply orb_true_iff. left. now apply Nat.ltb_lt.
Qed.
Theorem leb_total : forall a b, leb a b = true \/ leb b a = true.
Proof.
  intros a b. unfold leb.
  destruct (Nat.lt_trichotomy (frequency a) (frequency b)) as [H | [H | H]].
  - right. apply orb_true_iff. left. now apply Nat.ltb_lt.
  - rewrite H, Nat.eqb_refl, Nat.ltb_irrefl. simpl. apply str_leb_total.
  - left. apply orb_true_iff. left. now apply Nat.ltb_lt.
Qed.
End GroupOrder.

Module GroupSort := Sort GroupOrder.

(** The rows the query yields. *)
Definition suggestions_query (store : Store) (parameter : str) (limit : Z)
  : list HistoryEntry :=
  let matching :=
    filter (fun r => like (natural_language r) parameter) (rows store) in
  firstn (Z.to_nat limit)
         (map row (GroupSort.sort (group_by_command matching))).

(** The first row whose timestamp [datetime.fromisoformat] rejects. *)
Fixpoint unreadable (fromisoformat : str -> bool) (found : list HistoryEntry)
  : option HistoryEntry :=
  match found with
  | [] => None
  | r :: rest =>
      if fromisoformat (timestamp r) then unreadable fromisoformat rest
      else Some r
  end.

(** [get_suggestions]; [fault] is the [sqlite3.Error] the storage raises,
    if any, and [fromisoformat] tells which texts [datetime.fromisoformat]
    reads (all those that [isoformat()] writes). *)
Definition get_suggestions (store : Store) (fault : option str)
  (fromisoformat : str -> bool)
  (natural_language : str) (limit : Z) : result (list HistoryEntry) :=
  if blank natural_language
  then Raises (ValueError (lit "natural_language cannot be empty"))
  else if (limit <=? 0)%Z
  then Raises (ValueError (lit "limit must be positive"))
  else
    match fault with
    | Some e => Raises (SqliteError (lit "Failed to retrieve suggestions: " ++ e))
    | None =>
        if negb (fits_int64 limit)
        then Raises (RuntimeError
                       (lit "Unexpected error retrieving suggestions: "
                        ++ too_large))
        else
        let found :=
          suggestions_query store (like_parameter natural_language) limit in
        match unreadable fromisoformat found with
        | Some r =>
            Raises (RuntimeError
                      (lit "Unexpected error retrieving suggestions: "
                       ++ lit "Invalid isoformat string: '" ++ timestamp r
                       ++ lit "'"))
        | None => Returns found
        end
    end.

(** The specification's reading of the ranking: the rows the query
    matches, how often a command occurs among them, and when one result
    may stand before another. *)
Definition matching (store : Store) (query : str) : list HistoryEntry :=
  filter (fun r => like (natural_language r) (like_parameter query))
         (rows store).

Definition uses (store : Store) (query : str) (e : HistoryEntry) : nat :=
  length (filter (has_command (shell_command e)) (matching store query)).

Definition ranked_before (store : Store) (query : str) (a b : HistoryEntry)
  : Prop :=
  uses store query b < uses store query a
  \/ (uses store query a = uses store query b
      /\ str_leb (timestamp b) (timestamp a) = true).

(** An entry as [save_command] writes it, for examples. *)
Definition entry (i : Z) (nl cmd ts : string) : HistoryEntry :=
  {| id := i; natural_language := lit nl; shell_command := lit cmd;
     working_directory := lit "/tmp"; exit_code := 0%Z;
     timestamp := lit ts; execution_time := (1 # 10)%Q |}.

Definition one_listing : Store :=
  {| rows := [entry 1 "list files" "ls" "2025-01-01T10:00:00"]; last_id := 1%Z |}.

(** A history for examples: six commands in two directories, "ls" used
    three times. *)
Definition entry_in (i : Z) (wd nl cmd ts : string) : HistoryEntry :=
  {| id := i; natural_language := lit nl; shell_command := lit cmd;
     working_directory := lit wd; exit_code := 0%Z;
     timestamp := lit ts; execution_time := (1 # 10)%Q |}.

Definition sample_history : Store :=
  {| rows :=
       [ entry_in 1 "/proj" "list files" "ls" "2025-01-01T10:00:00";
         entry_in 2 "/proj" "list all files" "ls -a" "2025-01-02T10:00:00";
         entry_in 3 "/tmp" "List files" "ls" "2025-01-03T10:00:00";
         entry_in 4 "/proj" "show disk usage" "df -h" "2025-01-04T10:00:00";
         entry_in 5 "/proj" "list files by size" "ls -S" "2025-01-05T10:00:00";
         entry_in 6 "/proj" "list files" "ls" "2025-01-06T10:00:00" ];
     last_id := 6%Z |}.

(** [datetime.fromisoformat] on the timestamp of the example. *)
Definition reads_example (ts : str) : bool :=
  str_eqb ts (lit "2025-01-01T10:00:00").

(** [datetime.fromisoformat] on the texts of the sample history: it
    reads the timestamps of January 2025 written in full. *)
Definition reads_dates (ts : str) : bool :=
  startswith ts (lit "2025-01-") && (length ts =? 19).

End History.

(** ** Python's [difflib.get_close_matches], as the corrector calls it
    ([n=1]); ratios are exact rationals *)

Module Difflib.

(** [b2j]: the positions of a character in [b]; characters that are too
    popular in a [b] of 200 characters or more have no entry. *)
Definition is_popular (b : str) (c : ascii) : bool :=
  (200 <=? length b) && (length b / 100 + 1 <? count_char c b).

Fixpoint positions (c : ascii) (b : str) (j : nat) : list nat :=
  match b with
  | [] => []
  | x :: b' =>
      if ascii_eqb x c then j :: positions c b' (S j)
      else positions c b' (S j)
  end.

Definition b2j (b : str) (c : ascii) : list nat :=
  if is_popular b c then [] else positions c b 0.

(** [j2len.get(j-1, 0)] *)
Definition j2len_get (j2len : list (nat * nat)) (j : nat) : nat :=
  match j with
  | 0 => 0
  | S j' =>
      match find (fun p => fst p =? j') j2len with
      | Some p => snd p
      | None => 0
      end
  end.

(** A block [(besti, bestj, bestsize)]. *)
Definition block := (nat * nat * nat)%type.

(** The inner loop [for j in b2j.get(a[i], nothing)]. *)
Fixpoint scan_row (i blo bhi : nat) (js : list nat)
  (j2len newj2len : list (nat * nat)) (best : block)
  : list (nat * nat) * block :=
  match js with
  | [] => (newj2len, best)
  | j :: js' =>
      if j <? blo then scan_row i blo bhi js' j2len newj2len best
      else if bhi <=? j then (newj2len, best)
      else
        let k := j2len_get j2len j + 1 in
        let best' :=
          let '(_, _, bestsize) := best in
          if bestsize <? k then (i + 1 - k, j + 1 - k, k) else best in
        scan_row i blo bhi js' j2len ((j, k) :: newj2len) best'
  end.

(** The outer loop [for i in range(alo, ahi)], [count] rows from [i]. *)
Fixpoint scan_rows (a b : str) (blo bhi i count : nat)
  (j2len : list (nat * nat)) (best : block) : block :=
  match count with
  | 0 => best
  | S count' =>
      let js :=
        match nth_error a i with
        | Some c => b2j b c
        | None => []
        end in
      let '(newj2len, best') := scan_row i blo bhi js j2len [] best in
      scan_rows a b blo bhi (S i) count' newj2len best'
  end.

Definition same_at (a : str) (i : nat) (b : str) (j : nat) : bool :=
  match nth_error a i, nth_error b j with
  | Some x, Some y => ascii_eqb x y
  | _, _ => false
  end.

(** The two [while] loops that extend the block on matching elements;
    [steps] bounds the iterations. *)
Fixpoint extend_left (a b : str) (alo blo steps : nat) (best : block) : block :=
  match steps with
  | 0 => best
  | S steps' =>
      let '(besti, bestj, bestsize) := best in
      if (alo <? besti) && (blo <? bestj) && same_at a (besti - 1) b (bestj - 1)
      then extend_left a b alo blo steps' (besti - 1, bestj - 1, bestsize + 1)
      else best
  end.

Fixpoint extend_right (a b : str) (ahi bhi steps : nat) (best : block) : block :=
  match steps with
  | 0 => best
  | S steps' =>
      let '(besti, bestj, bestsize) := best in
      if (besti + bestsize <? ahi) && (bestj + bestsize <? bhi)
         && same_at a (besti + bestsize) b (bestj + bestsize)
      then extend_right a b ahi bhi steps' (besti, bestj, bestsize + 1)
      else best
  end.

(** [find_longest_match], the two extension loops bounded by [steps]. *)
Definition find_longest_match_within (steps : nat) (a b : str)
  (alo ahi blo bhi : nat) : block :=
  let best := scan_rows a b blo bhi alo (ahi - alo) [] (alo, blo, 0) in
  let best := extend_left a b alo blo steps best in
  extend_right a b ahi bhi steps best.

(** No block of [a] takes more than [len(a)] steps to extend. *)
Definition find_longest_match (a b : str) (alo ahi blo bhi : nat) : block :=
  find_longest_match_within (length a) a b alo ahi blo bhi.

(** The total size of the matching blocks of [a[alo:ahi]] and
    [b[blo:bhi]] ([get_matching_blocks], summed); [depth] bounds the
    nesting of the ranges taken from the queue. *)
Fixpoint matched (a b : str) (depth alo ahi blo bhi : nat) : nat :=
  match depth with
  | 0 => 0
  | S depth' =>
      let '(i, j, k) := find_longest_match a b alo ahi blo bhi in
      if k =? 0 then 0
      else
        k
        + (if (alo <? i) && (blo <? j)
           then matched a b depth' alo i blo j else 0)
        + (if (i + k <? ahi) && (j + k <? bhi)
           then matched a b depth' (i + k) ahi (j + k) bhi else 0)
  end.

(** [_calculate_ratio(matches, length)] *)
Definition calculate_ratio (matches len : nat) : Q :=
  if len =? 0 then 1%Q
  else (Z.of_nat (2 * matches) # Pos.of_nat len)%Q.

Definition ratio (a b : str) : Q :=
  calculate_ratio (matched a b (S (length a)) 0 (length a) 0 (length b))
                  (length a + length b).

(** The size of the intersection of [a] and [b] as multisets. *)
Fixpoint take_one (c : ascii) (avail : str) : option str :=
  match avail with
  | [] => None
  | x :: rest =>
      if ascii_eqb x c then Some rest
      else option_map (cons x) (take_one c rest)
  end.

Fixpoint common (a avail : str) : nat :=
  match a with
  | [] => 0
  | c :: a' =>
      match take_one c avail with
      | Some avail' => S (common a' avail')
      | None => common a' avail
      end
  end.

Definition quick_ratio (a b : str) : Q :=
  calculate_ratio (common a b) (length a + length b).

Definition real_quick_ratio (a b : str) : Q :=
  calculate_ratio (Nat.min (length a) (length b)) (length a + length b).

(** Tuples [(score, x)] compared as Python compares them. *)
Definition scored_ltb (p q : Q * str) : bool :=
  negb (Qle_bool (fst q) (fst p))
  || (Qeq_bool (fst p) (fst q) && str_ltb (snd p) (snd q)).

(** [max(result)]: the first greatest element. *)
Fixpoint max_scored (cur : Q * str) (rest : list (Q * str)) : Q * str :=
  match rest with
  | [] => cur
  | y :: rest' => max_scored (if scored_ltb cur y then y else cur) rest'
  end.

(** The possibilities that score at least [cutoff], with their scores. *)
Definition close_enough (word : str) (possibilities : list str) (cutoff : Q)
  : list (Q * str) :=
  flat_map
    (fun x =>
       if Qle_bool cutoff (real_quick_ratio x word)
          && Qle_bool cutoff (quick_ratio x word)
          && Qle_bool cutoff (ratio x word)
       then [(ratio x word, x)] else [])
    possibilities.

(** [get_close_matches(word, possibilities, n=1, cutoff=cutoff)]; [None]
    is the [ValueError] for a cutoff outside [0, 1]. *)
Definition get_close_matches (word : str) (possibilities : list str)
  (cutoff : Q) : option (list str) :=
  if negb (Qle_bool 0 cutoff && Qle_bool cutoff 1) then None
  else
    match close_enough word possibilities cutoff with
    | [] => Some []
    | first :: rest => Some [snd (max_scored first rest)]
    end.

End Difflib.

(** ** src/corrector.py *)

Module Corrector.

(** What [os.listdir] does: it returns the entries, or raises
    [OSError], or raises [ValueError] (for a path that holds a NUL). *)
Inductive listing :=
| Listed (files : list str)
| RaisesOSError
| RaisesValueError (message : str).

(** The file system as the corrector sees it: [os.listdir] and
    [os.path.exists]. *)
Record FS := {
  listdir : str -> listing;
  path_exists : str -> bool
}.

Inductive result :=
| Raises (message : str)
| Returns (command : str).

(** [_find_case_insensitive] *)
Fixpoint _find_case_insensitive (target : str) (options : list str)
  : option str :=
  match options with
  | [] => None
  | opt :: rest =>
      if str_eqb (lower opt) (lower target) then Some opt
      else _find_case_insensitive target rest
  end.

(** [if case_match:] *)
Definition found (case_match : option str) : option str :=
  match case_match with
  | Some m => if truthy m then Some m else None
  | None => None
  end.

(** The body of the loop for one [part]: the part to append and whether
    [modified] is set; [None] when [get_close_matches] raises. *)
Definition correct_part (fs : FS) (cutoff : Q) (working_directory : str)
  (actual_files : list str) (part : str) : option (str * bool) :=
  if startswith part (lit "-") then Some (part, false)
  else
    let full_path := Posixpath.join working_directory part in
    if path_exists fs full_path then
      if str_in part actual_files then Some (part, false)
      else if negb (contains [Posixpath.sep] part)
              && negb (contains (lit "/") part) then
        match found (_find_case_insensitive part actual_files) with
        | Some case_match => Some (case_match, true)
        | None => Some (part, false)
        end
      else Some (part, false)
    else
      match Difflib.get_close_matches part actual_files cutoff with
      | None => None
      | Some (best :: _) =>
          match found (_find_case_insensitive part actual_files) with
          | Some case_match => Some (case_match, true)
          | None => Some (best, true)
          end
      | Some [] =>
          match found (_find_case_insensitive part actual_files) with
          | Some case_match => Some (case_match, true)
          | None => Some (part, false)
          end
      end.

(** [for part in parts[1:]] *)
Fixpoint correct_parts (fs : FS) (cutoff : Q) (working_directory : str)
  (actual_files : list str) (parts corrected_parts : list str)
  (modified : bool) : option (list str * bool) :=
  match parts with
  | [] => Some (corrected_parts, modified)
  | part :: rest =>
      match correct_part fs cutoff working_directory actual_files part with
      | None => None
      | Some (part', changed) =>
          correct_parts fs cutoff working_directory actual_files rest
            (corrected_parts ++ [part']) (modified || changed)
      end
  end.

(** [PathCorrector(cutoff).correct_paths(command, working_directory)];
    it raises when [os.listdir] raises [ValueError], which the handler
    for [OSError] does not take, and when [get_close_matches] rejects
    the cutoff. *)
Definition correct_paths (fs : FS) (cutoff : Q) (command : str)
  (working_directory : str) : result :=
  if contains (lit "|") command || contains (lit ">") command
     || contains (lit "&&") command
  then Returns command
  else
    match Shlex.split command with
    | Shlex.SplitError _ => Returns command
    | Shlex.Tokens [] => Returns command
    | Shlex.Tokens (first :: rest) =>
        match listdir fs working_directory with
        | RaisesOSError => Returns command
        | RaisesValueError e => Raises e
        | Listed actual_files =>
            match correct_parts fs cutoff working_directory actual_files
                    rest [first] false with
            | None => Raises (lit "cutoff must be in [0.0, 1.0]")
            | Some (corrected_parts, modified) =>
                if modified then Returns (Shlex.join corrected_parts)
                else Returns command
            end
        end
    end.

(** The default similarity threshold. *)
Definition default_cutoff : Q := (6 # 10)%Q.

(** Directories for examples, all at [/proj] on a case-sensitive file
    system: one holding the file [data.txt]; one holding the file
    [README.TXT] and a dangling symbolic link [Readme.txt]; one holding
    only a dangling symbolic link [link].  A dangling link is listed by
    [os.listdir], and [os.path.exists] is false for it. *)
Definition a_directory (entries existing : list string) : FS :=
  {| listdir := fun d =>
       if str_eqb d (lit "/proj") then Listed (map lit entries)
       else if existsb (fun c => code c =? 0) d
       then RaisesValueError (lit "embedded null byte")
       else RaisesOSError;
     path_exists := fun p =>
       str_eqb p (lit "/proj")
       || existsb (fun e => str_eqb p (lit "/proj/" ++ lit e)) existing |}.

Definition with_data : FS := a_directory ["data.txt"%string] ["data.txt"%string].

Definition with_dangling_readme : FS :=
  a_directory ["README.TXT"%string; "Readme.txt"%string] ["README.TXT"%string].

Definition with_dangling_link : FS := a_directory ["link"%string] [].

(** A directory of four files, three of them close to "data.tx". *)
Definition with_several : FS :=
  a_directory ["data.csv"%string; "notes.md"%string; "date.txt"%string;
               "data.txt"%string]
              ["data.csv"%string; "notes.md"%string; "date.txt"%string;
               "data.txt"%string].

End Corrector.

(** ** src/executor.py: the working-directory accessors *)

Module ExecutorState.

(** [os.path.abspath(path)], with [os.getcwd()] given. *)
Definition abspath (getcwd path : str) : str :=
  Posixpath.normpath
    (if negb (Posixpath.isabs path) then Posixpath.join getcwd path else path).

Inductive set_result :=
| Done
| RaisesValueError (message : str).

(** [get_working_directory] *)
Definition get_working_directory (working_directory : str) : str :=
  working_directory.

(** [set_working_directory]: what the call does and the executor's
    [working_directory] afterwards. *)
Definition set_working_directory (os : Executor.OS) (getcwd : str)
  (working_directory directory : str) : set_result * str :=
  if negb (Executor.isdir os directory)
  then (RaisesValueError (lit "Directory does not exist: " ++ directory),
        working_directory)
  else (Done, abspath getcwd directory).

End ExecutorState.

(** ** src/history.py: the other tables and queries *)

Module Sql.

(** [ORDER BY]: [before a b] tells that [a] may stand before [b]; rows
    that compare equal keep the order of the table. *)
Section OrderBy.

Variable A : Type.
Variable before : A -> A -> bool.

Fixpoint place (x : A) (sorted : list A) : list A :=
  match sorted with
  | [] => [x]
  | y :: rest => if before x y then x :: sorted else y :: place x rest
  end.

Definition order_by (table : list A) : list A := fold_right place [] table.

End OrderBy.

(** [LIMIT ?]: a negative limit is no limit. *)
Definition limit_rows (A : Type) (limit : Z) (found : list A) : list A :=
  if (limit <? 0)%Z then found else firstn (Z.to_nat limit) found.

End Sql.

(** *** rejected_commands *)

Module Rejections.

Record Rejection := {
  id : Z;
  natural_language : str;
  shell_command : str;
  timestamp : str       (* the ISO text stored in the table *)
}.

(** The table, oldest row first, and the last id of AUTOINCREMENT. *)
Record Table := { rows : list Rejection; last_id : Z }.

Definition add_rejection (table : Table) (fault : option str) (now_iso : str)
  (natural_language shell_command : str) : History.result unit * Table :=
  let timestamp := now_iso in
  match fault with
  | Some e =>
      (History.Raises
         (History.SqliteError (lit "Failed to record rejection: " ++ e)),
       table)
  | None =>
      let new_id := (last_id table + 1)%Z in
      (History.Returns tt,
       {| rows := rows table
                  ++ [ {| id := new_id;
                          natural_language := natural_language;
                          shell_command := shell_command;
                          timestamp := timestamp |} ];
          last_id := new_id |})
  end.

(** [WHERE natural_language LIKE ?] *)
Definition similar_to (query : str) (r : Rejection) : bool :=
  History.like (natural_language r) (History.like_parameter query).

(** [ORDER BY timestamp DESC] *)
Definition newest_first (a b : Rejection) : bool :=
  str_leb (timestamp b) (timestamp a).

(** [get_rejections]: only [sqlite3.Error] is caught, so the
    [OverflowError] of a limit beyond 64 bits goes up as it is. *)
Definition get_rejections (table : Table) (fault : option str)
  (query : str) (limit : Z) : History.result (list str) :=
  match fault with
  | Some _ => History.Returns []
  | None =>
      if negb (History.fits_int64 limit)
      then History.Raises (History.OverflowError History.too_large)
      else
        History.Returns
          (map shell_command
               (Sql.limit_rows limit
                  (Sql.order_by newest_first
                     (filter (similar_to query) (rows table)))))
  end.

(** [DELETE ... WHERE natural_language = ?] *)
Definition clear_rejections (table : Table) (fault : option str)
  (query : str) : Table :=
  match fault with
  | Some _ => table
  | None =>
      {| rows := filter (fun r => negb (str_eqb (natural_language r) query))
                        (rows table);
         last_id := last_id table |}
  end.

(** A table for examples: two rejections for inputs like "list files"
    and a later one for another input. *)
Definition sample_table : Table :=
  {| rows :=
       [ {| id := 1; natural_language := lit "list files";
            shell_command := lit "ls";
            timestamp := lit "2025-01-01T10:00:00" |};
         {| id := 2; natural_language := lit "List Files in /tmp";
            shell_command := lit "ls /tmp";
            timestamp := lit "2025-01-02T10:00:00" |};
         {| id := 3; natural_language := lit "show disk usage";
            shell_command := lit "df -h";
            timestamp := lit "2025-03-01T10:00:00" |} ];
     last_id := 3 |}.

End Rejections.

(** *** preferences *)

Module Preferences.

Record Preference := { key : str; value : str }.

Definition Table := list Preference.

Definition has_key (k : str) (p : Preference) : bool := str_eqb (key p) k.

(** [INSERT OR REPLACE]: the row holding the key, if any, is deleted and
    the new row inserted. *)
Definition set_preference (table : Table) (fault : option str)
  (key value : str) : History.result unit * Table :=
  match fault with
  | Some e =>
      (History.Raises
         (History.SqliteError (lit "Failed to set preference: " ++ e)),
       table)
  | None =>
      (History.Returns tt,
       filter (fun p => negb (has_key key p)) table
       ++ [ {| key := key; value := value |} ])
  end.

Definition get_preference (table : Table) (fault : option str)
  (key : str) (default : option str) : option str :=
  match fault with
  | Some _ => default
  | None =>
      match find (has_key key) table with
      | Some row => Some (value row)
      | None => default
      end
  end.

End Preferences.

(** *** aliases *)

Module Aliases.

Record Alias := { name : str; command : str; created_at : str }.

Definition Table := list Alias.

Definition has_name (n : str) (a : Alias) : bool := str_eqb (name a) n.

Definition add_alias (table : Table) (fault : option str) (now_iso : str)
  (name command : str) : History.result unit * Table :=
  if negb (truthy name) || negb (truthy command)
  then (History.Raises
          (History.ValueError (lit "Name and command are required")), table)
  else
    let timestamp := now_iso in
    match fault with
    | Some e =>
        (History.Raises
           (History.SqliteError (lit "Failed to save alias: " ++ e)),
         table)
    | None =>
        (History.Returns tt,
         filter (fun a => negb (has_name name a)) table
         ++ [ {| name := name; command := command; created_at := timestamp |} ])
    end.

Definition get_alias (table : Table) (fault : option str) (name : str)
  : option str :=
  match fault with
  | Some _ => None
  | None => option_map command (find (has_name name) table)
  end.

(** The result is [cursor.rowcount > 0]. *)
Definition remove_alias (table : Table) (fault : option str) (name : str)
  : bool * Table :=
  match fault with
  | Some _ => (false, table)
  | None =>
      (0 <? length (filter (has_name name) table),
       filter (fun a => negb (has_name name a)) table)
  end.

(** [ORDER BY name] *)
Definition by_name (a b : Alias) : bool := str_leb (name a) (name b).

Definition list_aliases (table : Table) (fault : option str)
  : list (str * str) :=
  match fault with
  | Some _ => []
  | None => map (fun a => (name a, command a)) (Sql.order_by by_name table)
  end.

(** A table for examples. *)
Definition sample_table : Table :=
  [ {| name := lit "ll"; command := lit "ls -l";
       created_at := lit "2025-01-01T10:00:00" |};
    {| name := lit "gs"; command := lit "git status";
       created_at := lit "2025-01-02T10:00:00" |} ].

End Aliases.

(** *** command_history: the other queries *)

Module HistoryQueries.

Import History.

(** [ORDER BY timestamp DESC] *)
Definition newest_first (a b : HistoryEntry) : bool :=
  str_leb (timestamp b) (timestamp a).

Definition recent_query (store : Store) (limit : Z) : list HistoryEntry :=
  Sql.limit_rows limit (Sql.order_by newest_first (rows store)).

(** [get_recent_commands]; [error_text] is the message of the
    [ValueError] that [datetime.fromisoformat] raises on a text. *)
Definition get_recent_commands (store : Store) (fault : option str)
  (fromisoformat : str -> bool) (error_text : str -> str) (limit : Z)
  : result (list HistoryEntry) :=
  if (limit <=? 0)%Z
  then Raises (ValueError (lit "limit must be positive"))
  else
    match fault with
    | Some e =>
        Raises (SqliteError (lit "Failed to retrieve recent commands: " ++ e))
    | None =>
        if negb (fits_int64 limit)
        then Raises (RuntimeError
                       (lit "Unexpected error retrieving recent commands: "
                        ++ too_large))
        else
        let found := recent_query store limit in
        match unreadable fromisoformat found with
        | Some r =>
            Raises (RuntimeError
                      (lit "Unexpected error retrieving recent commands: "
                       ++ error_text (timestamp r)))
        | None => Returns found
        end
    end.

(** [WHERE working_directory = ?] *)
Definition run_in (directory : str) (r : HistoryEntry) : bool :=
  str_eqb (working_directory r) directory.

Definition directory_query (store : Store) (directory : str) (limit : Z)
  : list HistoryEntry :=
  Sql.limit_rows limit
    (map row (GroupSort.sort (group_by_command
                                (filter (run_in directory) (rows store))))).

(** [get_directory_suggestions]: only [sqlite3.Error] is caught here, so
    the [OverflowError] of a limit beyond 64 bits and the [ValueError] of
    [datetime.fromisoformat] go up as they are. *)
Definition get_directory_suggestions (store : Store) (fault : option str)
  (fromisoformat : str -> bool) (error_text : str -> str)
  (directory : str) (limit : Z) : result (list HistoryEntry) :=
  if (limit <=? 0)%Z
  then Raises (ValueError (lit "limit must be positive"))
  else
    match fault with
    | Some e =>
        Raises (SqliteError
                  (lit "Failed to retrieve directory suggestions: " ++ e))
    | None =>
        if negb (fits_int64 limit) then Raises (OverflowError too_large)
        else
        let found := directory_query store directory limit in
        match unreadable fromisoformat found with
        | Some r => Raises (ValueError (error_text (timestamp r)))
        | None => Returns found
        end
    end.

(** How often a command was run in a directory. *)
Definition runs_in (store : Store) (directory : str) (e : HistoryEntry) : nat :=
  length (filter (has_command (shell_command e))
                 (filter (run_in directory) (rows store))).

Definition ranked_in (store : Store) (directory : str) (a b : HistoryEntry)
  : Prop :=
  runs_in store directory b < runs_in store directory a
  \/ (runs_in store directory a = runs_in store directory b
      /\ str_leb (timestamp b) (timestamp a) = true).

End HistoryQueries.

(** ** src/rituals.py: the stored rituals *)

Module RitualStore.

(** A row of [rituals]. *)
Record RitualRow := {
  id : Z;
  name : str;
  description : str;
  created_at : str
}.

(** A row of [ritual_steps]; [row_id] is its column [id]. *)
Record StepRow := {
  row_id : Z;
  ritual_id : Z;
  sequence_order : Z;
  command : str
}.

(** The two tables, oldest row first, with the last ids AUTOINCREMENT
    gave out.  The connection leaves foreign keys off, as SQLite does
    unless told otherwise, so ON DELETE CASCADE does nothing. *)
Record Database := {
  rituals : list RitualRow;
  ritual_steps : list StepRow;
  last_ritual_id : Z;
  last_step_id : Z
}.

Definition has_name (n : str) (r : RitualRow) : bool := str_eqb (name r) n.

(** [for i, cmd in enumerate(steps)]: the rows inserted from index [i]
    on. *)
Fixpoint insert_steps (ritual_id last_id i : Z) (steps : list str)
  : list StepRow :=
  match steps with
  | [] => []
  | cmd :: rest =>
      {| row_id := last_id + 1; ritual_id := ritual_id;
         sequence_order := i; command := cmd |}
      :: insert_steps ritual_id (last_id + 1) (i + 1) rest
  end.

(** [create_ritual]; a name already taken breaks the UNIQUE constraint,
    and the transaction is rolled back. *)
Definition create_ritual (db : Database) (fault : option str) (now_iso : str)
  (name description : str) (steps : list str)
  : History.result unit * Database :=
  if negb (truthy name) || negb (0 <? length steps)
  then (History.Raises
          (History.ValueError
             (lit "Ritual must have a name and at least one step.")), db)
  else
    let timestamp := now_iso in
    match fault with
    | Some e =>
        (History.Raises
           (History.SqliteError (lit "Failed to create ritual: " ++ e)), db)
    | None =>
        if existsb (has_name name) (rituals db)
        then (History.Raises
                (History.ValueError
                   (lit "A ritual named '" ++ name
                    ++ lit "' already exists.")), db)
        else
          let ritual_id := (last_ritual_id db + 1)%Z in
          (History.Returns tt,
           {| rituals := rituals db
                         ++ [ {| id := ritual_id; name := name;
                                 description := description;
                                 created_at := timestamp |} ];
              ritual_steps := ritual_steps db
                              ++ insert_steps ritual_id (last_step_id db) 0
                                   steps;
              last_ritual_id := ritual_id;
              last_step_id := (last_step_id db + Z.of_nat (length steps))%Z |})
    end.

(** [WHERE ritual_id = ?] *)
Definition step_of (ritual_id' : Z) (s : StepRow) : bool :=
  (ritual_id s =? ritual_id')%Z.

(** [ORDER BY sequence_order] *)
Definition by_sequence (a b : StepRow) : bool :=
  (sequence_order a <=? sequence_order b)%Z.

Definition get_ritual (db : Database) (fault : option str) (name : str)
  : option Rituals.Ritual :=
  match fault with
  | Some _ => None
  | None =>
      match find (has_name name) (rituals db) with
      | None => None
      | Some row =>
          let steps :=
            map (fun r => Rituals.fresh_step (sequence_order r) (command r))
                (Sql.order_by by_sequence
                   (filter (step_of (id row)) (ritual_steps db))) in
          Some {| Rituals.id := id row;
                  Rituals.name := RitualStore.name row;
                  Rituals.ritual_description := description row;
                  Rituals.steps := steps |}
      end
  end.

(** [ORDER BY name] *)
Definition by_name (a b : RitualRow) : bool := str_leb (name a) (name b).

Definition list_rituals (db : Database) (fault : option str)
  : list Rituals.Ritual :=
  match fault with
  | Some _ => []
  | None =>
      map (fun r => {| Rituals.id := id r;
                       Rituals.name := RitualStore.name r;
                       Rituals.ritual_description := description r;
                       Rituals.steps := [] |})
          (Sql.order_by by_name (rituals db))
  end.

(** [delete_ritual]: the rows of [ritual_steps] stay. *)
Definition delete_ritual (db : Database) (fault : option str) (name : str)
  : bool * Database :=
  match fault with
  | Some _ => (false, db)
  | None =>
      (0 <? length (filter (has_name name) (rituals db)),
       {| rituals := filter (fun r => negb (has_name name r)) (rituals db);
          ritual_steps := ritual_steps db;
          last_ritual_id := last_ritual_id db;
          last_step_id := last_step_id db |})
  end.

(** The steps [get_ritual] builds for the commands of [create_ritual]. *)
Fixpoint numbered (i : Z) (steps : list str) : list Rituals.RitualStep :=
  match steps with
  | [] => []
  | cmd :: rest => Rituals.fresh_step i cmd :: numbered (i + 1) rest
  end.

(** No row points past the ids given out so far. *)
Definition consistent (db : Database) : Prop :=
  (forall r, In r (rituals db) -> (id r <= last_ritual_id db)%Z)
  /\ (forall s, In s (ritual_steps db) -> (ritual_id s <= last_ritual_id db)%Z).

Definition empty : Database :=
  {| rituals := []; ritual_steps := []; last_ritual_id := 0;
     last_step_id := 0 |}.

(** A store for examples: the rituals "deploy" and "backup" with their
    steps, and a step left behind by a deleted ritual (id 2). *)
Definition sample_database : Database :=
  {| rituals :=
       [ {| id := 1; name := lit "deploy"; description := lit "Deploy";
            created_at := lit "2025-01-01T10:00:00" |};
         {| id := 3; name := lit "backup"; description := lit "Back up";
            created_at := lit "2025-01-03T10:00:00" |} ];
     ritual_steps :=
       [ {| row_id := 1; ritual_id := 1; sequence_order := 0;
            command := lit "git pull" |};
         {| row_id := 2; ritual_id := 1; sequence_order := 1;
            command := lit "make install" |};
         {| row_id := 3; ritual_id := 2; sequence_order := 0;
            command := lit "echo old" |};
         {| row_id := 4; ritual_id := 3; sequence_order := 0;
            command := lit "tar czf backup.tgz ." |} ];
     last_ritual_id := 3; last_step_id := 4 |}.

End RitualStore.

(** ** src/spirits.py *)

Module Spirits.

Import History.

(** A suggestion and the reason given for it. *)
Definition suggestion : Type := str * str.

(** The body of the loop over the recent commands. *)
Definition match_entry (partial : str) (entry : HistoryEntry)
  : list suggestion :=
  let nl_lower := lower (natural_language entry) in
  if startswith nl_lower partial
  then [(natural_language entry, lit "you've done this before")]
  else if contains partial nl_lower
  then [(natural_language entry, lit "similar to past commands")]
  else [].

(** Duplicates are dropped, the first of each text staying in place. *)
Fixpoint unique_matches (seen : list str) (matches : list suggestion)
  : list suggestion :=
  match matches with
  | [] => []
  | m :: rest =>
      if str_in (fst m) seen then unique_matches seen rest
      else m :: unique_matches (fst m :: seen) rest
  end.

(** [_get_history_suggestions]; whatever [get_recent_commands] raises
    gives the empty list. *)
Definition _get_history_suggestions (store : Store) (fault : option str)
  (fromisoformat : str -> bool) (error_text : str -> str) (partial : str)
  : list suggestion :=
  match HistoryQueries.get_recent_commands store fault fromisoformat
          error_text 50 with
  | Raises _ => []
  | Returns recent =>
      firstn 3 (unique_matches [] (flat_map (match_entry partial) recent))
  end.

(** [_get_git_suggestion]; [time_of_day] is the hour of the time given,
    if one is given. *)
Definition _get_git_suggestion (partial : str) (time_of_day : option Z)
  : option suggestion :=
  let by_hour :=
    match time_of_day with
    | Some hour =>
        if (6 <=? hour)%Z && (hour <? 12)%Z
        then Some (lit "git pull latest changes", lit "morning routine")
        else if (17 <=? hour)%Z && (hour <? 23)%Z
        then Some (lit "git push my changes", lit "evening routine")
        else None
    | None => None
    end in
  match by_hour with
  | Some s => Some s
  | None =>
      if contains (lit "git st") partial || contains (lit "git s") partial
      then Some (lit "git status", lit "common git command")
      else if contains (lit "git co") partial
      then Some (lit "git commit changes", lit "common git command")
      else if contains (lit "git pu") partial
      then if contains (lit "push") partial
           then Some (lit "git push to remote", lit "common git command")
           else Some (lit "git pull from remote", lit "common git command")
      else Some (lit "git status", lit "common starting point")
  end.

(** The dictionary [patterns], in the order of its keys. *)
Definition patterns (partial : str) (time_of_day : option Z)
  : list (str * option suggestion) :=
  [ (lit "find", Some (lit "find python files", lit "common search"));
    (lit "list", Some (lit "list all files", lit "common operation"));
    (lit "show", Some (lit "show disk usage", lit "common info request"));
    (lit "git", _get_git_suggestion partial time_of_day);
    (lit "open", Some (lit "open current directory", lit "common action"));
    (lit "search", Some (lit "search for files", lit "common operation"));
    (lit "create", Some (lit "create new directory", lit "common task"));
    (lit "delete", Some (lit "delete file", lit "common operation"));
    (lit "copy", Some (lit "copy file", lit "common operation"));
    (lit "move", Some (lit "move file", lit "common operation")) ].

Fixpoint first_pattern (partial : str)
  (items : list (str * option suggestion)) : option suggestion :=
  match items with
  | [] => None
  | (keyword, found) :: rest =>
      if startswith partial keyword then
        match found with
        | Some s => Some s
        | None => first_pattern partial rest
        end
      else first_pattern partial rest
  end.

Definition _get_pattern_suggestion (partial : str) (time_of_day : option Z)
  : option suggestion :=
  first_pattern partial (patterns partial time_of_day).

Definition get_suggestion (store : Store) (fault : option str)
  (fromisoformat : str -> bool) (error_text : str -> str)
  (partial_input current_directory : str) (time_of_day : option Z)
  : option suggestion :=
  if negb (truthy partial_input) || (length partial_input <? 3)
  then None
  else
    let partial_lower := strip (lower partial_input) in
    match _get_history_suggestions store fault fromisoformat error_text
            partial_lower with
    | first :: _ => Some first
    | [] => _get_pattern_suggestion partial_lower time_of_day
    end.

End Spirits.

(** ** src/cli.py: one pass of [run], from the interpreted command on *)

Module Cli.

Record SessionCommand := {
  natural_language : str;
  shell_command : str;
  result : option Executor.ExecutionResult
}.

(** The attributes of [HauntedCLI] the pass reads and writes, with the
    executor's working directory and the two tables of the history. *)
Record Session := {
  working_directory : str;
  history : History.Store;
  rejections : Rejections.Table;
  last_failed_command : option str;
  retry_current_input : bool;
  session_history : list SessionCommand
}.

(** The calls that write to the screen on the way: each returns
    ([true]) or raises. *)
Record Screen := {
  correction_shown : bool;   (* the lines printed after [correct_paths] *)
  preview_shown : bool;      (* [display_command_preview] *)
  retry_shown : bool;        (* the lines printed on "retry" *)
  cancel_shown : bool;       (* [display_warning] on "no" *)
  spacing_shown : bool;      (* [console.print()] before the execution *)
  output_shown : bool        (* [display_output] *)
}.

(** The [sqlite3.Error] each call of the history meets, if any. *)
Record Storage := {
  clear_fault : option str;
  save_fault : option str;
  rejection_fault : option str
}.

(** Where the pass ends. *)
Inductive pass :=
| InterpretationError          (* [except Exception] around the correction *)
| InvalidSyntax
| UnexpectedError              (* the handler of the whole loop body *)
| SafetyCheckError (message : str)   (* [except Exception] around the check *)
| Retry
| Cancelled
| FailedValidation (e : Executor.exception)   (* [except ValueError] *)
| UnexpectedExecution (e : Executor.exception) (* [except Exception] *)
| Executed (r : Executor.ExecutionResult) (shown : bool).

Definition with_directory (s : Session) (wd : str) : Session :=
  {| working_directory := wd; history := history s;
     rejections := rejections s;
     last_failed_command := last_failed_command s;
     retry_current_input := retry_current_input s;
     session_history := session_history s |}.

(** The lines after [display_output]: the session history, then the
    persistent history on exit code 0 and the rejections otherwise;
    what the calls of the history raise is swallowed. *)
Definition record (storage : Storage) (now_iso : str) (s : Session)
  (user_input shell_command : str) (r : Executor.ExecutionResult)
  : Session :=
  let session_cmd :=
    {| natural_language := user_input; shell_command := shell_command;
       result := Some r |} in
  if (Executor.exit_code r =? 0)%Z then
    let cleared :=
      Rejections.clear_rejections (rejections s) (clear_fault storage)
        user_input in
    let saved :=
      snd (History.save_command (history s) (save_fault storage)
             (working_directory s) now_iso user_input shell_command
             (Executor.exit_code r) (Executor.execution_time r)
             (Some (working_directory s))) in
    {| working_directory := working_directory s; history := saved;
       rejections := cleared; last_failed_command := None;
       retry_current_input := retry_current_input s;
       session_history := session_history s ++ [session_cmd] |}
  else
    let rejected :=
      snd (Rejections.add_rejection (rejections s) (rejection_fault storage)
             now_iso user_input shell_command) in
    {| working_directory := working_directory s; history := history s;
       rejections := rejected; last_failed_command := Some shell_command;
       retry_current_input := retry_current_input s;
       session_history := session_history s ++ [session_cmd] |}.

(** The body of the loop from the command that the model gave
    ([interpreted]) to the end of the pass. *)
Definition handle (fs : Corrector.FS) (os : Executor.OS)
  (clk : Executor.Clock) (screen : Screen) (print : console)
  (io : interaction) (storage : Storage) (now_iso : str) (s : Session)
  (user_input interpreted : str) : pass * Session :=
  let cwd := working_directory s in
  let original_cmd := interpreted in
  match Corrector.correct_paths fs Corrector.default_cutoff original_cmd cwd with
  | Corrector.Raises _ => (InterpretationError, s)
  | Corrector.Returns shell_command =>
      if negb (correction_shown screen) then (InterpretationError, s)
      else if negb (Executor.validate_syntax shell_command)
      then (InvalidSyntax, s)
      else if negb (preview_shown screen) then (UnexpectedError, s)
      else
        let risk := classify_command shell_command in
        match get_confirmation shell_command risk print io with
        | ConfirmationRaises e => (SafetyCheckError e, s)
        | Answers confirmation =>
        if str_eqb confirmation (lit "retry") then
          if negb (retry_shown screen) then (UnexpectedError, s) else
          (Retry,
           {| working_directory := working_directory s; history := history s;
              rejections := rejections s;
              last_failed_command := Some shell_command;
              retry_current_input := true;
              session_history := session_history s |})
        else if str_eqb confirmation (lit "no") then
          if negb (cancel_shown screen) then (UnexpectedError, s) else
          (Cancelled,
           match risk with
           | DESTRUCTIVE =>
               {| working_directory := working_directory s;
                  history := history s; rejections := rejections s;
                  last_failed_command := last_failed_command s;
                  retry_current_input := retry_current_input s;
                  session_history :=
                    session_history s
                    ++ [ {| natural_language := user_input;
                            shell_command := shell_command;
                            result := None |} ] |}
           | _ => s
           end)
        else if negb (spacing_shown screen) then (UnexpectedError, s)
        else
          match Executor.execute os clk cwd shell_command with
          | (Executor.Raises e, wd) =>
              if Executor.is_value_error e
              then (FailedValidation e, with_directory s wd)
              else (UnexpectedExecution e, with_directory s wd)
          | (Executor.Returns r, wd) =>
              if negb (output_shown screen)
              then (Executed r false, with_directory s wd)
              else (Executed r true,
                    record storage now_iso (with_directory s wd)
                      user_input shell_command r)
          end
        end
  end.

(** A session for examples: nothing stored yet, in [/home/u]. *)
Definition fresh_session : Session :=
  {| working_directory := lit "/home/u";
     history := {| History.rows := []; History.last_id := 0 |};
     rejections := {| Rejections.rows := []; Rejections.last_id := 0 |};
     last_failed_command := None;
     retry_current_input := false;
     session_history := [] |}.

Definition clear_screen : Screen :=
  {| correction_shown := true; preview_shown := true; retry_shown := true;
     cancel_shown := true; spacing_shown := true; output_shown := true |}.

Definition sound_storage : Storage :=
  {| clear_fault := None; save_fault := None; rejection_fault := None |}.

(** A file system without entries. *)
Definition no_files : Corrector.FS :=
  {| Corrector.listdir := fun _ => Corrector.Listed [];
     Corrector.path_exists := fun _ => false |}.

End Cli.

(** ** src/cli.py: the built-in commands *)

Module Builtin.

(** [s.split(sep, maxsplit)] for a separator of one character; without
    [maxsplit] every separator splits. *)
Fixpoint split_char (sep : ascii) (maxsplit : option nat) (s : str)
  : list str :=
  match s with
  | [] => [[]]
  | c :: rest =>
      if ascii_eqb c sep then
        match maxsplit with
        | Some 0 => [s]
        | Some (S n) => [] :: split_char sep (Some n) rest
        | None => [] :: split_char sep None rest
        end
      else
        match split_char sep maxsplit rest with
        | first :: others => (c :: first) :: others
        | [] => [[c]]
        end
  end.

Definition space : ascii := " "%char.

(** What [handle_builtin_command] does when it handles the input: the
    branch taken, with the arguments it hands on. *)
Inductive builtin :=
| ShowHelp
| ShowHistory
| ShowRituals
| ShowKnowledge
| ClearScreen
| ExplainUsage
| Explain (target_cmd : str)
| ListAliases
| AddAlias (name command : str)
| AliasUsage
| UnaliasUsage
| RemoveAlias (name : str)
| ShowSystem
| SuggestForDirectory
| SuggestFor (query : str)
| ConfigUsage
| ValueRequired
| SetPreference (key value : str)
| GetPreference (key : str)
| ConfigOther
| RitualUsage
| RitualList
| RitualNameRequired (action : str)
| RitualShow (name : str)
| RitualDelete (name : str)
| RitualRun (name : str)
| RitualCreate (name : str)
| RitualOther.

(** [handle_builtin_command]: [None] is the answer [False], with which
    the input goes on to the interpretation. *)
Definition handle_builtin_command (user_input : str) : option builtin :=
  let cmd := strip (lower user_input) in
  if str_in cmd [lit "help"; lit "?"; lit "commands"] then Some ShowHelp
  else if str_eqb cmd (lit "history") then Some ShowHistory
  else if str_eqb cmd (lit "ritual") then Some ShowRituals
  else if str_eqb cmd (lit "knowledge") then Some ShowKnowledge
  else if str_eqb cmd (lit "clear") then Some ClearScreen
  else if str_eqb cmd (lit "explain") then
    match split_char space (Some 1) (strip user_input) with
    | _ :: target_cmd :: _ => Some (Explain target_cmd)
    | _ => Some ExplainUsage
    end
  else if str_eqb cmd (lit "alias") || str_eqb cmd (lit "aliases") then
    match split_char space (Some 1) (strip user_input) with
    | [_] => Some ListAliases
    | _ :: args :: _ =>
        if contains (lit "=") args then
          match split_char "="%char (Some 1) args with
          | name :: command :: _ => Some (AddAlias (strip name) (strip command))
          | _ => Some AliasUsage
          end
        else Some AliasUsage
    | [] => Some AliasUsage
    end
  else if str_eqb cmd (lit "unalias") then
    match split_char space (Some 1) (strip user_input) with
    | _ :: name :: _ => Some (RemoveAlias name)
    | _ => Some UnaliasUsage
    end
  else if str_eqb cmd (lit "system") then Some ShowSystem
  else if startswith cmd (lit "suggest") then
    match split_char space (Some 1) (strip user_input) with
    | [_] => Some SuggestForDirectory
    | _ :: query :: _ => Some (SuggestFor query)
    | [] => Some SuggestForDirectory
    end
  else if startswith cmd (lit "config") then
    match split_char space None (strip user_input) with
    | _ :: action :: key :: values =>
        if str_eqb action (lit "set") then
          match values with
          | [] => Some ValueRequired
          | _ :: _ => Some (SetPreference key (Pystr.join (lit " ") values))
          end
        else if str_eqb action (lit "get") then Some (GetPreference key)
        else Some ConfigOther
    | _ => Some ConfigUsage
    end
  else if startswith cmd (lit "ritual") then
    match split_char space (Some 2) (strip user_input) with
    | _ :: action :: rest =>
        if str_eqb action (lit "list") then Some RitualList
        else
          match rest with
          | [] => Some (RitualNameRequired action)
          | name :: _ =>
              if str_eqb action (lit "show") then Some (RitualShow name)
              else if str_eqb action (lit "delete") then Some (RitualDelete name)
              else if str_eqb action (lit "run") then Some (RitualRun name)
              else if str_eqb action (lit "create") then Some (RitualCreate name)
              else Some RitualOther
          end
    | _ => Some RitualUsage
    end
  else None.

End Builtin.

(** * Properties *)

(** ** Python strings *)

Module PystrFacts.

Lemma ascii_eqb_eq a b : ascii_eqb a b = true <-> a = b.
Proof. apply Ascii.eqb_eq. Qed.

Lemma str_eqb_eq a b : str_eqb a b = true <-> a = b.
Proof.
  revert b; induction a as [|x a IH]; intros [|y b]; simpl; split;
    try congruence; try reflexivity.
  - rewrite andb_true_iff, ascii_eqb_eq, IH. intros [-> ->]; reflexivity.
  - intros E; injection E as -> ->.
    rewrite andb_true_iff, ascii_eqb_eq, IH; split; reflexivity.
Qed.

Lemma str_eqb_refl a : str_eqb a a = true.
Proof. apply str_eqb_eq; reflexivity. Qed.

Lemma startswith_app s p : startswith (p ++ s) p = true.
Proof.
  induction p as [|x p IH]; simpl; [reflexivity|].
  rewrite IH, andb_true_r. apply ascii_eqb_eq; reflexivity.
Qed.

Lemma startswith_iff s p : startswith s p = true <-> exists t, s = p ++ t.
Proof.
  revert s; induction p as [|x p IH]; intros s; simpl.
  - split; [intros _; exists s; reflexivity | reflexivity].
  - destruct s as [|y s]; [split; [discriminate | intros [t E]; discriminate]|].
    rewrite andb_true_iff, ascii_eqb_eq, IH. split.
    + intros [-> [t ->]]. exists t; reflexivity.
    + intros [t E]. injection E as -> ->. split; [reflexivity | exists t; reflexivity].
Qed.

Lemma contains_iff p s :
  contains p s = true <-> exists a b, s = a ++ p ++ b.
Proof.
  induction s as [|c s IH]; simpl.
  - rewrite orb_false_r, startswith_iff. split.
    + intros [t E]. exists [], t. exact E.
    + intros [a [b E]]. destruct a; simpl in E.
      * exists b; exact E.
      * discriminate.
  - rewrite orb_true_iff, startswith_iff, IH. split.
    + intros [[t E] | [a [b E]]].
      * exists [], t. exact E.
      * exists (c :: a), b. simpl. now rewrite E.
    + intros [[|x a] [b E]]; simpl in E.
      * left. exists b; exact E.
      * right. injection E as _ E. exists a, b; exact E.
Qed.

Lemma lstrip_all_space s : forallb isspace s = true -> lstrip s = [].
Proof.
  induction s as [|c s IH]; simpl; [reflexivity|].
  destruct (isspace c); simpl; [exact IH | discriminate].
Qed.

Lemma lstrip_nil_inv s : lstrip s = [] -> forallb isspace s = true.
Proof.
  induction s as [|c s IH]; simpl; [reflexivity|].
  destruct (isspace c); simpl; [exact IH | discriminate].
Qed.

Lemma lstrip_head s c t : lstrip s = c :: t -> isspace c = false.
Proof.
  induction s as [|x s IH]; simpl; [discriminate|].
  destruct (isspace x) eqn:E; [exact IH|].
  intros H; injection H as <- _; exact E.
Qed.

Lemma lstrip_suffix s : exists a, s = a ++ lstrip s /\ forallb isspace a = true.
Proof.
  induction s as [|c s [a [E Ha]]]; simpl.
  - exists []; split; reflexivity.
  - destruct (isspace c) eqn:Ec.
    + exists (c :: a); simpl. rewrite Ec, Ha. split; [now rewrite <- E | reflexivity].
    + exists []; split; reflexivity.
Qed.

(** A string is blank exactly when it consists of whitespace only. *)
Lemma blank_iff s : blank s = true <-> forallb isspace s = true.
Proof.
  unfold blank, strip, rstrip. split.
  - intros H. apply orb_true_iff in H as [H | H].
    + destruct s; [reflexivity | discriminate].
    + destruct (rev (lstrip (rev (lstrip s)))) eqn:E; [|discriminate].
      apply (f_equal (@rev ascii)) in E. rewrite rev_involutive in E. simpl in E.
      apply lstrip_nil_inv in E. rewrite forallb_forall in E.
      destruct (lstrip s) as [|c t] eqn:El; [now apply lstrip_nil_inv|].
      pose proof (lstrip_head _ El) as Hc.
      rewrite (E c) in Hc; [discriminate|]. apply in_rev. rewrite rev_involutive.
      now left.
  - intros H. rewrite (lstrip_all_space _ H). simpl. apply orb_true_r.
Qed.

Lemma str_in_iff x xs : str_in x xs = true <-> In x xs.
Proof.
  unfold str_in. rewrite existsb_exists. split.
  - intros [y [Hy E]]. apply str_eqb_eq in E. now subst.
  - intros H. exists x. split; [exact H | apply str_eqb_refl].
Qed.

End PystrFacts.
Import PystrFacts.

(** ** The matcher against declarative matching *)

Module RegexFacts.

Section Fold.

Variable f : ascii -> ascii.
Hypothesis f_word : forall c, is_word (f c) = is_word c.

Lemma word_at_map s : word_at (map f s) = word_at s.
Proof. destruct s as [|c s]; simpl; [reflexivity | apply f_word]. Qed.

Lemma at_boundary_map prev s :
  at_boundary (map f prev) (map f s) = at_boundary prev s.
Proof. unfold at_boundary. now rewrite !word_at_map. Qed.

(** The star loop, given that its continuation agrees with [Matches]. *)
Lemma star_loop_fold a p k :
  (forall prev s, k (map f prev) (map f s) = true <-> Matches f p prev s) ->
  forall s prev,
    star_loop a k (map f prev) (map f s) = true <->
    Matches f (Star a :: p) prev s.
Proof.
  intros Hk. induction s as [|c s IH]; intros prev; simpl.
  - rewrite orb_false_r. change (@nil ascii) with (map f []) at 1.
    rewrite Hk. split.
    + intros H. now apply M_star_stop.
    + intros H. inversion H; subst. assumption.
  - rewrite orb_true_iff, andb_true_iff.
    change (f c :: map f s) with (map f (c :: s)).
    rewrite Hk. change (f c :: map f prev) with (map f (c :: prev)).
    rewrite IH. split.
    + intros [H | [Hc H]]; [now apply M_star_stop | now apply M_star_more].
    + intros H. inversion H; subst; [left | right]; auto.
Qed.

(** The matcher run on the folded text decides [Matches f]. *)
Lemma match_here_fold p : forall prev s,
  match_here p (map f prev) (map f s) = true <-> Matches f p prev s.
Proof.
  induction p as [|[a|a|a| |t|t] p IH]; intros prev s; simpl.
  - split; [intros _; constructor | reflexivity].
  - destruct s as [|c s]; simpl.
    + split; [discriminate | intros H; inversion H].
    + rewrite andb_true_iff. change (f c :: map f prev) with (map f (c :: prev)).
      rewrite IH. split.
      * intros [Hc H]. now constructor.
      * intros H. inversion H; subst. auto.
  - apply star_loop_fold. exact IH.
  - destruct s as [|c s]; simpl.
    + split; [discriminate | intros H; inversion H].
    + rewrite andb_true_iff. change (f c :: map f prev) with (map f (c :: prev)).
      rewrite (star_loop_fold a _ IH). split.
      * intros [Hc H]. now constructor.
      * intros H. inversion H; subst. auto.
  - rewrite andb_true_iff, at_boundary_map, IH. split.
    + intros [Hb H]. now constructor.
    + intros H. inversion H; subst. auto.
  - rewrite andb_true_iff, negb_true_iff, IH. split.
    + intros [Hb H]. now constructor.
    + intros H. inversion H; subst. auto.
  - rewrite andb_true_iff, negb_true_iff, IH. split.
    + intros [Hb H]. now constructor.
    + intros H. inversion H; subst. auto.
Qed.

Lemma search_from_fold p : forall s prev,
  search_from p (map f prev) (map f s) = true <->
  exists a b, s = a ++ b /\ Matches f p (rev a ++ prev) b.
Proof.
  induction s as [|c s IH]; intros prev; simpl.
  - rewrite orb_false_r. change (@nil ascii) with (map f []) at 1.
    rewrite match_here_fold. split.
    + intros H. exists [], []. split; [reflexivity | exact H].
    + intros [a [b [E H]]]. symmetry in E. apply app_eq_nil in E as [-> ->].
      exact H.
  - rewrite orb_true_iff. change (f c :: map f s) with (map f (c :: s)).
    rewrite match_here_fold. change (f c :: map f prev) with (map f (c :: prev)).
    rewrite IH. split.
    + intros [H | [a [b [E H]]]].
      * exists [], (c :: s). split; [reflexivity | exact H].
      * exists (c :: a), b. split; [simpl; now rewrite E|].
        simpl. now rewrite <- app_assoc.
    + intros [[|x a] [b [E H]]]; simpl in E, H.
      * left. now rewrite E.
      * right. injection E as -> ->. exists a, b. split; [reflexivity|].
        now rewrite <- app_assoc in H.
Qed.

(** [re.search] on the folded subject finds exactly the matches that
    compare characters after folding. *)
Lemma search_fold p s : search p (map f s) = true <-> Found f p s.
Proof.
  unfold search, Found. change (@nil ascii) with (map f []) at 1.
  rewrite search_from_fold. split; intros [a [b [E H]]]; exists a, b;
    (split; [exact E|]); now rewrite app_nil_r in *.
Qed.

End Fold.

(** Lowering a character keeps its word class. *)
Lemma lower_char_word c : is_word (lower_char c) = is_word c.
Proof.
  destruct c as [[] [] [] [] [] [] [] []]; vm_compute; reflexivity.
Qed.

(** Matching the lowered command is matching the command without regard
    to case. *)
Lemma search_lower p s : search p (lower s) = true <-> Found lower_char p s.
Proof. apply search_fold, lower_char_word. Qed.

End RegexFacts.
Import RegexFacts.

(** ** Risk classification and confirmation *)

Module SafetyFacts.

Lemma first_hit_iff patterns s :
  first_hit patterns s = true <-> exists p, In p patterns /\ search p s = true.
Proof.
  induction patterns as [|p rest IH]; simpl.
  - split; [discriminate | intros [p [[] _]]].
  - destruct (search p s) eqn:E.
    + split; [intros _; exists p; auto | reflexivity].
    + rewrite IH. split.
      * intros [q [Hq Hs]]. exists q; auto.
      * intros [q [[<- | Hq] Hs]]; [congruence | exists q; auto].
Qed.

Lemma first_hit_lower patterns command :
  first_hit patterns (lower command) = true <-> Hits patterns command.
Proof.
  rewrite first_hit_iff. unfold Hits.
  split; intros [p [Hp H]]; exists p; (split; [exact Hp|]);
    now apply search_lower.
Qed.

Lemma first_hit_lower_false patterns command :
  first_hit patterns (lower command) = false <-> ~ Hits patterns command.
Proof.
  rewrite <- first_hit_lower. destruct (first_hit patterns (lower command));
    split; congruence.
Qed.

(** Only [>] lowers to [>], only [2] to [2]. *)
Lemma lower_char_gt c : lower_char c = ">"%char -> c = ">"%char.
Proof.
  destruct c as [[] [] [] [] [] [] [] []]; vm_compute; intros H;
    first [reflexivity | discriminate H].
Qed.

(** C1: classification is case-insensitive pattern matching, DESTRUCTIVE
    list first, then MODERATE, SAFE when nothing matches and for empty or
    whitespace-only input; "rm -rf /tmp/x" is DESTRUCTIVE and
    "chmod 755 a.txt" is MODERATE. *)
Theorem classify_command_tiers :
  forall command : str,
    (forallb isspace command = true -> classify_command command = SAFE)
    /\ (forallb isspace command = false ->
        (classify_command command = DESTRUCTIVE
         <-> Hits DESTRUCTIVE_PATTERNS command)
        /\ (classify_command command = MODERATE
            <-> ~ Hits DESTRUCTIVE_PATTERNS command
                /\ Hits MODERATE_PATTERNS command)
        /\ (classify_command command = SAFE
            <-> ~ Hits DESTRUCTIVE_PATTERNS command
                /\ ~ Hits MODERATE_PATTERNS command))
    /\ classify_command (lit "rm -rf /tmp/x") = DESTRUCTIVE
    /\ classify_command (lit "chmod 755 a.txt") = MODERATE.
Proof.
  intros command. split; [|split; [|split; reflexivity]].
  - intros H. unfold classify_command.
    now rewrite (proj2 (blank_iff command) H).
  - intros H. unfold classify_command.
    destruct (blank command) eqn:Eb.
    { apply blank_iff in Eb. congruence. }
    rewrite <- !first_hit_lower_false, <- !first_hit_lower.
    destruct (first_hit DESTRUCTIVE_PATTERNS (lower command));
      destruct (first_hit MODERATE_PATTERNS (lower command));
      repeat split; intros; try congruence; try tauto;
      match goal with H : _ /\ _ |- _ => destruct H; congruence end.
Qed.

(** C2: a command on which no pattern of either list matches is SAFE; the
    device-redirect rule never matches at the [>] of a [2>/dev/null], nor
    anywhere in a command whose every [>] directly follows a [2]; and
    "find . -name '*.py' 2>/dev/null" is SAFE. *)
Theorem stderr_to_null_stays_safe :
  (forall command : str,
      ~ Hits DESTRUCTIVE_PATTERNS command ->
      ~ Hits MODERATE_PATTERNS command ->
      classify_command command = SAFE)
  /\ (forall before after : str,
         ~ Matches lower_char device_redirect
             (rev (before ++ lit "2")) (lit ">/dev/null" ++ after))
  /\ (forall command : str,
         (forall a b, command = a ++ ">"%char :: b ->
                      exists a', a = a' ++ lit "2") ->
         ~ Found lower_char device_redirect command)
  /\ In device_redirect DESTRUCTIVE_PATTERNS
  /\ contains (lit "/dev/") (lit "find . -name '*.py' 2>/dev/null") = true
  /\ classify_command (lit "find . -name '*.py' 2>/dev/null") = SAFE.
Proof.
  split; [|split; [|split; [|split; [|split]]]].
  - intros command Hd Hm. unfold classify_command.
    destruct (blank command); [reflexivity|].
    apply first_hit_lower_false in Hd, Hm. now rewrite Hd, Hm.
  - intros before after H. inversion H as [| | | | | |t p prev s Hb _|]; subst.
    rewrite rev_app_distr in Hb. discriminate Hb.
  - intros command Hall [a [b [E H]]].
    inversion H as [| | | | | |t p prev s Hb Hrest|]; subst.
    inversion Hrest as [|x p c prev s Hc _| | | | | |]; subst.
    change (ascii_eqb ">"%char (lower_char c) = true) in Hc.
    apply ascii_eqb_eq in Hc. symmetry in Hc.
    apply lower_char_gt in Hc. subst c.
    destruct (Hall a s eq_refl) as [a' ->].
    rewrite rev_app_distr in Hb. discriminate Hb.
  - simpl; tauto.
  - reflexivity.
  - reflexivity.
Qed.





(** The command "rm [/tmp/x]" on a console that refuses its closing tag:
    the report of the error is refused as well, and the call raises;
    the command "rm -rf /tmp/x" is confirmed by EXECUTE alone. *)
Example confirmation_of_bracketed_command :
  get_confirmation (lit "rm [/tmp/x]") DESTRUCTIVE refuses_closing_tags
    (Responds (lit "EXECUTE"))
  = ConfirmationRaises (lit "closing tag '[/tmp/x]' doesn't match any open tag")
  /\ get_confirmation (lit "rm -rf /tmp/x") DESTRUCTIVE refuses_closing_tags
       (Responds (lit "EXECUTE"))
     = Answers (lit "yes")
  /\ get_confirmation (lit "rm -rf /tmp/x") DESTRUCTIVE refuses_closing_tags
       (Responds (lit "execute"))
     = Answers (lit "no").
Proof. vm_compute. repeat split. Qed.

End SafetyFacts.

(** ** [shlex.split] reads back what [shlex.join] writes *)

Module ShlexFacts.

Import Shlex.

(** A character [quote] leaves alone is an ordinary character for the
    lexer. *)
Lemma safe_is_ordinary c :
  is_safe c = true ->
  is_whitespace c = false /\ is_quote c = false /\ is_escape c = false.
Proof.
  destruct c as [[] [] [] [] [] [] [] []]; vm_compute; intros H;
    first [discriminate H | repeat split].
Qed.

(** Inside a word, a run of ordinary characters is added to the token. *)
Lemma read_safe_run s : forall token quoted out rest,
  forallb is_safe s = true ->
  read_tokens (s ++ rest) InWord token quoted out
  = read_tokens rest InWord (token ++ s) quoted out.
Proof.
  induction s as [|c s IH]; intros token quoted out rest Hs; simpl.
  - now rewrite app_nil_r.
  - simpl in Hs. apply andb_true_iff in Hs as [Hc Hs].
    destruct (safe_is_ordinary c Hc) as [Hw [Hq He]].
    rewrite Hw, Hq, He, (IH _ _ _ _ Hs), <- app_assoc. reflexivity.
Qed.

(** The text between the single quotes that [quote] writes. *)
Definition quoted_body (s : str) : str :=
  replace [squote] [squote; dquote; squote; dquote; squote] s.

Lemma quoted_body_cons c s :
  quoted_body (c :: s)
  = if ascii_eqb squote c
    then [squote; dquote; squote; dquote; squote] ++ quoted_body s
    else c :: quoted_body s.
Proof.
  unfold quoted_body, replace. cbn [replace_from startswith length Nat.sub].
  rewrite andb_true_r. reflexivity.
Qed.

Lemma ascii_eqb_sym a b : ascii_eqb a b = ascii_eqb b a.
Proof.
  destruct (ascii_eqb a b) eqn:E.
  - apply ascii_eqb_eq in E. subst. symmetry. now apply ascii_eqb_eq.
  - destruct (ascii_eqb b a) eqn:E'; [|reflexivity].
    apply ascii_eqb_eq in E'. subst.
    assert (ascii_eqb a a = true) by now apply ascii_eqb_eq. congruence.
Qed.

(** Inside single quotes, the body written for [s] followed by the
    closing quote adds [s] to the token and leaves the lexer in a word,
    the token marked as quoted. *)
Lemma read_quoted_body s : forall token quoted out rest,
  read_tokens (quoted_body s ++ squote :: rest) (InQuote squote) token quoted out
  = read_tokens rest InWord (token ++ s) true out.
Proof.
  induction s as [|c s IH]; intros token quoted out rest.
  - cbn. now rewrite app_nil_r.
  - rewrite quoted_body_cons. destruct (ascii_eqb squote c) eqn:E.
    + apply ascii_eqb_eq in E. subst c.
      cbn [app read_tokens].
      replace (ascii_eqb squote squote) with true by reflexivity.
      replace (is_whitespace dquote) with false by reflexivity.
      replace (is_quote dquote) with true by reflexivity.
      replace (ascii_eqb squote dquote) with false by reflexivity.
      replace (is_escape squote) with false by reflexivity.
      replace (ascii_eqb dquote dquote) with true by reflexivity.
      replace (is_whitespace squote) with false by reflexivity.
      replace (is_quote squote) with true by reflexivity.
      cbn [andb]. rewrite IH, <- app_assoc. reflexivity.
    + cbn [app read_tokens]. rewrite (ascii_eqb_sym c squote), E.
      replace (ascii_eqb squote dquote) with false by reflexivity.
      rewrite andb_false_r, IH, <- app_assoc. reflexivity.
Qed.

(** From between tokens, [quote p] is read as the token [p], which will
    be emitted. *)
Lemma read_quote p :
  exists quoted,
    emits p quoted = true
    /\ forall rest out,
         read_tokens (quote p ++ rest) InSpace [] false out
         = read_tokens rest InWord p quoted out.
Proof.
  unfold quote. destruct p as [|c p].
  - exists true. split; [reflexivity|]. intros rest out. reflexivity.
  - cbn [truthy negb]. destruct (forallb is_safe (c :: p)) eqn:Hs.
    + exists false. split; [reflexivity|]. intros rest out.
      pose proof Hs as Hs'. simpl in Hs'.
      apply andb_true_iff in Hs' as [Hc Hp].
      destruct (safe_is_ordinary c Hc) as [Hw [Hq He]].
      cbn [app read_tokens]. rewrite Hw, He, Hq.
      now rewrite (read_safe_run p [c] false out rest Hp).
    + exists true. split; [reflexivity|]. intros rest out.
      cbn [app read_tokens].
      replace (is_whitespace squote) with false by reflexivity.
      replace (is_escape squote) with false by reflexivity.
      replace (is_quote squote) with true by reflexivity.
      fold (quoted_body (c :: p)). rewrite <- app_assoc.
      cbn [app]. now rewrite read_quoted_body.
Qed.

Lemma read_join : forall parts out,
  read_tokens (join parts) InSpace [] false out = Tokens (out ++ parts).
Proof.
  unfold join. induction parts as [|p parts IH]; intros out.
  - cbn. now rewrite app_nil_r.
  - destruct (read_quote p) as [quoted [He Hread]].
    destruct parts as [|p' parts].
    + cbn [map Pystr.join].
      rewrite <- (app_nil_r (quote p)), Hread. cbn [read_tokens].
      now rewrite He.
    + change (Pystr.join (lit " ") (map quote (p :: p' :: parts)))
        with (quote p ++ lit " " ++ Pystr.join (lit " ") (map quote (p' :: parts))).
      rewrite Hread. cbn [lit list_ascii_of_string app read_tokens].
      replace (is_whitespace " "%char) with true by reflexivity.
      rewrite He, IH, <- app_assoc. reflexivity.
Qed.

(** [shlex.split(shlex.join(parts)) == parts] *)
Theorem split_join parts : split (join parts) = Tokens parts.
Proof. unfold split. now rewrite read_join. Qed.

End ShlexFacts.

(** ** The executor *)

Module ExecutorFacts.

Import Executor.

Lemma contains_middle a p b : contains p (a ++ p ++ b) = true.
Proof. apply contains_iff. exists a, b. reflexivity. Qed.

Lemma contains_prefix p b : contains p (p ++ b) = true.
Proof. apply (contains_middle [] p b). Qed.


Lemma contains_of_startswith p s : startswith s p = true -> contains p s = true.
Proof. intros H. destruct s; simpl; now rewrite H. Qed.








(** The paths of [execute] on examples. *)
Example refused_subprocess :
  exists r,
    execute os_denied clock0 (lit "/home/u") (lit "ls -l")
    = (Returns r, lit "/home/u")
    /\ exit_code r = (-1)%Z
    /\ stderr r = permission_message (lit "[Errno 13] Permission denied")
                                     (lit "ls -l").
Proof. eexists. split; [vm_compute; reflexivity|]. split; reflexivity. Qed.

Example unbalanced_quote_raises :
  execute os_home clock0 (lit "/home/u") (lit "echo 'hello")
  = (Raises (ValueError (invalid_syntax_message (lit "echo 'hello"))),
     lit "/home/u").
Proof. vm_compute. reflexivity. Qed.

Example undecodable_timeout_raises :
  execute os_hanging clock0 (lit "/home/u") (lit "cat /dev/urandom")
  = (Raises UnicodeDecodeError, lit "/home/u").
Proof. vm_compute. reflexivity. Qed.

Example cd_changes_directory :
  exists r,
    execute os_home clock0 (lit "/home/u") (lit "cd work")
    = (Returns r, lit "/home/u/Work")
    /\ exit_code r = 0%Z
    /\ stdout r = lit "Changed directory to: /home/u/Work".
Proof. eexists. split; [vm_compute; reflexivity|]. split; reflexivity. Qed.

Example bare_cd_is_a_subprocess :
  exists r,
    execute os_home clock0 (lit "/home/u/Work") (lit "cd")
    = (Returns r, lit "/home/u/Work")
    /\ exit_code r = 0%Z /\ stdout r = [].
Proof. eexists. split; [vm_compute; reflexivity|]. split; reflexivity. Qed.



(** C10: only a command whose stripped text starts with "cd " takes the
    directory-change path; "cd" alone runs as a subprocess; and [execute]
    leaves the working directory alone for every command that does not
    start with "cd ". *)
Theorem cd_prefix_gate :
  forall (os : OS) (clk : Clock) (wd : str),
    (forall cmd,
        startswith (strip cmd) (lit "cd ") = false ->
        snd (execute os clk wd cmd) = wd)
    /\ (forall cmd,
           blank cmd = false -> validate_syntax cmd = true ->
           execute os clk wd cmd
           = if startswith (strip cmd) (lit "cd ")
             then (Returns (fst (_execute_cd os clk wd cmd)),
                   snd (_execute_cd os clk wd cmd))
             else (run_subprocess os clk wd cmd, wd))
    /\ execute os clk wd (lit "cd")
       = (run_subprocess os clk wd (lit "cd"), wd).
Proof.
  intros os clk wd. split; [|split].
  - intros cmd H. unfold execute. rewrite H.
    destruct (blank cmd); [reflexivity|].
    destruct (validate_syntax cmd); reflexivity.
  - intros cmd Hb Hv. unfold execute. rewrite Hb, Hv. cbn [negb].
    destruct (startswith (strip cmd) (lit "cd ")); [|reflexivity].
    destruct (_execute_cd os clk wd cmd); reflexivity.
  - reflexivity.
Qed.

End ExecutorFacts.

(** ** Rituals *)

Module RitualsFacts.

Import Rituals.




Section Loop.

Variable World : Type.
Variable time : World -> Q.
Variable executor_func : executor World.
Variable progress_callback : option (callback World).

(** The callback, when there is one, returns. *)
Hypothesis callback_returns :
  forall notify step k total w,
    progress_callback = Some notify -> notify step k total w <> None.





End Loop.





Example deploy_run :
  let out := execute_ritual (fun _ => 0%Q) (fun _ => 0%Z) deploy failing_tests
               None 0 in
  executor_calls out
  = [ (lit "git pull", Returned 0 (lit "ok") []);
      (lit "make test", Returned 2 [] (lit "1 test failed")) ]
  /\ map status (steps_after out) = [SUCCESS; FAILED; PENDING]
  /\ map error (steps_after out)
     = [Some []; Some (lit "1 test failed"); None]
  /\ world_after out = 2
  /\ option_map success (returned out) = Some false.
Proof. vm_compute. repeat split. Qed.

End RitualsFacts.

(** ** History *)

Module HistoryFacts.

Import History.

(** A character of a query that LIKE takes literally. *)
Definition plain_char (c : ascii) : bool :=
  negb (ascii_eqb c percent) && negb (ascii_eqb c underscore)
  && negb (code c =? 0).

Lemma like_percent pattern s :
  like_here (percent :: pattern) s = true
  <-> exists a b, s = a ++ b /\ like_here pattern b = true.
Proof.
  cbn [like_here]. replace (ascii_eqb percent percent) with true by reflexivity.
  induction s as [|c s IH].
  - rewrite orb_false_r. split.
    + intros H. exists [], []. auto.
    + intros [a [b [E H]]]. symmetry in E. apply app_eq_nil in E as [_ ->].
      exact H.
  - rewrite orb_true_iff, IH. split.
    + intros [H | [a [b [E H]]]].
      * exists [], (c :: s). auto.
      * exists (c :: a), b. split; [simpl; now rewrite E | exact H].
    + intros [[|x a] [b [E H]]]; simpl in E.
      * left. now rewrite E.
      * right. injection E as _ E. exists a, b. auto.
Qed.

Lemma like_plain q : forall rest s,
  forallb plain_char q = true ->
  (like_here (q ++ rest) s = true
   <-> exists b1 b2, s = b1 ++ b2 /\ map sql_fold b1 = map sql_fold q
                     /\ like_here rest b2 = true).
Proof.
  induction q as [|p q IH]; intros rest s Hq.
  - simpl. split.
    + intros H. exists [], s. auto.
    + intros [b1 [b2 [E [Hf H]]]]. destruct b1; [|discriminate]. now subst.
  - simpl in Hq. apply andb_true_iff in Hq as [Hp Hq].
    unfold plain_char in Hp. apply andb_true_iff in Hp as [Hp _].
    apply andb_true_iff in Hp as [Hp1 Hp2].
    apply negb_true_iff in Hp1, Hp2.
    cbn [app like_here]. rewrite Hp1. destruct s as [|c s].
    + split; [discriminate|]. intros [b1 [b2 [E [Hf _]]]].
      destruct b1; [discriminate | discriminate].
    + rewrite Hp2, orb_false_l, andb_true_iff, ascii_eqb_eq, (IH rest s Hq).
      split.
      * intros [Hc [b1 [b2 [E [Hf H]]]]]. exists (c :: b1), b2.
        simpl. rewrite E, Hf, Hc. auto.
      * intros [[|x b1] [b2 [E [Hf H]]]]; [discriminate|].
        simpl in E, Hf. injection E as -> ->. injection Hf as Hx Hf.
        split; [now symmetry|]. exists b1, b2. auto.
Qed.

Lemma c_text_plain q : forallb plain_char q = true -> c_text q = q.
Proof.
  induction q as [|c q IH]; simpl; [reflexivity|].
  intros H. apply andb_true_iff in H as [Hc Hq].
  unfold plain_char in Hc. apply andb_true_iff in Hc as [_ Hc].
  apply negb_true_iff in Hc. rewrite Hc, (IH Hq). reflexivity.
Qed.

Lemma c_text_app q rest :
  forallb plain_char q = true -> c_text (q ++ rest) = q ++ c_text rest.
Proof.
  induction q as [|c q IH]; simpl; [reflexivity|].
  intros H. apply andb_true_iff in H as [Hc Hq].
  unfold plain_char in Hc. apply andb_true_iff in Hc as [_ Hc].
  apply negb_true_iff in Hc. rewrite Hc, (IH Hq). reflexivity.
Qed.

Lemma c_text_prefix s : exists tail, s = c_text s ++ tail.
Proof.
  induction s as [|c s [tail E]]; simpl.
  - exists []. reflexivity.
  - destruct (code c =? 0).
    + exists (c :: s). reflexivity.
    + exists tail. simpl. now rewrite <- E.
Qed.

(** For a query without [%], [_] and NUL, the LIKE test of the query is
    containment up to ASCII case, in the text up to its first NUL. *)
Lemma like_parameter_plain q s :
  forallb plain_char q = true ->
  (like s (like_parameter q) = true
   <-> contains (map sql_fold q) (map sql_fold (c_text s)) = true).
Proof.
  intros Hq. unfold like, like_parameter.
  change (c_text ([percent] ++ q ++ [percent]))
    with (percent :: c_text (q ++ [percent])).
  rewrite c_text_app by exact Hq. change (c_text [percent]) with [percent].
  rewrite like_percent, contains_iff. split.
  - intros [a [b [E H]]]. apply like_plain in H; [|exact Hq].
    destruct H as [b1 [b2 [E2 [Hf _]]]].
    exists (map sql_fold a), (map sql_fold b2).
    rewrite E, E2, !map_app, Hf. reflexivity.
  - intros [a [b E]].
    apply map_eq_app in E as [a' [r [E1 [Ha E]]]].
    apply map_eq_app in E as [b1 [b2 [E2 [Hb1 Hb2]]]].
    exists a', r. split; [exact E1|]. apply like_plain; [exact Hq|].
    exists b1, b2. split; [exact E2|]. split; [exact Hb1|].
    apply like_percent. exists b2, []. split; [now rewrite app_nil_r | reflexivity].
Qed.

(** Hence a row that passes the test holds the query up to ASCII case. *)
Lemma like_parameter_contains q s :
  forallb plain_char q = true ->
  like s (like_parameter q) = true ->
  contains (map sql_fold q) (map sql_fold s) = true.
Proof.
  intros Hq H. apply like_parameter_plain in H; [|exact Hq].
  apply contains_iff in H as [a [b E]]. apply contains_iff.
  destruct (c_text_prefix s) as [tail Es]. rewrite Es, map_app, E.
  exists a, (b ++ map sql_fold tail). now rewrite <- !app_assoc.
Qed.

(** *** Text order *)

Lemma str_leb_refl a : str_leb a a = true.
Proof.
  induction a as [|x a IH]; simpl; [reflexivity|].
  now rewrite Nat.eqb_refl, IH, orb_true_r.
Qed.

Lemma str_leb_trans a : forall b c,
  str_leb a b = true -> str_leb b c = true -> str_leb a c = true.
Proof.
  induction a as [|x a IH]; intros [|y b] [|z c]; simpl; try congruence.
  rewrite !orb_true_iff, !andb_true_iff, !Nat.ltb_lt, !Nat.eqb_eq.
  intros [H1 | [H1 H1']] [H2 | [H2 H2']].
  - left; lia.
  - left; lia.
  - left; lia.
  - right. split; [lia | eapply IH; eauto].
Qed.

(** *** Aggregation *)

Lemma latest_in : forall rs r, In (latest r rs) (r :: rs).
Proof.
  induction rs as [|x rs IH]; intros r; simpl; [auto|].
  destruct (IH (if str_ltb (timestamp r) (timestamp x) then x else r))
    as [H | H]; [|auto].
  rewrite <- H. destruct (str_ltb (timestamp r) (timestamp x)); auto.
Qed.

Lemma latest_greatest : forall rs r x,
  In x (r :: rs) -> str_leb (timestamp x) (timestamp (latest r rs)) = true.
Proof.
  induction rs as [|y rs IH]; intros r x Hx.
  - destruct Hx as [<- | []]. apply str_leb_refl.
  - cbn [latest].
    set (cur := if str_ltb (timestamp r) (timestamp y) then y else r).
    assert (Hr : str_leb (timestamp r) (timestamp cur) = true).
    { unfold cur, str_ltb.
      destruct (str_leb (timestamp y) (timestamp r)) eqn:E; simpl.
      - apply str_leb_refl.
      - destruct (GroupOrder.str_leb_total (timestamp r) (timestamp y));
          congruence. }
    assert (Hy : str_leb (timestamp y) (timestamp cur) = true).
    { unfold cur, str_ltb.
      destruct (str_leb (timestamp y) (timestamp r)) eqn:E; simpl.
      - exact E.
      - apply str_leb_refl. }
    destruct Hx as [<- | [<- | Hx]].
    + eapply str_leb_trans; [exact Hr | apply IH; now left].
    + eapply str_leb_trans; [exact Hy | apply IH; now left].
    + apply IH. now right.
Qed.

Lemma distinct_spec : forall l seen,
  NoDup (distinct seen l)
  /\ forall x, In x (distinct seen l) -> ~ In x seen /\ In x l.
Proof.
  induction l as [|y l IH]; intros seen; simpl.
  - split; [constructor | intros x []].
  - destruct (str_in y seen) eqn:E.
    + destruct (IH seen) as [Hn Hi]. split; [exact Hn|].
      intros x Hx. destruct (Hi x Hx). auto.
    + destruct (IH (y :: seen)) as [Hn Hi]. split.
      * constructor; [|exact Hn]. intros Hy. destruct (Hi y Hy) as [H _].
        apply H. now left.
      * intros x [<- | Hx].
        -- split; [|now left]. intros Hy. apply str_in_iff in Hy. congruence.
        -- destruct (Hi x Hx) as [H1 H2]. split; [|now right].
           intros H. apply H1. now right.
Qed.

(** What a group of the query holds. *)
Lemma group_spec matching_rows g :
  In g (group_by_command matching_rows) ->
  In (row g) matching_rows
  /\ frequency g
     = length (filter (has_command (shell_command (row g))) matching_rows)
  /\ last_used g = timestamp (row g)
  /\ forall r, In r matching_rows ->
               shell_command r = shell_command (row g) ->
               str_leb (timestamp r) (timestamp (row g)) = true.
Proof.
  unfold group_by_command. intros H. apply in_flat_map in H as [k [_ H]].
  destruct (filter (has_command k) matching_rows) as [|r rs] eqn:E; [destruct H|].
  destruct H as [<- | []]. cbn [row frequency last_used].
  pose proof (latest_in rs r) as Hin. rewrite <- E in Hin.
  apply filter_In in Hin as [Hin Hk]. apply str_eqb_eq in Hk.
  rewrite Hk, E. repeat split; auto.
  intros x Hx Hc. apply latest_greatest. rewrite <- E. apply filter_In.
  split; [exact Hx|]. apply str_eqb_eq. congruence.
Qed.

Lemma group_commands_distinct matching_rows :
  NoDup (map (fun g => shell_command (row g)) (group_by_command matching_rows)).
Proof.
  unfold group_by_command.
  destruct (distinct_spec (map shell_command matching_rows) []) as [Hn _].
  induction (distinct [] (map shell_command matching_rows)) as [|k ks IH];
    [constructor|].
  inversion Hn as [|? ? Hk Hks]; subst. cbn [flat_map].
  destruct (filter (has_command k) matching_rows) as [|r rs] eqn:E;
    [exact (IH Hks)|].
  cbn [app map row]. constructor; [|exact (IH Hks)].
  pose proof (latest_in rs r) as Hin. rewrite <- E in Hin.
  apply filter_In in Hin as [_ Hc]. apply str_eqb_eq in Hc. rewrite Hc.
  intros H. apply in_map_iff in H as [g [Hg H]].
  apply in_flat_map in H as [k' [Hk' H]].
  destruct (filter (has_command k') matching_rows) as [|r' rs'] eqn:E';
    [destruct H|].
  destruct H as [<- | []]. cbn [row] in Hg.
  pose proof (latest_in rs' r') as Hin'. rewrite <- E' in Hin'.
  apply filter_In in Hin' as [_ Hc']. apply str_eqb_eq in Hc'.
  apply Hk. congruence.
Qed.

(** *** Sorted lists under maps and prefixes *)

Lemma LocallySorted_map A B (R : A -> A -> Prop) (R' : B -> B -> Prop)
  (f : A -> B) l :
  LocallySorted R l ->
  (forall a b, In a l -> In b l -> R a b -> R' (f a) (f b)) ->
  LocallySorted R' (map f l).
Proof.
  induction 1 as [|a|a b l Hl IH Hab]; intros Hf; simpl; constructor.
  - apply IH. intros x y Hx Hy. apply Hf; now right.
  - apply Hf; simpl; auto.
Qed.

Lemma LocallySorted_firstn A (R : A -> A -> Prop) l :
  LocallySorted R l -> forall n, LocallySorted R (firstn n l).
Proof.
  induction 1 as [|a|a b l Hl IH Hab]; intros [|n]; simpl; try constructor.
  - destruct n; constructor.
  - destruct n as [|n]; [constructor|].
    specialize (IH (S n)). simpl in IH. now constructor.
Qed.

Lemma In_firstn A (x : A) : forall n l, In x (firstn n l) -> In x l.
Proof.
  induction n as [|n IH]; intros [|y l]; simpl; try tauto.
  intros [H | H]; [now left | right; now apply IH].
Qed.

Lemma NoDup_firstn A (l : list A) : NoDup l -> forall n, NoDup (firstn n l).
Proof.
  induction 1 as [|x l Hx Hl IH]; intros [|n]; simpl; try constructor.
  - intros H. apply Hx. eapply In_firstn; eauto.
  - apply IH.
Qed.

Lemma strongly_sorted_parts A (R : A -> A -> Prop) : forall a b : list A,
  StronglySorted R (a ++ b) ->
  forall x y, In x a -> In y b -> R x y.
Proof.
  induction a as [|h a IH]; intros b H x y Hx Hy; [destruct Hx|].
  simpl in H. inversion H as [|? ? Hs Hf]; subst.
  destruct Hx as [<- | Hx].
  - rewrite Forall_forall in Hf. apply Hf, in_or_app. now right.
  - now apply (IH b Hs).
Qed.

Lemma distinct_complete : forall (l seen : list str) (x : str),
  In x l -> In x seen \/ In x (distinct seen l).
Proof.
  induction l as [|y l IH]; intros seen x Hx; [destruct Hx|].
  simpl. destruct Hx as [<- | Hx].
  - destruct (str_in y seen) eqn:E.
    + left. now apply str_in_iff.
    + right. now left.
  - destruct (str_in y seen) eqn:E.
    + now apply IH.
    + destruct (IH (y :: seen) x Hx) as [[<- | H] | H].
      * right. now left.
      * now left.
      * right. now right.
Qed.

(** Every command of the rows has its group. *)
Lemma group_complete (found : list HistoryEntry) (r : HistoryEntry) :
  In r found ->
  exists g, In g (group_by_command found)
            /\ shell_command (row g) = shell_command r.
Proof.
  intros Hr. unfold group_by_command.
  destruct (@distinct_complete (map shell_command found) [] (shell_command r))
    as [[] | Hk]; [now apply in_map|].
  assert (Hf : In r (filter (has_command (shell_command r)) found)).
  { apply filter_In. split; [exact Hr|]. apply str_eqb_refl. }
  destruct (filter (has_command (shell_command r)) found) as [|r0 rs] eqn:E;
    [destruct Hf|].
  exists {| row := latest r0 rs; frequency := length (r0 :: rs);
            last_used := timestamp (latest r0 rs) |}.
  split.
  - apply in_flat_map. exists (shell_command r). split; [exact Hk|].
    rewrite E. now left.
  - cbn [row]. pose proof (@latest_in rs r0) as Hin.
    rewrite <- E in Hin. apply filter_In in Hin as [_ Hin].
    now apply str_eqb_eq in Hin.
Qed.

Lemma group_order_transitive : Transitive (fun a b => is_true (GroupOrder.leb a b)).
Proof.
  intros a b c. unfold is_true, GroupOrder.leb.
  rewrite !orb_true_iff, !andb_true_iff, !Nat.ltb_lt, !Nat.eqb_eq.
  intros [H1 | [H1 H1']] [H2 | [H2 H2']].
  - left; lia.
  - left; lia.
  - left; lia.
  - right. split; [lia|]. exact (@str_leb_trans _ _ _ H2' H1').
Qed.

(** The rows the cut leaves out stand after every row it keeps. *)
Lemma cut_keeps_the_best (groups : list group) (n : nat) (g : group) :
  In g groups ->
  In g (firstn n (GroupSort.sort groups))
  \/ (length (firstn n (GroupSort.sort groups)) = n
      /\ forall g', In g' (firstn n (GroupSort.sort groups)) ->
                    GroupOrder.leb g' g = true).
Proof.
  intros Hg.
  pose proof (GroupSort.StronglySorted_sort groups group_order_transitive)
    as Hs.
  assert (Hin : In g (GroupSort.sort groups)).
  { eapply Permutation_in; [apply GroupSort.Permuted_sort | exact Hg]. }
  rewrite <- (firstn_skipn n (GroupSort.sort groups)) in Hin, Hs.
  apply in_app_or in Hin as [Hin | Hin]; [now left|]. right. split.
  - apply firstn_length_le.
    destruct (Nat.le_gt_cases n (length (GroupSort.sort groups))) as [H | H];
      [exact H|].
    rewrite skipn_all2 in Hin by lia. destruct Hin.
  - intros g' Hg'.
    exact (@strongly_sorted_parts _ _ _ _ Hs g' g Hg' Hin).
Qed.

(** *** The claims *)

Lemma result_is_group store query limit e :
  In e (suggestions_query store (like_parameter query) limit) ->
  exists g, In g (group_by_command (matching store query)) /\ row g = e.
Proof.
  unfold suggestions_query. intros H. apply In_firstn in H.
  apply in_map_iff in H as [g [Hg H]]. exists g. split; [|exact Hg].
  eapply Permutation_in; [apply Permutation_sym, GroupSort.Permuted_sort|].
  exact H.
Qed.

Lemma readable_all fromisoformat found :
  (forall r, In r found -> fromisoformat (timestamp r) = true) ->
  unreadable fromisoformat found = None.
Proof.
  induction found as [|r rest IH]; intros H; simpl; [reflexivity|].
  rewrite (H r (or_introl eq_refl)). apply IH. intros x Hx. apply H. now right.
Qed.

(** C8, counterexample: the query "LIST" returns the entry saved for
    "list files", which does not hold "LIST" as a substring. *)
Lemma suggestions_ignore_case :
  ~ (forall (store : Store) (fromisoformat : str -> bool) (query : str)
            (limit : Z) results e,
        blank query = false -> (0 < limit)%Z ->
        get_suggestions store None fromisoformat query limit = Returns results ->
        In e results ->
        contains query (natural_language e) = true).
Proof.
  intros H.
  specialize (H one_listing reads_example (lit "LIST") 5%Z _
                (entry 1 "list files" "ls" "2025-01-01T10:00:00")
                eq_refl eq_refl eq_refl (or_introl eq_refl)).
  vm_compute in H. discriminate H.
Qed.

(** C8, as amended: for a non-empty query and a positive limit of 64
    bits, over a table whose timestamps are ISO texts, the results are
    rows that pass SQLite's LIKE test of the query (which ignores ASCII
    case): a query without the wildcards [%] and [_] and without NUL is
    held, up to ASCII case, by the natural_language of every result;
    there is one result per shell_command, the most recent row of its
    group; results are ordered by frequency descending, then most recent
    use descending, and there are at most [limit] of them.  Nothing that
    matches is lost but to the cap: the command of every matching row
    is among the results, unless there are [limit] results and each of
    them may stand before that row in the order. *)
Theorem get_suggestions_like_ranked :
  forall (store : Store) (fromisoformat : str -> bool) (query : str)
         (limit : Z),
    blank query = false -> (0 < limit < 2 ^ 63)%Z ->
    (forall r, In r (rows store) -> fromisoformat (timestamp r) = true) ->
    exists results,
      get_suggestions store None fromisoformat query limit = Returns results
      /\ (forall e, In e results ->
                    In e (rows store)
                    /\ like (natural_language e) (like_parameter query) = true)
      /\ (forallb plain_char query = true ->
          forall e, In e results ->
                    contains (map sql_fold query)
                             (map sql_fold (natural_language e)) = true)
      /\ NoDup (map shell_command results)
      /\ (forall e r, In e results -> In r (matching store query) ->
                      shell_command r = shell_command e ->
                      str_leb (timestamp r) (timestamp e) = true)
      /\ LocallySorted (ranked_before store query) results
      /\ (Z.of_nat (length results) <= limit)%Z
      /\ (forall r, In r (matching store query) ->
                    (exists e, In e results
                               /\ shell_command e = shell_command r)
                    \/ (Z.of_nat (length results) = limit
                        /\ forall e, In e results ->
                                     ranked_before store query e r)).
Proof.
  intros store fromisoformat query limit Hb Hl Hiso.
  unfold get_suggestions. rewrite Hb.
  replace (limit <=? 0)%Z with false by (symmetry; apply Z.leb_gt; lia).
  replace (fits_int64 limit) with true.
  2: { symmetry. unfold fits_int64. apply andb_true_iff.
       split; [apply Z.leb_le | apply Z.ltb_lt]; lia. }
  cbn [negb].
  assert (Hin : forall e,
             In e (suggestions_query store (like_parameter query) limit) ->
             In e (rows store)
             /\ like (natural_language e) (like_parameter query) = true).
  { intros e He. apply result_is_group in He as [g [Hg <-]].
    apply group_spec in Hg as [Hg _]. unfold matching in Hg.
    now apply filter_In in Hg. }
  rewrite readable_all by (intros r Hr; apply Hiso; now apply Hin).
  eexists. split; [reflexivity|].
  assert (Hg : forall g,
             In g (group_by_command (matching store query)) ->
             frequency g = uses store query (row g)
             /\ last_used g = timestamp (row g)).
  { intros g Hg. apply group_spec in Hg as [_ [Hf [Hu _]]].
    split; [exact Hf | exact Hu]. }
  assert (Hsorted : forall g,
             In g (GroupSort.sort (group_by_command (matching store query))) ->
             In g (group_by_command (matching store query))).
  { intros g H. eapply Permutation_in;
      [apply Permutation_sym, GroupSort.Permuted_sort | exact H]. }
  refine (conj Hin (conj _ (conj _ (conj _ (conj _ (conj _ _)))))).
  - intros Hq e He. apply like_parameter_contains; [exact Hq|].
    now apply Hin.
  - unfold suggestions_query. rewrite <- firstn_map. apply NoDup_firstn.
    rewrite map_map.
    eapply Permutation_NoDup;
      [apply Permutation_map, GroupSort.Permuted_sort|].
    apply group_commands_distinct.
  - intros e r He Hr Hc. apply result_is_group in He as [g [Hg' <-]].
    apply group_spec in Hg' as [_ [_ [_ Hg']]]. now apply Hg'.
  - unfold suggestions_query. apply LocallySorted_firstn.
    eapply LocallySorted_map; [apply GroupSort.LocallySorted_sort|].
    intros a b Ha Hb' Hab.
    destruct (Hg a (Hsorted a Ha)) as [Hfa Hua].
    destruct (Hg b (Hsorted b Hb')) as [Hfb Hub].
    unfold is_true, GroupOrder.leb in Hab. rewrite Hfa, Hfb, Hua, Hub in Hab.
    apply orb_true_iff in Hab as [Hab | Hab].
    + left. now apply Nat.ltb_lt.
    + apply andb_true_iff in Hab as [Hab1 Hab2]. right.
      split; [now apply Nat.eqb_eq | exact Hab2].
  - unfold suggestions_query.
    pose proof (firstn_le_length (Z.to_nat limit)
                  (map row (GroupSort.sort (group_by_command
                     (filter (fun r => like (natural_language r)
                                            (like_parameter query))
                             (rows store)))))) as H.
    lia.
  - intros r Hr. destruct (@group_complete (matching store query) r Hr)
      as [g [Hgin Hcmd]].
    unfold suggestions_query. fold (matching store query).
    rewrite firstn_map.
    destruct (@cut_keeps_the_best (group_by_command (matching store query))
                (Z.to_nat limit) g Hgin) as [Hk | [Hlen Hbest]].
    + left. exists (row g). split; [now apply in_map | exact Hcmd].
    + right. split; [rewrite length_map, Hlen; lia|].
      intros e He. apply in_map_iff in He as [g' [<- Hg']].
      specialize (Hbest g' Hg').
      destruct (Hg g Hgin) as [Hfg Hug].
      destruct (Hg g' (Hsorted g' (@In_firstn _ g' _ _ Hg'))) as [Hfg' Hug'].
      assert (Huses : uses store query (row g) = uses store query r).
      { unfold uses. now rewrite Hcmd. }
      assert (Hts : str_leb (timestamp r) (timestamp (row g)) = true).
      { apply group_spec in Hgin as [_ [_ [_ Hlate]]].
        apply Hlate; [exact Hr | now symmetry]. }
      unfold GroupOrder.leb in Hbest.
      rewrite Hfg, Hfg', Hug, Hug', Huses in Hbest.
      apply orb_true_iff in Hbest as [Hbest | Hbest].
      * left. now apply Nat.ltb_lt.
      * apply andb_true_iff in Hbest as [Hb1 Hb2]. right.
        split; [now apply Nat.eqb_eq|].
        exact (@str_leb_trans _ _ _ Hts Hb2).
Qed.

(** The history of six commands, the query "LIST" and the limit 2: three
    commands match, and the cap leaves one of them out. *)
Lemma get_suggestions_witness :
  exists results,
    get_suggestions sample_history None reads_dates (lit "LIST") 2
    = Returns results
    /\ (forall e, In e results ->
                  In e (rows sample_history)
                  /\ like (natural_language e) (like_parameter (lit "LIST"))
                     = true)
    /\ (forallb plain_char (lit "LIST") = true ->
        forall e, In e results ->
                  contains (map sql_fold (lit "LIST"))
                           (map sql_fold (natural_language e)) = true)
    /\ NoDup (map shell_command results)
    /\ (forall e r, In e results ->
                    In r (matching sample_history (lit "LIST")) ->
                    shell_command r = shell_command e ->
                    str_leb (timestamp r) (timestamp e) = true)
    /\ LocallySorted (ranked_before sample_history (lit "LIST")) results
    /\ (Z.of_nat (length results) <= 2)%Z
    /\ (forall r, In r (matching sample_history (lit "LIST")) ->
                  (exists e, In e results
                             /\ shell_command e = shell_command r)
                  \/ (Z.of_nat (length results) = 2%Z
                      /\ forall e, In e results ->
                                   ranked_before sample_history (lit "LIST")
                                     e r)).
Proof.
  apply (@get_suggestions_like_ranked sample_history reads_dates
           (lit "LIST") 2%Z).
  - reflexivity.
  - lia.
  - intros r [<- | [<- | [<- | [<- | [<- | [<- | []]]]]]]; reflexivity.
Defined.

Example sample_suggestions :
  option_map (map (fun e => (id e, shell_command e)))
    (match get_suggestions sample_history None reads_dates (lit "LIST") 2
     with
     | Returns found => Some found
     | Raises _ => None
     end)
  = Some [(6%Z, lit "ls"); (5%Z, lit "ls -S")]
  /\ length (matching sample_history (lit "LIST")) = 5.
Proof. vm_compute. split; reflexivity. Qed.



Example save_then_suggest :
  let saved :=
    snd (save_command one_listing None (lit "/tmp") (lit "2025-01-02T09:30:00")
           (lit "List all files") (lit "ls -a") 0 (1 # 2) None) in
  length (rows saved) = 2
  /\ option_map (map shell_command)
       (match get_suggestions saved None (fun _ => true) (lit "list") 5 with
        | Returns found => Some found
        | Raises _ => None
        end)
     = Some [lit "ls -a"; lit "ls"].
Proof. vm_compute. split; reflexivity. Qed.

Example negative_time_rejected :
  save_command one_listing None (lit "/tmp") (lit "2025-01-02T09:30:00")
    (lit "list") (lit "ls") 0 (-1 # 2) None
  = (Raises (ValueError (lit "execution_time cannot be negative")), one_listing).
Proof. vm_compute. reflexivity. Qed.

End HistoryFacts.

(** ** Close matches are drawn from the possibilities *)

Module DifflibFacts.

Import Difflib.

Lemma max_scored_in : forall rest cur, In (max_scored cur rest) (cur :: rest).
Proof.
  induction rest as [|y rest IH]; intros cur; simpl; [auto|].
  destruct (IH (if scored_ltb cur y then y else cur)) as [H | H]; [|auto].
  rewrite <- H. destruct (scored_ltb cur y); auto.
Qed.

Lemma close_enough_in word possibilities cutoff p :
  In p (close_enough word possibilities cutoff) -> In (snd p) possibilities.
Proof.
  unfold close_enough. intros H. apply in_flat_map in H as [x [Hx H]].
  destruct (Qle_bool cutoff (real_quick_ratio x word)
            && Qle_bool cutoff (quick_ratio x word)
            && Qle_bool cutoff (ratio x word)); [|destruct H].
  destruct H as [<- | []]. exact Hx.
Qed.

Lemma get_close_matches_in word possibilities cutoff matches m :
  get_close_matches word possibilities cutoff = Some matches ->
  In m matches -> In m possibilities.
Proof.
  unfold get_close_matches.
  destruct (negb (Qle_bool 0 cutoff && Qle_bool cutoff 1)); [discriminate|].
  destruct (close_enough word possibilities cutoff) as [|first rest] eqn:E.
  - intros H; injection H as <-. intros [].
  - intros H; injection H as <-. intros [<- | []].
    apply (close_enough_in word possibilities cutoff). rewrite E.
    apply max_scored_in.
Qed.

(** *** The bounds on steps and depth are large enough *)

(** A block lies in [a[alo:hi]]. *)
Definition block_within (alo hi : nat) (best : block) : Prop :=
  let '(besti, _, bestsize) := best in alo <= besti /\ besti + bestsize <= hi.

(** No length recorded in a row exceeds [bound]. *)
Definition row_within (bound : nat) (j2len : list (nat * nat)) : Prop :=
  forall p, In p j2len -> snd p <= bound.

Lemma j2len_get_within bound j2len j :
  row_within bound j2len -> j2len_get j2len j <= bound.
Proof.
  intros H. unfold j2len_get. destruct j as [|j']; [lia|].
  destruct (find (fun p => fst p =? j') j2len) as [p|] eqn:E; [|lia].
  apply find_some in E as [Hp _]. now apply H.
Qed.

Lemma scan_row_within alo i blo bhi j2len : forall js newj2len best,
  alo <= i ->
  row_within (i - alo) j2len ->
  row_within (S (i - alo)) newj2len ->
  block_within alo (S i) best ->
  row_within (S (i - alo)) (fst (scan_row i blo bhi js j2len newj2len best))
  /\ block_within alo (S i) (snd (scan_row i blo bhi js j2len newj2len best)).
Proof.
  induction js as [|j js IH]; intros newj2len best Hi Hold Hnew Hbest; simpl.
  - auto.
  - destruct (j <? blo); [now apply IH|].
    destruct (bhi <=? j); [auto|].
    pose proof (@j2len_get_within (i - alo) j2len j Hold) as Hk.
    apply IH; auto.
    + intros p [<- | Hp]; [simpl; lia | now apply Hnew].
    + destruct best as [[besti bestj] bestsize].
      destruct (bestsize <? j2len_get j2len j + 1); [|exact Hbest].
      simpl. lia.
Qed.

Lemma scan_rows_within a b alo blo bhi : forall count i j2len best,
  alo <= i ->
  row_within (i - alo) j2len ->
  block_within alo i best ->
  block_within alo (i + count) (scan_rows a b blo bhi i count j2len best).
Proof.
  induction count as [|count IH]; intros i j2len best Hi Hrow Hbest; simpl.
  - now rewrite Nat.add_0_r.
  - set (js := match nth_error a i with Some c => b2j b c | None => [] end).
    assert (Hbest' : block_within alo (S i) best).
    { destruct best as [[besti bestj] bestsize]. simpl in *. lia. }
    assert (Hempty : row_within (S (i - alo)) []) by (intros p []).
    destruct (@scan_row_within alo i blo bhi j2len js [] best Hi Hrow Hempty Hbest')
      as [Hr Hb].
    destruct (scan_row i blo bhi js j2len [] best) as [newj2len best'].
    simpl in Hr, Hb. replace (i + S count) with (S i + count) by lia.
    apply IH; [lia | | exact Hb].
    replace (S i - alo) with (S (i - alo)) by lia. exact Hr.
Qed.

Lemma extend_left_within a b alo blo hi : forall steps best,
  block_within alo hi best ->
  block_within alo hi (extend_left a b alo blo steps best).
Proof.
  induction steps as [|steps IH]; intros [[besti bestj] bestsize] H; simpl;
    [exact H|].
  destruct ((alo <? besti) && (blo <? bestj)
            && same_at a (besti - 1) b (bestj - 1)) eqn:E; [|exact H].
  apply IH. apply andb_true_iff in E as [E _].
  apply andb_true_iff in E as [E _]. apply Nat.ltb_lt in E. simpl in *. lia.
Qed.

Lemma extend_right_within a b alo ahi bhi : forall steps best,
  block_within alo ahi best ->
  block_within alo ahi (extend_right a b ahi bhi steps best).
Proof.
  induction steps as [|steps IH]; intros [[besti bestj] bestsize] H; simpl;
    [exact H|].
  destruct ((besti + bestsize <? ahi) && (bestj + bestsize <? bhi)
            && same_at a (besti + bestsize) b (bestj + bestsize)) eqn:E;
    [|exact H].
  apply IH. apply andb_true_iff in E as [E _].
  apply andb_true_iff in E as [E _]. apply Nat.ltb_lt in E. simpl in *. lia.
Qed.

(** The block found lies in the range searched. *)
Lemma find_longest_match_within_range steps a b alo ahi blo bhi :
  alo <= ahi ->
  block_within alo ahi (find_longest_match_within steps a b alo ahi blo bhi).
Proof.
  intros H. unfold find_longest_match_within.
  apply extend_right_within, extend_left_within.
  replace ahi with (alo + (ahi - alo)) at 1 by lia.
  apply scan_rows_within; [lia | intros p [] | simpl; lia].
Qed.

(** Extending to the left takes at most [besti - alo] steps. *)
Lemma extend_left_enough a b alo blo : forall s1 s2 best,
  (let '(besti, _, _) := best in besti - alo <= s1 /\ besti - alo <= s2) ->
  extend_left a b alo blo s1 best = extend_left a b alo blo s2 best.
Proof.
  induction s1 as [|s1 IH]; intros s2 [[besti bestj] bestsize] [H1 H2].
  - assert (E : (alo <? besti) = false) by (apply Nat.ltb_ge; lia).
    destruct s2; simpl; [reflexivity|]. now rewrite E.
  - simpl.
    destruct ((alo <? besti) && (blo <? bestj)
              && same_at a (besti - 1) b (bestj - 1)) eqn:E.
    + pose proof E as E'. apply andb_true_iff in E' as [E' _].
      apply andb_true_iff in E' as [E' _]. apply Nat.ltb_lt in E'.
      destruct s2 as [|s2]; [lia|]. simpl. rewrite E. apply IH. lia.
    + destruct s2; simpl; [reflexivity|]. now rewrite E.
Qed.

(** Extending to the right takes at most [ahi - (besti + bestsize)]
    steps. *)
Lemma extend_right_enough a b ahi bhi : forall s1 s2 best,
  (let '(besti, _, bestsize) := best in
   ahi - (besti + bestsize) <= s1 /\ ahi - (besti + bestsize) <= s2) ->
  extend_right a b ahi bhi s1 best = extend_right a b ahi bhi s2 best.
Proof.
  induction s1 as [|s1 IH]; intros s2 [[besti bestj] bestsize] [H1 H2].
  - assert (E : (besti + bestsize <? ahi) = false) by (apply Nat.ltb_ge; lia).
    destruct s2; simpl; [reflexivity|]. now rewrite E.
  - simpl.
    destruct ((besti + bestsize <? ahi) && (bestj + bestsize <? bhi)
              && same_at a (besti + bestsize) b (bestj + bestsize)) eqn:E.
    + pose proof E as E'. apply andb_true_iff in E' as [E' _].
      apply andb_true_iff in E' as [E' _]. apply Nat.ltb_lt in E'.
      destruct s2 as [|s2]; [lia|]. simpl. rewrite E. apply IH. lia.
    + destruct s2; simpl; [reflexivity|]. now rewrite E.
Qed.

(** [len(a)] steps are enough for both loops: any larger bound gives the
    same block. *)
Lemma find_longest_match_steps a b alo ahi blo bhi steps :
  alo <= ahi -> ahi <= length a -> length a <= steps ->
  find_longest_match_within steps a b alo ahi blo bhi
  = find_longest_match a b alo ahi blo bhi.
Proof.
  intros H1 H2 H3. unfold find_longest_match, find_longest_match_within.
  assert (Hscan : block_within alo ahi
            (scan_rows a b blo bhi alo (ahi - alo) [] (alo, blo, 0))).
  { replace ahi with (alo + (ahi - alo)) at 1 by lia.
    apply scan_rows_within; [lia | intros p [] | simpl; lia]. }
  rewrite (@extend_left_enough a b alo blo steps (length a)).
  2:{ destruct (scan_rows a b blo bhi alo (ahi - alo) [] (alo, blo, 0))
        as [[besti bestj] bestsize]. simpl in Hscan. lia. }
  apply extend_right_enough.
  pose proof (@extend_left_within a b alo blo ahi (length a) _ Hscan) as Hl.
  destruct (extend_left a b alo blo (length a)
              (scan_rows a b blo bhi alo (ahi - alo) [] (alo, blo, 0)))
    as [[besti bestj] bestsize].
  simpl in Hl. lia.
Qed.

(** A depth above the length of the range is enough: any two such depths
    give the same total. *)
Lemma matched_enough a b : forall d1 d2 alo ahi blo bhi,
  alo <= ahi -> ahi - alo < d1 -> ahi - alo < d2 ->
  matched a b d1 alo ahi blo bhi = matched a b d2 alo ahi blo bhi.
Proof.
  induction d1 as [|d1 IH]; intros d2 alo ahi blo bhi Hr H1 H2; [lia|].
  destruct d2 as [|d2]; [lia|]. simpl.
  pose proof (@find_longest_match_within_range (length a) a b alo ahi blo bhi Hr)
    as Hb.
  fold (find_longest_match a b alo ahi blo bhi) in Hb.
  destruct (find_longest_match a b alo ahi blo bhi) as [[i j] k].
  simpl in Hb. destruct (k =? 0) eqn:Ek; [reflexivity|].
  apply Nat.eqb_neq in Ek. f_equal; [f_equal|].
  - destruct ((alo <? i) && (blo <? j)); [|reflexivity].
    apply IH; lia.
  - destruct ((i + k <? ahi) && (j + k <? bhi)); [|reflexivity].
    apply IH; lia.
Qed.

(** The ratio does not depend on the depth once it exceeds [len(a)]. *)
Theorem ratio_depth_enough a b depth :
  length a < depth ->
  calculate_ratio (matched a b depth 0 (length a) 0 (length b))
                  (length a + length b)
  = ratio a b.
Proof.
  intros H. unfold ratio. f_equal. apply matched_enough; lia.
Qed.

End DifflibFacts.

(** ** The path corrector *)

Module CorrectorFacts.

Import Corrector.

(** The guard at the top of [correct_paths]. *)
Lemma guarded_command_unchanged fs cutoff command wd :
  contains (lit "|") command = true
  \/ contains (lit ">") command = true
  \/ contains (lit "&&") command = true ->
  correct_paths fs cutoff command wd = Returns command.
Proof.
  unfold correct_paths. intros [H | [H | H]]; rewrite H;
    rewrite ?orb_true_r; reflexivity.
Qed.

Lemma unsplittable_command_unchanged fs cutoff command wd message :
  Shlex.split command = Shlex.SplitError message ->
  correct_paths fs cutoff command wd = Returns command.
Proof.
  unfold correct_paths. intros H. rewrite H.
  destruct (contains (lit "|") command || contains (lit ">") command
            || contains (lit "&&") command); reflexivity.
Qed.

(** *** Correcting again, where every listed entry exists *)

Lemma find_case_in target : forall options m,
  _find_case_insensitive target options = Some m -> In m options.
Proof.
  induction options as [|opt rest IH]; intros m; simpl; [discriminate|].
  destruct (str_eqb (lower opt) (lower target)).
  - intros H; injection H as <-. now left.
  - intros H. right. now apply IH.
Qed.

Lemma found_in target options m :
  found (_find_case_insensitive target options) = Some m -> In m options.
Proof.
  unfold found.
  destruct (_find_case_insensitive target options) as [x|] eqn:E;
    [|discriminate].
  destruct (truthy x); [|discriminate].
  intros H; injection H as <-. now apply (find_case_in target).
Qed.

Section Existing.

Variable fs : FS.
Variable cutoff : Q.
Variable wd : str.
Variable files : list str.

(** Every entry of the listing exists. *)
Hypothesis listed_exist :
  forall f, In f files -> path_exists fs (Posixpath.join wd f) = true.

(** A listed entry is kept as it is. *)
Lemma listed_part_kept m :
  In m files -> correct_part fs cutoff wd files m = Some (m, false).
Proof.
  intros Hm. unfold correct_part.
  destruct (startswith m (lit "-")); [reflexivity|].
  rewrite (listed_exist m Hm).
  replace (str_in m files) with true; [reflexivity|].
  symmetry. now apply str_in_iff.
Qed.

(** Whatever a part is corrected to is kept by a second correction, and
    a part marked as modified did change. *)
Lemma correct_part_settles part part' changed :
  correct_part fs cutoff wd files part = Some (part', changed) ->
  correct_part fs cutoff wd files part' = Some (part', false)
  /\ (changed = true -> part' <> part).
Proof.
  intros H. pose proof H as H0. unfold correct_part in H.
  destruct (startswith part (lit "-")) eqn:Eflag.
  { injection H as <- <-. split; [exact H0 | discriminate]. }
  destruct (path_exists fs (Posixpath.join wd part)) eqn:Eex.
  - destruct (str_in part files) eqn:Ein.
    { injection H as <- <-. split; [exact H0 | discriminate]. }
    destruct (negb (contains [Posixpath.sep] part)
              && negb (contains (lit "/") part)).
    + destruct (found (_find_case_insensitive part files)) as [m|] eqn:Ef.
      * injection H as <- <-. apply found_in in Ef.
        split; [now apply listed_part_kept|].
        intros _ ->. apply str_in_iff in Ef. congruence.
      * injection H as <- <-. split; [exact H0 | discriminate].
    + injection H as <- <-. split; [exact H0 | discriminate].
  - assert (Hnew : forall m, In m files ->
               correct_part fs cutoff wd files m = Some (m, false)
               /\ (true = true -> m <> part)).
    { intros m Hm. split; [now apply listed_part_kept|].
      intros _ ->. rewrite (listed_exist part Hm) in Eex. discriminate. }
    destruct (Difflib.get_close_matches part files cutoff) as [[|best rest]|]
      eqn:Eg; [| |discriminate].
    + destruct (found (_find_case_insensitive part files)) as [m|] eqn:Ef.
      * injection H as <- <-. apply Hnew. now apply (found_in part).
      * injection H as <- <-. split; [exact H0 | discriminate].
    + destruct (found (_find_case_insensitive part files)) as [m|] eqn:Ef.
      * injection H as <- <-. apply Hnew. now apply (found_in part).
      * injection H as <- <-. apply Hnew.
        eapply DifflibFacts.get_close_matches_in; [exact Eg | now left].
Qed.

(** The loop: the corrected parts are kept by a second run of the loop,
    and the loop reports a modification only if some part changed. *)
Lemma correct_parts_settle : forall parts acc modified acc' modified',
  correct_parts fs cutoff wd files parts acc modified = Some (acc', modified') ->
  exists parts',
    acc' = acc ++ parts'
    /\ (forall acc2,
          correct_parts fs cutoff wd files parts' acc2 false
          = Some (acc2 ++ parts', false))
    /\ (modified' = true -> modified = true \/ parts' <> parts).
Proof.
  induction parts as [|part rest IH]; intros acc modified acc' modified' H;
    simpl in H.
  - injection H as <- <-. exists []. rewrite app_nil_r.
    split; [reflexivity|]. split; [|auto].
    intros acc2. simpl. now rewrite app_nil_r.
  - destruct (correct_part fs cutoff wd files part) as [[part' changed]|] eqn:E;
      [|discriminate].
    apply correct_part_settles in E as [Hkept Hchanged].
    apply IH in H as [parts' [-> [Hagain Hmod]]].
    exists (part' :: parts'). rewrite <- app_assoc.
    split; [reflexivity|]. split.
    + intros acc2. simpl. rewrite Hkept, Hagain, <- app_assoc. reflexivity.
    + intros Hm. destruct (Hmod Hm) as [H | H].
      * apply orb_true_iff in H as [H | H]; [now left|].
        right. intros E. injection E as E _. now apply Hchanged.
      * right. intros E. injection E as _ E. now apply H.
Qed.

End Existing.

(** Where every entry listed in the working directory exists, path
    correction is idempotent, and a command whose tokens all stay as
    they are comes back untouched. *)
Theorem correct_paths_idempotent_when_entries_exist :
  forall (fs : FS) (cutoff : Q) (command wd corrected : str),
    (forall files f,
        listdir fs wd = Listed files -> In f files ->
        path_exists fs (Posixpath.join wd f) = true) ->
    correct_paths fs cutoff command wd = Returns corrected ->
    correct_paths fs cutoff corrected wd = Returns corrected
    /\ (corrected <> command ->
        exists parts parts',
          Shlex.split command = Shlex.Tokens parts
          /\ corrected = Shlex.join parts' /\ parts' <> parts).
Proof.
  intros fs cutoff command wd corrected Hex H.
  pose proof H as H0. unfold correct_paths in H.
  destruct (contains (lit "|") command || contains (lit ">") command
            || contains (lit "&&") command) eqn:Eg.
  { injection H as <-. split; [exact H0 | congruence]. }
  destruct (Shlex.split command) as [[|first rest]|message] eqn:Es.
  1, 3: injection H as <-; split; [exact H0 | congruence].
  destruct (listdir fs wd) as [files| |message] eqn:El; [| |discriminate].
  2: { injection H as <-. split; [exact H0 | congruence]. }
  destruct (correct_parts fs cutoff wd files rest [first] false)
    as [[cp modified]|] eqn:Ec; [|discriminate].
  destruct (@correct_parts_settle fs cutoff wd files
              (fun f => Hex files f eq_refl) rest [first] false cp modified Ec)
    as [parts' [-> [Hagain Hmod]]].
  destruct modified.
  2: { injection H as <-. split; [exact H0 | congruence]. }
  injection H as <-. split.
  - unfold correct_paths.
    destruct (contains (lit "|") (Shlex.join (first :: parts'))
              || contains (lit ">") (Shlex.join (first :: parts'))
              || contains (lit "&&") (Shlex.join (first :: parts')));
      [reflexivity|].
    rewrite ShlexFacts.split_join, El.
    rewrite (Hagain [first]). reflexivity.
  - intros _. exists (first :: rest), (first :: parts').
    split; [reflexivity|]. split; [reflexivity|].
    destruct (Hmod eq_refl) as [H | H]; [discriminate|].
    intros E. injection E as E. now apply H.
Qed.

(** C7: a command holding [|], [>] or [&&] comes back unchanged, and so
    does a command that [shlex.split] rejects; but a command with the
    input redirect [<] or the chaining operator [;] is corrected and
    joined anew: in a directory holding [data.txt],
    "sort < data.TXT" becomes "sort '<' data.txt" and
    "cat data.tx; ls" becomes "cat data.txt ls". *)
Theorem compound_commands_partly_skipped :
  (forall fs cutoff command wd,
      contains (lit "|") command = true
      \/ contains (lit ">") command = true
      \/ contains (lit "&&") command = true ->
      correct_paths fs cutoff command wd = Returns command)
  /\ (forall fs cutoff command wd message,
         Shlex.split command = Shlex.SplitError message ->
         correct_paths fs cutoff command wd = Returns command)
  /\ correct_paths with_data default_cutoff (lit "cat 'data.tx") (lit "/proj")
     = Returns (lit "cat 'data.tx")
  /\ correct_paths with_data default_cutoff (lit "sort < data.TXT") (lit "/proj")
     = Returns (lit "sort '<' data.txt")
  /\ correct_paths with_data default_cutoff (lit "cat data.tx; ls") (lit "/proj")
     = Returns (lit "cat data.txt ls").
Proof.
  split; [exact guarded_command_unchanged|].
  split; [exact unsplittable_command_unchanged|].
  repeat split; vm_compute; reflexivity.
Qed.

(** C6: where a listed entry does not exist (a dangling symbolic link),
    correcting twice differs from correcting once, and a command none of
    whose tokens changes still comes back rewritten: with the file
    [README.TXT] and the dangling link [Readme.txt],
    "cat Readme.tx" gives "cat Readme.txt", which gives "cat README.TXT";
    with the dangling link [link], "cat  link" (two spaces) gives
    "cat link". *)
Theorem correction_repeats_on_dangling_entries :
  correct_paths with_dangling_readme default_cutoff (lit "cat Readme.tx")
                (lit "/proj")
  = Returns (lit "cat Readme.txt")
  /\ correct_paths with_dangling_readme default_cutoff (lit "cat Readme.txt")
                   (lit "/proj")
     = Returns (lit "cat README.TXT")
  /\ lit "cat README.TXT" <> lit "cat Readme.txt"
  /\ Shlex.split (lit "cat  link") = Shlex.Tokens [lit "cat"; lit "link"]
  /\ correct_part with_dangling_link default_cutoff (lit "/proj") [lit "link"]
                  (lit "link")
     = Some (lit "link", true)
  /\ correct_paths with_dangling_link default_cutoff (lit "cat  link")
                   (lit "/proj")
     = Returns (lit "cat link")
  /\ lit "cat link" <> lit "cat  link".
Proof.
  repeat split; try (vm_compute; reflexivity); vm_compute; discriminate.
Qed.

End CorrectorFacts.

(** ** More on risk classification and confirmation *)

Unset Implicit Arguments.

Module SafetyMore.

Import SafetyFacts.

Lemma lower_char_space c : isspace (lower_char c) = isspace c.
Proof. destruct c as [[] [] [] [] [] [] [] []]; vm_compute; reflexivity. Qed.

Lemma word_not_space c : is_word c = true -> isspace c = false.
Proof.
  destruct c as [[] [] [] [] [] [] [] []]; vm_compute; intros H;
    first [reflexivity | discriminate H].
Qed.

Lemma blank_lower c : blank (lower c) = blank c.
Proof.
  apply eq_true_iff_eq. rewrite !blank_iff. unfold lower.
  assert (E : forallb isspace (map lower_char c) = forallb isspace c).
  { induction c as [|x c IH]; simpl; [reflexivity|].
    now rewrite lower_char_space, IH. }
  now rewrite E.
Qed.

(** Two commands that differ only in the case of their letters get the
    same risk. *)
Theorem classification_ignores_case :
  forall c c' : str, lower c = lower c' -> classify_command c = classify_command c'.
Proof.
  intros c c' H. unfold classify_command.
  rewrite <- (blank_lower c), <- (blank_lower c'), H. reflexivity.
Qed.

(** Whatever the tier, the command, the console and the prompt, a call
    of [get_confirmation] answers "yes", "no" or "retry", or raises; it
    raises only out of its last handler, when the console refuses the
    markup of the error report, the error being one of the prompt or
    (DESTRUCTIVE tier) the console's refusal of the markup of the
    command line; without a response (interrupt, end of input, any
    other fault) it never answers "yes" or "retry", and answers "no" on
    a console that prints every text; and it answers "yes" only on an
    explicit affirmative response: EXECUTE after the command line was
    printed for DESTRUCTIVE, y or yes (in any case) otherwise.  At the
    SAFE and MODERATE tiers a response is answered by "yes" exactly
    when it lowers to y or yes, and by "retry" exactly when it lowers to
    r or retry. *)
Theorem confirmation_fails_closed :
  forall (command : str) (risk : CommandRisk) (print : console)
         (io : interaction),
    (get_confirmation command risk print io = Answers (lit "yes")
     \/ get_confirmation command risk print io = Answers (lit "no")
     \/ get_confirmation command risk print io = Answers (lit "retry")
     \/ exists raised,
          get_confirmation command risk print io = ConfirmationRaises raised)
    /\ (forall raised,
          get_confirmation command risk print io = ConfirmationRaises raised ->
          exists e,
            print (line_feed ++ lit "[red]Error during confirmation: " ++ e
                   ++ lit "[/red]") = Some raised
            /\ (io = OtherException e
                \/ (risk = DESTRUCTIVE
                    /\ print (lit "Command: " ++ command) = Some e)))
    /\ ((forall response, io <> Responds response) ->
        (get_confirmation command risk print io = Answers (lit "no")
         \/ exists raised,
              get_confirmation command risk print io
              = ConfirmationRaises raised)
        /\ ((forall text, print text = None) ->
            get_confirmation command risk print io = Answers (lit "no")))
    /\ (get_confirmation command risk print io = Answers (lit "yes") ->
        exists response,
          io = Responds response
          /\ (risk = DESTRUCTIVE ->
              response = lit "EXECUTE"
              /\ print (lit "Command: " ++ command) = None)
          /\ (risk <> DESTRUCTIVE ->
              lower response = lit "y" \/ lower response = lit "yes"))
    /\ (risk <> DESTRUCTIVE ->
        forall response,
          (get_confirmation command risk print (Responds response)
           = Answers (lit "yes")
           <-> lower response = lit "y" \/ lower response = lit "yes")
          /\ (get_confirmation command risk print (Responds response)
              = Answers (lit "retry")
              <-> lower response = lit "r" \/ lower response = lit "retry")).
Proof.
  intros command risk print io.
  assert (Hreport : forall e,
             report_error print e = Answers (lit "no")
             \/ exists raised,
                  print (line_feed ++ lit "[red]Error during confirmation: "
                         ++ e ++ lit "[/red]") = Some raised
                  /\ report_error print e = ConfirmationRaises raised).
  { intros e. unfold report_error.
    destruct (print _) as [raised|]; [right; eauto | now left]. }
  assert (Hyes : forall e, report_error print e <> Answers (lit "yes")).
  { intros e. destruct (Hreport e) as [-> | [raised [_ ->]]]; discriminate. }
  split; [|split; [|split; [|split]]].
  5: { intros Hrisk response.
       assert (Hy : str_in (lower response) [lit "y"; lit "yes"] = true
                    <-> lower response = lit "y" \/ lower response = lit "yes").
       { rewrite str_in_iff. simpl.
         split; [intros [H | [H | []]]; auto | intros [H | H]; auto]. }
       assert (Hr : str_in (lower response) [lit "r"; lit "retry"] = true
                    <-> lower response = lit "r"
                        \/ lower response = lit "retry").
       { rewrite str_in_iff. simpl.
         split; [intros [H | [H | []]]; auto | intros [H | H]; auto]. }
       assert (E : get_confirmation command risk print (Responds response)
                   = if str_in (lower response) [lit "y"; lit "yes"]
                     then Answers (lit "yes")
                     else if str_in (lower response) [lit "r"; lit "retry"]
                          then Answers (lit "retry")
                          else Answers (lit "no")).
       { destruct risk; [reflexivity | reflexivity | now destruct Hrisk]. }
       rewrite E.
       destruct (str_in (lower response) [lit "y"; lit "yes"]) eqn:Ey.
       - pose proof (proj1 Hy eq_refl) as Hyes'.
         split; [tauto|]. split; [discriminate|].
         intros [H | H]; destruct Hyes' as [Ey' | Ey']; rewrite Ey' in H;
           vm_compute in H; discriminate H.
       - destruct (str_in (lower response) [lit "r"; lit "retry"]) eqn:Er.
         + split.
           * split; [discriminate|]. intros H. apply Hy in H. discriminate H.
           * split; [intros _; now apply Hr | reflexivity].
         + split; (split; [discriminate|]); intros H;
             [apply Hy in H | apply Hr in H]; discriminate H. }
  - destruct risk; cbn [get_confirmation].
    3: destruct (print (lit "Command: " ++ command)) as [e|];
         [destruct (Hreport e) as [-> | [raised [_ ->]]]; eauto 6|].
    all: destruct io as [response| | |message]; auto.
    all: try (destruct (Hreport message) as [-> | [raised [_ ->]]]; eauto 6).
    + destruct (str_in (lower response) [lit "y"; lit "yes"]); auto.
      destruct (str_in (lower response) [lit "r"; lit "retry"]); auto.
    + destruct (str_in (lower response) [lit "y"; lit "yes"]); auto.
      destruct (str_in (lower response) [lit "r"; lit "retry"]); auto.
    + destruct (str_eqb response confirmation_text); auto.
      destruct (str_in (lower response) [lit "retry"; lit "r"]); auto.
  - intros raised. destruct risk; cbn [get_confirmation].
    3: destruct (print (lit "Command: " ++ command)) as [e|] eqn:Ep.
    3: { intros H. exists e. split; [|right; auto].
         destruct (Hreport e) as [E | [raised' [Ep' E]]];
           rewrite E in H; [discriminate H|].
         injection H as <-. exact Ep'. }
    all: destruct io as [response| | |message]; try discriminate.
    all: try (intros H; exists message; split; [|now left];
              destruct (Hreport message) as [E | [raised' [Ep' E]]];
              rewrite E in H; [discriminate H|];
              injection H as <-; exact Ep').
    + destruct (str_in (lower response) [lit "y"; lit "yes"]);
        [discriminate|].
      destruct (str_in (lower response) [lit "r"; lit "retry"]); discriminate.
    + destruct (str_in (lower response) [lit "y"; lit "yes"]);
        [discriminate|].
      destruct (str_in (lower response) [lit "r"; lit "retry"]); discriminate.
    + destruct (str_eqb response confirmation_text); [discriminate|].
      destruct (str_in (lower response) [lit "retry"; lit "r"]); discriminate.
  - intros H. split.
    + destruct risk; cbn [get_confirmation].
      3: destruct (print (lit "Command: " ++ command)) as [e|];
           [destruct (Hreport e) as [-> | [raised [_ ->]]]; eauto|].
      all: destruct io as [response| | |message];
        [exfalso; now apply (H response) | auto | auto |].
      all: destruct (Hreport message) as [-> | [raised [_ ->]]]; eauto.
    + intros Hp. unfold get_confirmation, report_error.
      destruct io as [response| | |message];
        [exfalso; now apply (H response) | | |]; destruct risk;
        rewrite ?Hp; reflexivity.
  - destruct risk; cbn [get_confirmation].
    3: destruct (print (lit "Command: " ++ command)) as [e|] eqn:Ep;
         [intros H; now apply Hyes in H|].
    all: destruct io as [response| | |message];
      try (intros H; discriminate H);
      try (intros H; now apply Hyes in H).
    + intros H. exists response. split; [reflexivity|].
      split; [discriminate|]. intros _.
      destruct (str_in (lower response) [lit "y"; lit "yes"]) eqn:E.
      * apply str_in_iff in E. simpl in E. destruct E as [E | [E | []]]; auto.
      * destruct (str_in (lower response) [lit "r"; lit "retry"]);
          discriminate H.
    + intros H. exists response. split; [reflexivity|].
      split; [discriminate|]. intros _.
      destruct (str_in (lower response) [lit "y"; lit "yes"]) eqn:E.
      * apply str_in_iff in E. simpl in E. destruct E as [E | [E | []]]; auto.
      * destruct (str_in (lower response) [lit "r"; lit "retry"]);
          discriminate H.
    + intros H. exists response. split; [reflexivity|].
      split; [|intros Hn; now contradiction Hn]. intros _.
      split; [|reflexivity].
      destruct (str_eqb response confirmation_text) eqn:E.
      * now apply str_eqb_eq in E.
      * destruct (str_in (lower response) [lit "retry"; lit "r"]);
          discriminate H.
Qed.

(** The command "rm [/tmp/x]" is DESTRUCTIVE; on a console that refuses
    its closing tag, and the same tag in the error report, the call
    raises whatever is typed. *)
Example confirmation_of_closing_tag :
  classify_command (lit "rm [/tmp/x]") = DESTRUCTIVE
  /\ get_confirmation (lit "rm [/tmp/x]") DESTRUCTIVE refuses_closing_tags
                      (Responds (lit "EXECUTE"))
     = ConfirmationRaises
         (lit "closing tag '[/tmp/x]' doesn't match any open tag")
  /\ get_confirmation (lit "rm [/tmp/x]") DESTRUCTIVE prints_all
                      (Responds (lit "EXECUTE"))
     = Answers (lit "yes").
Proof. repeat split; vm_compute; reflexivity. Qed.

(** *** Commands the tables always catch *)

(** Literal text matches a stretch of the subject that folds to it. *)
Lemma matches_text f : forall (t x prev rest : str) (p : pattern),
  map f x = t ->
  Matches f p (rev x ++ prev) rest ->
  Matches f (map (fun c => One (Lit c)) t ++ p) prev (x ++ rest).
Proof.
  induction t as [|l t IH]; intros x prev rest p Hx H.
  - destruct x; [exact H | discriminate].
  - destruct x as [|c x]; [discriminate|]. simpl in Hx. injection Hx as Hc Hx.
    simpl. constructor.
    + simpl. apply ascii_eqb_eq. now symmetry.
    + apply IH; [exact Hx|]. simpl in H. now rewrite <- app_assoc in H.
Qed.

(** [\s*] passes a run of whitespace. *)
Lemma matches_spaces : forall (ws prev rest : str) (p : pattern),
  forallb isspace ws = true ->
  Matches lower_char p (rev ws ++ prev) rest ->
  Matches lower_char (Star Space :: p) prev (ws ++ rest).
Proof.
  induction ws as [|c ws IH]; intros prev rest p Hws H.
  - now apply M_star_stop.
  - simpl in Hws. apply andb_true_iff in Hws as [Hc Hws].
    simpl. apply M_star_more.
    + simpl. now rewrite lower_char_space.
    + apply IH; [exact Hws|]. simpl in H. now rewrite <- app_assoc in H.
Qed.

Lemma words_fold_back x t :
  lower x = t -> forallb is_word t = true -> forallb is_word x = true.
Proof.
  intros <-. unfold lower. induction x as [|c x IH]; simpl; [reflexivity|].
  rewrite lower_char_word. intros H. apply andb_true_iff in H as [Hc H].
  now rewrite Hc, IH.
Qed.

Lemma word_at_last x prev :
  x <> [] -> forallb is_word x = true -> word_at (rev x ++ prev) = true.
Proof.
  intros Hne Hw. destruct (rev x) as [|c r] eqn:E.
  - apply (f_equal (@rev ascii)) in E. rewrite rev_involutive in E.
    now contradiction Hne.
  - simpl. rewrite forallb_forall in Hw. apply Hw. apply in_rev.
    rewrite E. now left.
Qed.

Lemma classify_destructive_hit command p :
  blank command = false -> In p DESTRUCTIVE_PATTERNS ->
  Found lower_char p command ->
  classify_command command = DESTRUCTIVE.
Proof.
  intros Hb Hp Hf. unfold classify_command. rewrite Hb.
  replace (first_hit DESTRUCTIVE_PATTERNS (lower command)) with true;
    [reflexivity|].
  symmetry. apply first_hit_lower. exists p. auto.
Qed.

Lemma not_blank_with a c b : isspace c = false -> blank (a ++ c :: b) = false.
Proof.
  intros Hc. destruct (blank (a ++ c :: b)) eqn:E; [|reflexivity].
  apply blank_iff in E. rewrite forallb_app in E.
  apply andb_true_iff in E as [_ E]. simpl in E. rewrite Hc in E. discriminate.
Qed.

(** The words rm, mv, dd, mkfs, format and truncate, written in any case
    and standing as words of their own (no word character directly
    before or after), make the whole command DESTRUCTIVE. *)
Theorem standalone_word_is_destructive :
  forall (w : string) (a x b : str),
    In w ["rm"; "mv"; "dd"; "mkfs"; "format"; "truncate"]%string ->
    lower x = lit w ->
    word_at (rev a) = false -> word_at b = false ->
    classify_command (a ++ x ++ b) = DESTRUCTIVE.
Proof.
  intros w a x b Hw Hx Ha Hb.
  assert (Hwords : forallb is_word (lit w) = true /\ lit w <> []
                   /\ In (whole_word w) DESTRUCTIVE_PATTERNS).
  { simpl in Hw.
    destruct Hw as [<- | [<- | [<- | [<- | [<- | [<- | []]]]]]];
      (split; [reflexivity | split; [discriminate | simpl; tauto]]). }
  destruct Hwords as [Hall [Hne Hin]].
  pose proof (words_fold_back x (lit w) Hx Hall) as Hxw.
  assert (Hxne : x <> []).
  { intros ->. apply Hne. now rewrite <- Hx. }
  destruct x as [|c x']; [now contradiction Hxne|].
  apply classify_destructive_hit with (p := whole_word w); [|exact Hin|].
  - apply not_blank_with. apply word_not_space. simpl in Hxw.
    now apply andb_true_iff in Hxw as [Hc _].
  - exists a, ((c :: x') ++ b). split; [reflexivity|].
    unfold whole_word. constructor.
    + unfold at_boundary. rewrite Ha. simpl. simpl in Hxw.
      now apply andb_true_iff in Hxw as [Hc _].
    + unfold text. apply matches_text; [exact Hx|]. constructor; [|constructor].
      unfold at_boundary. rewrite Hb, (word_at_last (c :: x') (rev a) Hxne Hxw). reflexivity.
Qed.

Lemma standalone_word_witness :
  classify_command (lit "sudo " ++ lit "RM" ++ lit " -rf /") = DESTRUCTIVE.
Proof.
  apply (standalone_word_is_destructive "rm"%string (lit "sudo ") (lit "RM")
           (lit " -rf /")).
  - simpl. tauto.
  - reflexivity.
  - reflexivity.
  - reflexivity.
Defined.

Lemma lower_char_two c : lower_char c = "2"%char -> c = "2"%char.
Proof.
  destruct c as [[] [] [] [] [] [] [] []]; vm_compute; intros H;
    first [reflexivity | discriminate H].
Qed.

(** A redirection into a device file other than the null device is
    DESTRUCTIVE, unless the [>] directly follows a 2: that is every
    command [a > /dev/x...] where [a] does not end in 2, whitespace may
    follow the [>], and [x...] does not begin with null (in any case). *)
Theorem device_redirect_is_destructive :
  forall a ws dev : str,
    (forall a', a <> a' ++ lit "2") ->
    forallb isspace ws = true ->
    startswith (lower dev) (lit "null") = false ->
    classify_command (a ++ lit ">" ++ ws ++ lit "/dev/" ++ dev) = DESTRUCTIVE.
Proof.
  intros a ws dev Ha Hws Hdev.
  apply classify_destructive_hit with (p := device_redirect).
  - apply (not_blank_with a ">"%char). reflexivity.
  - simpl. tauto.
  - exists a, (lit ">" ++ ws ++ lit "/dev/" ++ dev). split; [reflexivity|].
    unfold device_redirect. constructor.
    + destruct (rev a) as [|c r] eqn:E; [reflexivity|].
      change (ascii_eqb "2"%char (lower_char c) && true = false).
      rewrite andb_true_r.
      destruct (ascii_eqb "2"%char (lower_char c)) eqn:Ec; [|reflexivity].
      exfalso. apply ascii_eqb_eq in Ec. symmetry in Ec.
      apply lower_char_two in Ec. subst c. apply (Ha (rev r)).
      apply (f_equal (@rev ascii)) in E. rewrite rev_involutive in E.
      exact E.
    + unfold text. apply matches_text; [reflexivity|].
      apply matches_spaces; [exact Hws|].
      apply (matches_text lower_char (lit "/dev/") (lit "/dev/"));
        [reflexivity|].
      constructor; [exact Hdev | constructor].
Qed.

Lemma device_redirect_witness :
  classify_command (lit "echo data " ++ lit ">" ++ lit " " ++ lit "/dev/" ++ lit "sda1")
  = DESTRUCTIVE.
Proof.
  apply (device_redirect_is_destructive (lit "echo data ") (lit " ") (lit "sda1")).
  - intros a' H. apply (f_equal (@rev ascii)) in H.
    rewrite rev_app_distr in H. vm_compute in H. discriminate H.
  - reflexivity.
  - reflexivity.
Defined.

End SafetyMore.

(** ** More on the executor *)

Module ExecutorMore.

Import Executor.

(** *** The pipe check of [validate_syntax] *)

Definition pipe : ascii := "|"%char.

Definition starts_with_pipe (s : str) : bool :=
  match s with c :: _ => ascii_eqb pipe c | [] => false end.

Lemma startswith_pair c s :
  startswith (c :: s) (lit "||") = ascii_eqb pipe c && starts_with_pipe s.
Proof.
  destruct s as [|d s].
  - cbn. now rewrite andb_false_r.
  - change (startswith (c :: d :: s) (lit "||"))
      with (ascii_eqb pipe c && (ascii_eqb pipe d && true)).
    now rewrite andb_true_r.
Qed.

Lemma contains_pair_cons c s :
  contains (lit "||") (c :: s)
  = (ascii_eqb pipe c && starts_with_pipe s) || contains (lit "||") s.
Proof.
  change (contains (lit "||") (c :: s))
    with (startswith (c :: s) (lit "||") || contains (lit "||") s).
  now rewrite startswith_pair.
Qed.

(** What is left after removing every [||] holds no [||]. *)
Lemma removed_pairs_stay_removed : forall s,
  contains (lit "||") (replace_from (lit "||") [] 0 s) = false
  /\ contains (lit "||") (replace_from (lit "||") [] 1 s) = false
  /\ (starts_with_pipe s = false ->
      starts_with_pipe (replace_from (lit "||") [] 0 s) = false).
Proof.
  induction s as [|c s [IH0 [IH1 IHh]]].
  - repeat split.
  - assert (E1 : replace_from (lit "||") [] 1 (c :: s)
                 = replace_from (lit "||") [] 0 s) by reflexivity.
    assert (E0 : replace_from (lit "||") [] 0 (c :: s)
                 = if ascii_eqb pipe c && starts_with_pipe s
                   then replace_from (lit "||") [] 1 s
                   else c :: replace_from (lit "||") [] 0 s).
    { cbn [replace_from]. rewrite startswith_pair. reflexivity. }
    rewrite E1, E0. split; [|split; [exact IH0|]].
    + destruct (ascii_eqb pipe c) eqn:Ec; cbn [andb].
      * destruct (starts_with_pipe s) eqn:Es; [exact IH1|].
        rewrite contains_pair_cons, Ec, (IHh eq_refl), IH0. reflexivity.
      * rewrite contains_pair_cons, Ec, IH0. reflexivity.
    + cbn [starts_with_pipe]. intros Hc. rewrite Hc. cbn [andb starts_with_pipe].
      exact Hc.
Qed.

Lemma pipe_check_never_fires c :
  contains (lit "||") (replace (lit "||") [] c) = false.
Proof. apply removed_pairs_stay_removed. Qed.

(** The check ['||' in c.replace('||', '')] rejects nothing: a command
    passes [validate_syntax] exactly when it is not blank and its stripped
    text has an even number of each quote character, as many opening as
    closing parentheses, brackets and braces, does not start with [|],
    [>] or [<], does not end with [|], and is split by [shlex]. *)
Theorem validate_syntax_accepts :
  forall command : str,
    validate_syntax command = true
    <-> blank command = false
        /\ (let c := strip command in
            Nat.even (count_char Shlex.dquote c) = true
            /\ Nat.even (count_char Shlex.squote c) = true
            /\ count_char "("%char c = count_char ")"%char c
            /\ count_char "["%char c = count_char "]"%char c
            /\ count_char "{"%char c = count_char "}"%char c
            /\ startswith c (lit "|") = false
            /\ endswith c (lit "|") = false
            /\ startswith c (lit ">") = false
            /\ startswith c (lit "<") = false
            /\ exists parts, Shlex.split c = Shlex.Tokens parts).
Proof.
  intros command. unfold validate_syntax.
  destruct (blank command); [split; [discriminate | intros [H _]; discriminate]|].
  set (c := strip command). cbn [invalid_patterns existsb].
  rewrite pipe_check_never_fires.
  assert (Heven : forall n, negb (n mod 2 =? 0) = negb (Nat.even n)).
  { intros n. f_equal. destruct (Nat.even n) eqn:E.
    - apply Nat.even_spec in E. destruct E as [k ->].
      apply Nat.eqb_eq. rewrite Nat.mul_comm. apply Nat.Div0.mod_mul.
    - apply Nat.eqb_neq. intros H. apply Nat.Div0.mod_divides in H.
      destruct H as [k ->]. rewrite Nat.even_mul in E. discriminate. }
  rewrite !Heven.
  destruct (Nat.even (count_char Shlex.dquote c));
    [|split; [discriminate | intros [_ [H _]]; discriminate]].
  destruct (Nat.even (count_char Shlex.squote c));
    [|split; [discriminate | intros [_ [_ [H _]]]; discriminate]].
  cbn [negb orb].
  destruct (count_char "("%char c =? count_char ")"%char c) eqn:E1;
    [apply Nat.eqb_eq in E1
    |apply Nat.eqb_neq in E1; split; [discriminate | intros H; exfalso; tauto]].
  destruct (count_char "["%char c =? count_char "]"%char c) eqn:E2;
    [apply Nat.eqb_eq in E2
    |apply Nat.eqb_neq in E2; split; [discriminate | intros H; exfalso; tauto]].
  destruct (count_char "{"%char c =? count_char "}"%char c) eqn:E3;
    [apply Nat.eqb_eq in E3
    |apply Nat.eqb_neq in E3; split; [discriminate | intros H; exfalso; tauto]].
  cbn [negb orb].
  destruct (startswith c (lit "|"));
    [split; [discriminate | intros H; exfalso; intuition discriminate]|].
  destruct (endswith c (lit "|"));
    [split; [discriminate | intros H; exfalso; intuition discriminate]|].
  destruct (startswith c (lit ">"));
    [split; [discriminate | intros H; exfalso; intuition discriminate]|].
  destruct (startswith c (lit "<"));
    [split; [discriminate | intros H; exfalso; intuition discriminate]|].
  cbn [orb]. destruct (Shlex.split c) as [parts|message].
  - split; [|reflexivity]. intros _. repeat split; auto. now exists parts.
  - split; [discriminate|]. intros [_ [_ [_ [_ [_ [_ [_ [_ [_ [_ [p H]]]]]]]]]]].
    discriminate H.
Qed.

(** *** Surrounding whitespace *)

Lemma lstrip_keeps s :
  match s with c :: _ => isspace c = false | [] => True end -> lstrip s = s.
Proof. destruct s as [|c s]; simpl; [reflexivity|]. now intros ->. Qed.

Lemma lstrip_lstrip s : lstrip (lstrip s) = lstrip s.
Proof.
  apply lstrip_keeps. destruct (lstrip s) as [|c t] eqn:E; [exact I|].
  exact (@lstrip_head s c t E).
Qed.

Lemma strip_strip s : strip (strip s) = strip s.
Proof.
  unfold strip, rstrip.
  set (t := lstrip s). set (v := lstrip (rev t)).
  assert (Hl : lstrip (rev v) = rev v).
  { destruct (lstrip_suffix (rev t)) as [a [E Ha]]. fold v in E.
    assert (Et : t = rev v ++ rev a).
    { rewrite <- rev_app_distr, <- E. now rewrite rev_involutive. }
    apply lstrip_keeps. destruct (rev v) as [|c u] eqn:Eu; [exact I|].
    unfold t in Et. simpl in Et. exact (@lstrip_head s c _ Et). }
  rewrite Hl, rev_involutive. unfold v at 1. now rewrite lstrip_lstrip.
Qed.

Lemma blank_strip s : blank (strip s) = blank s.
Proof.
  unfold blank. rewrite strip_strip. destruct s as [|c s].
  - reflexivity.
  - cbn [truthy negb orb]. now rewrite orb_diag.
Qed.

(** Validation does not depend on whitespace around the command. *)
Theorem validate_syntax_ignores_margins :
  forall command : str,
    validate_syntax (strip command) = validate_syntax command.
Proof.
  intros command. unfold validate_syntax.
  now rewrite blank_strip, strip_strip.
Qed.

(** *** Directory changes *)

(** [_execute_cd] changes the working directory only by entering a path
    for which [os.path.isdir] holds, and then to what [os.getcwd()]
    reports; in every other case the exit code is 1 and the working
    directory is as before. *)
Theorem cd_enters_only_directories :
  forall (os : OS) (clk : Clock) (wd cmd : str),
    (exit_code (fst (_execute_cd os clk wd cmd)) = 0%Z
     /\ exists target,
          isdir os target = true
          /\ chdir os target = Entered (snd (_execute_cd os clk wd cmd)))
    \/ (exit_code (fst (_execute_cd os clk wd cmd)) = 1%Z
        /\ snd (_execute_cd os clk wd cmd) = wd).
Proof.
  intros os clk wd cmd. unfold _execute_cd.
  destruct (Shlex.split cmd) as [parts|message]; [|right; split; reflexivity].
  match goal with
  | |- context [if isdir os ?t then _ else _] =>
      destruct (isdir os t) eqn:Edir; [|right; split; reflexivity];
      destruct (chdir os t) as [cwd|tn message] eqn:Ech;
      [left; split; [reflexivity | exists t; split; [exact Edir | exact Ech]]
      |right; split; reflexivity]
  end.
Qed.

(** *** set_working_directory *)

Lemma normpath_absolute p :
  Posixpath.isabs p = true -> Posixpath.isabs (Posixpath.normpath p) = true.
Proof.
  unfold Posixpath.isabs, Posixpath.normpath. intros H.
  destruct p as [|c p]; [discriminate|]. cbn [truthy negb]. rewrite H.
  destruct (startswith (c :: p) [Posixpath.sep; Posixpath.sep]
            && negb (startswith (c :: p)
                       [Posixpath.sep; Posixpath.sep; Posixpath.sep]));
    reflexivity.
Qed.

Lemma join_absolute a b :
  Posixpath.isabs a = true -> Posixpath.isabs (Posixpath.join a b) = true.
Proof.
  unfold Posixpath.join, Posixpath.isabs. intros H.
  destruct (startswith b [Posixpath.sep]) eqn:E; [exact E|].
  destruct a as [|c a]; [discriminate|].
  destruct (negb (truthy (c :: a)) || endswith (c :: a) [Posixpath.sep]);
    exact H.
Qed.

(** [set_working_directory] refuses what is not a directory with a
    [ValueError] and leaves the working directory as it was; otherwise
    the working directory becomes an absolute path (the process's current
    directory being absolute). *)
Theorem set_working_directory_absolute :
  forall (os : OS) (getcwd wd directory : str),
    Posixpath.isabs getcwd = true ->
    (isdir os directory = false ->
     exists message,
       ExecutorState.set_working_directory os getcwd wd directory
       = (ExecutorState.RaisesValueError message, wd))
    /\ (isdir os directory = true ->
        exists wd',
          ExecutorState.set_working_directory os getcwd wd directory
          = (ExecutorState.Done, wd')
          /\ Posixpath.isabs wd' = true
          /\ (Posixpath.isabs directory = true ->
              wd' = Posixpath.normpath directory)).
Proof.
  intros os getcwd wd directory Hcwd.
  unfold ExecutorState.set_working_directory. split.
  - intros ->. eexists. reflexivity.
  - intros ->. eexists. split; [reflexivity|]. unfold ExecutorState.abspath.
    destruct (Posixpath.isabs directory) eqn:E; cbn [negb].
    + split; [now apply normpath_absolute | reflexivity].
    + split; [|discriminate]. apply normpath_absolute.
      now apply join_absolute.
Qed.

Lemma set_working_directory_witness :
  (isdir os_home (lit "/home/u/Work") = false ->
   exists message,
     ExecutorState.set_working_directory os_home (lit "/home/u") (lit "/")
       (lit "/home/u/Work")
     = (ExecutorState.RaisesValueError message, lit "/"))
  /\ (isdir os_home (lit "/home/u/Work") = true ->
      exists wd',
        ExecutorState.set_working_directory os_home (lit "/home/u") (lit "/")
          (lit "/home/u/Work")
        = (ExecutorState.Done, wd')
        /\ Posixpath.isabs wd' = true
        /\ (Posixpath.isabs (lit "/home/u/Work") = true ->
            wd' = Posixpath.normpath (lit "/home/u/Work"))).
Proof.
  apply (set_working_directory_absolute os_home (lit "/home/u") (lit "/")
           (lit "/home/u/Work")).
  reflexivity.
Defined.

End ExecutorMore.

(** ** The path corrector: where corrections come from *)

Module CorrectorMore.

Import Corrector.

(** How the loop may turn the token [part] into [part']. *)
Definition replaces (fs : FS) (cutoff : Q) (wd : str) (files : list str)
  (part part' : str) : Prop :=
  part' = part
  \/ (startswith part (lit "-") = false
      /\ In part' files
      /\ (lower part' = lower part
          \/ (path_exists fs (Posixpath.join wd part) = false
              /\ (cutoff <= Difflib.ratio part' part)%Q))).

(** A listed entry passes every threshold of [get_close_matches]. *)
Definition candidate (cutoff : Q) (word x : str) : bool :=
  Qle_bool cutoff (Difflib.real_quick_ratio x word)
  && Qle_bool cutoff (Difflib.quick_ratio x word)
  && Qle_bool cutoff (Difflib.ratio x word).

Lemma find_case_lower target : forall options m,
  _find_case_insensitive target options = Some m -> lower m = lower target.
Proof.
  induction options as [|opt rest IH]; intros m; simpl; [discriminate|].
  destruct (str_eqb (lower opt) (lower target)) eqn:E.
  - intros H; injection H as <-. now apply str_eqb_eq.
  - apply IH.
Qed.

Lemma found_spec target options m :
  found (_find_case_insensitive target options) = Some m ->
  In m options /\ lower m = lower target.
Proof.
  intros H. split; [exact (CorrectorFacts.found_in target options H)|].
  unfold found in H.
  destruct (_find_case_insensitive target options) as [x|] eqn:E;
    [|discriminate].
  destruct (truthy x); [|discriminate].
  injection H as <-. exact (find_case_lower target options x E).
Qed.

Lemma close_enough_scored word possibilities cutoff p :
  In p (Difflib.close_enough word possibilities cutoff) ->
  In (snd p) possibilities
  /\ fst p = Difflib.ratio (snd p) word
  /\ candidate cutoff word (snd p) = true.
Proof.
  unfold Difflib.close_enough. intros H.
  apply in_flat_map in H as [x [Hx H]]. fold (candidate cutoff word x) in H.
  destruct (candidate cutoff word x) eqn:E; [|destruct H].
  destruct H as [<- | []]. simpl. auto.
Qed.

Lemma close_enough_complete word possibilities cutoff x :
  In x possibilities -> candidate cutoff word x = true ->
  In (Difflib.ratio x word, x) (Difflib.close_enough word possibilities cutoff).
Proof.
  intros Hx Hc. unfold Difflib.close_enough. apply in_flat_map.
  exists x. split; [exact Hx|]. fold (candidate cutoff word x).
  rewrite Hc. now left.
Qed.

Lemma max_scored_greatest : forall rest cur y,
  In y (cur :: rest) ->
  (fst y <= fst (Difflib.max_scored cur rest))%Q.
Proof.
  induction rest as [|z rest IH]; intros cur y Hy.
  - destruct Hy as [<- | []]. simpl. apply Qle_refl.
  - cbn [Difflib.max_scored].
    assert (Hstep : (fst cur <= fst (if Difflib.scored_ltb cur z then z else cur))%Q
                    /\ (fst z <= fst (if Difflib.scored_ltb cur z then z else cur))%Q).
    { destruct (Difflib.scored_ltb cur z) eqn:E; unfold Difflib.scored_ltb in E.
      - split; [|apply Qle_refl].
        apply orb_true_iff in E as [E | E].
        + apply negb_true_iff in E.
          destruct (Qlt_le_dec (fst cur) (fst z)) as [H | H];
            [now apply Qlt_le_weak|].
          apply Qle_bool_iff in H. congruence.
        + apply andb_true_iff in E as [E _]. apply Qeq_bool_iff in E.
          rewrite E. apply Qle_refl.
      - split; [apply Qle_refl|].
        apply orb_false_iff in E as [E _]. apply negb_false_iff in E.
        now apply Qle_bool_iff. }
    destruct Hstep as [Hc Hz].
    destruct Hy as [<- | [<- | Hy]].
    + eapply Qle_trans; [exact Hc|]. apply IH. now left.
    + eapply Qle_trans; [exact Hz|]. apply IH. now left.
    + apply IH. now right.
Qed.

(** What [get_close_matches] hands back: nothing when no entry is a
    candidate, else one candidate that no other candidate beats. *)
Lemma get_close_matches_spec word possibilities cutoff matches :
  Difflib.get_close_matches word possibilities cutoff = Some matches ->
  (matches = []
   /\ forall x, In x possibilities -> candidate cutoff word x = false)
  \/ (exists best,
        matches = [best] /\ In best possibilities
        /\ candidate cutoff word best = true
        /\ forall x, In x possibilities -> candidate cutoff word x = true ->
                     (Difflib.ratio x word <= Difflib.ratio best word)%Q).
Proof.
  unfold Difflib.get_close_matches.
  destruct (negb (Qle_bool 0 cutoff && Qle_bool cutoff 1)); [discriminate|].
  destruct (Difflib.close_enough word possibilities cutoff) as [|first rest]
    eqn:E; intros H; injection H as <-.
  - left. split; [reflexivity|]. intros x Hx.
    destruct (candidate cutoff word x) eqn:Ec; [|reflexivity].
    pose proof (close_enough_complete word possibilities cutoff x Hx Ec) as Hin.
    rewrite E in Hin. destruct Hin.
  - right. exists (snd (Difflib.max_scored first rest)).
    pose proof (@DifflibFacts.max_scored_in rest first) as Hin.
    rewrite <- E in Hin.
    destruct (close_enough_scored word possibilities cutoff _ Hin)
      as [Hp [Hs Hc]].
    refine (conj eq_refl (conj Hp (conj Hc _))).
    intros x Hx Hcx. rewrite <- Hs.
    pose proof (close_enough_complete word possibilities cutoff x Hx Hcx) as Hy.
    rewrite E in Hy.
    exact (max_scored_greatest rest first (Difflib.ratio x word, x) Hy).
Qed.

Lemma candidate_ratio cutoff word x :
  candidate cutoff word x = true -> (cutoff <= Difflib.ratio x word)%Q.
Proof.
  unfold candidate. intros H. apply andb_true_iff in H as [_ H].
  now apply Qle_bool_iff.
Qed.

Lemma correct_part_replaces fs cutoff wd files part part' changed :
  correct_part fs cutoff wd files part = Some (part', changed) ->
  replaces fs cutoff wd files part part'.
Proof.
  unfold correct_part, replaces. intros H.
  destruct (startswith part (lit "-")) eqn:Eflag.
  { injection H as <- _. now left. }
  destruct (path_exists fs (Posixpath.join wd part)) eqn:Eex.
  - destruct (str_in part files).
    { injection H as <- _. now left. }
    destruct (negb (contains [Posixpath.sep] part)
              && negb (contains (lit "/") part)).
    + destruct (found (_find_case_insensitive part files)) as [m|] eqn:Ef.
      * injection H as <- _. destruct (found_spec part files _ Ef) as [Hin Hl].
        right. auto.
      * injection H as <- _. now left.
    + injection H as <- _. now left.
  - destruct (Difflib.get_close_matches part files cutoff) as [matches|] eqn:Eg;
      [|discriminate].
    destruct (get_close_matches_spec part files cutoff _ Eg)
      as [[-> _] | [best [-> [Hin [Hc _]]]]].
    + destruct (found (_find_case_insensitive part files)) as [m|] eqn:Ef.
      * injection H as <- _. destruct (found_spec part files _ Ef) as [Hm Hl].
        right. auto.
      * injection H as <- _. now left.
    + destruct (found (_find_case_insensitive part files)) as [m|] eqn:Ef.
      * injection H as <- _. destruct (found_spec part files _ Ef) as [Hm Hl].
        right. auto.
      * injection H as <- _. right.
        refine (conj eq_refl (conj Hin (or_intror (conj eq_refl _)))).
        now apply candidate_ratio.
Qed.

Lemma correct_parts_replace fs cutoff wd files :
  forall parts acc modified acc' modified',
    correct_parts fs cutoff wd files parts acc modified
    = Some (acc', modified') ->
    exists parts',
      acc' = acc ++ parts'
      /\ Forall2 (replaces fs cutoff wd files) parts parts'.
Proof.
  induction parts as [|part rest IH]; intros acc modified acc' modified' H;
    simpl in H.
  - injection H as <- _. exists []. now rewrite app_nil_r.
  - destruct (correct_part fs cutoff wd files part) as [[part' changed]|] eqn:E;
      [|discriminate].
    apply correct_part_replaces in E.
    apply IH in H as [parts' [-> HF]].
    exists (part' :: parts'). rewrite <- app_assoc. split; [reflexivity|].
    now constructor.
Qed.

(** A command that [correct_paths] rewrites keeps its command word and
    its number of tokens.  Each token is either kept, or it was not a
    flag and is replaced by an entry that [os.listdir] reports for the
    working directory: one that differs from it only in case, or, for a
    path that does not exist, one whose similarity to it reaches the
    cutoff. *)
Theorem corrections_come_from_listing :
  forall (fs : FS) (cutoff : Q) (command wd corrected : str),
    correct_paths fs cutoff command wd = Returns corrected ->
    corrected <> command ->
    exists first rest rest' files,
      Shlex.split command = Shlex.Tokens (first :: rest)
      /\ listdir fs wd = Listed files
      /\ corrected = Shlex.join (first :: rest')
      /\ Forall2 (replaces fs cutoff wd files) rest rest'.
Proof.
  intros fs cutoff command wd corrected H Hne. unfold correct_paths in H.
  destruct (contains (lit "|") command || contains (lit ">") command
            || contains (lit "&&") command).
  { injection H as <-. now destruct Hne. }
  destruct (Shlex.split command) as [[|first rest]|message] eqn:Es.
  1, 3: injection H as <-; now destruct Hne.
  destruct (listdir fs wd) as [files| |message] eqn:El; [| |discriminate].
  2: { injection H as <-. now destruct Hne. }
  destruct (correct_parts fs cutoff wd files rest [first] false)
    as [[cp modified]|] eqn:Ec; [|discriminate].
  destruct (correct_parts_replace fs cutoff wd files rest [first] false _ _ Ec)
    as [rest' [-> HF]].
  destruct modified.
  2: { injection H as <-. now destruct Hne. }
  injection H as <-. exists first, rest, rest', files. auto.
Qed.

Lemma corrections_witness :
  exists first rest rest' files,
    Shlex.split (lit "cat data.tx") = Shlex.Tokens (first :: rest)
    /\ listdir with_data (lit "/proj") = Listed files
    /\ lit "cat data.txt" = Shlex.join (first :: rest')
    /\ Forall2 (replaces with_data default_cutoff (lit "/proj") files)
         rest rest'.
Proof.
  apply (corrections_come_from_listing with_data default_cutoff
           (lit "cat data.tx") (lit "/proj") (lit "cat data.txt")).
  - vm_compute. reflexivity.
  - intros H. vm_compute in H. discriminate H.
Defined.

(** *** The cutoff *)

Lemma correct_part_in_range fs cutoff wd files part :
  Qle_bool 0 cutoff && Qle_bool cutoff 1 = true ->
  exists r, correct_part fs cutoff wd files part = Some r.
Proof.
  intros Hc. unfold correct_part.
  destruct (startswith part (lit "-")); [eauto|].
  destruct (path_exists fs (Posixpath.join wd part)).
  - destruct (str_in part files); [eauto|].
    destruct (negb (contains [Posixpath.sep] part)
              && negb (contains (lit "/") part)); [|eauto].
    destruct (found (_find_case_insensitive part files)); eauto.
  - unfold Difflib.get_close_matches. rewrite Hc. cbn [negb].
    destruct (Difflib.close_enough part files cutoff);
      destruct (found (_find_case_insensitive part files)); eauto.
Qed.

Lemma correct_parts_in_range fs cutoff wd files :
  Qle_bool 0 cutoff && Qle_bool cutoff 1 = true ->
  forall parts acc modified,
    exists r, correct_parts fs cutoff wd files parts acc modified = Some r.
Proof.
  intros Hc. induction parts as [|part rest IH]; intros acc modified; simpl.
  - eauto.
  - destruct (correct_part_in_range fs cutoff wd files part Hc) as [[part' changed] ->].
    apply IH.
Qed.

(** With a cutoff between 0 and 1, [correct_paths] raises in one case
    only: the command holds none of [|], [>], [&&], splits into at least
    one token, and [os.listdir] raises a [ValueError] for the working
    directory (a path holding NUL), which the handler for [OSError] lets
    through; the exception raised is that one.  In every other case it
    returns a command. *)
Theorem correct_paths_returns_in_range :
  forall (fs : FS) (cutoff : Q) (command wd : str),
    (0 <= cutoff)%Q -> (cutoff <= 1)%Q ->
    (forall message,
        correct_paths fs cutoff command wd = Raises message
        <-> (contains (lit "|") command || contains (lit ">") command
             || contains (lit "&&") command = false
             /\ (exists first rest,
                    Shlex.split command = Shlex.Tokens (first :: rest))
             /\ listdir fs wd = RaisesValueError message))
    /\ ((forall message, listdir fs wd <> RaisesValueError message) ->
        exists corrected, correct_paths fs cutoff command wd = Returns corrected).
Proof.
  intros fs cutoff command wd H0 H1.
  assert (Hc : Qle_bool 0 cutoff && Qle_bool cutoff 1 = true).
  { apply andb_true_iff. split; now apply Qle_bool_iff. }
  unfold correct_paths. split.
  - intros message. split.
    + destruct (contains (lit "|") command || contains (lit ">") command
                || contains (lit "&&") command); [discriminate|].
      destruct (Shlex.split command) as [[|first rest]|m]; try discriminate.
      destruct (listdir fs wd) as [files| |m]; [|discriminate|].
      * destruct (correct_parts_in_range fs cutoff wd files Hc rest [first]
                    false) as [[cp modified] ->].
        destruct modified; discriminate.
      * intros H. injection H as <-. eauto.
    + intros [-> [[first [rest ->]] ->]]. reflexivity.
  - intros Hl.
    destruct (contains (lit "|") command || contains (lit ">") command
              || contains (lit "&&") command); [eauto|].
    destruct (Shlex.split command) as [[|first rest]|m]; eauto.
    destruct (listdir fs wd) as [files| |m] eqn:El;
      [|eauto | now destruct (Hl m)].
    destruct (correct_parts_in_range fs cutoff wd files Hc rest [first] false)
      as [[cp modified] ->].
    destruct modified; eauto.
Qed.

(** In a working directory whose path holds NUL the call raises; in
    [/proj] it returns. *)
Lemma correct_paths_returns_witness :
  (forall message,
      correct_paths with_dangling_link default_cutoff (lit "cat lnk")
                    (lit "/pro" ++ [zero] ++ lit "j") = Raises message
      <-> (contains (lit "|") (lit "cat lnk")
           || contains (lit ">") (lit "cat lnk")
           || contains (lit "&&") (lit "cat lnk") = false
           /\ (exists first rest,
                  Shlex.split (lit "cat lnk") = Shlex.Tokens (first :: rest))
           /\ listdir with_dangling_link (lit "/pro" ++ [zero] ++ lit "j")
              = RaisesValueError message))
  /\ ((forall message,
         listdir with_dangling_link (lit "/pro" ++ [zero] ++ lit "j")
         <> RaisesValueError message) ->
      exists corrected,
        correct_paths with_dangling_link default_cutoff (lit "cat lnk")
                      (lit "/pro" ++ [zero] ++ lit "j") = Returns corrected).
Proof.
  apply (correct_paths_returns_in_range with_dangling_link default_cutoff
           (lit "cat lnk") (lit "/pro" ++ [zero] ++ lit "j")).
  - vm_compute. discriminate.
  - vm_compute. discriminate.
Defined.

Example correct_paths_in_a_nul_directory :
  correct_paths with_dangling_link default_cutoff (lit "cat lnk")
                (lit "/pro" ++ [zero] ++ lit "j")
  = Raises (lit "embedded null byte")
  /\ correct_paths with_dangling_link default_cutoff (lit "cat lnk")
                   (lit "/proj")
     = Returns (lit "cat link")
  /\ correct_paths with_dangling_link default_cutoff (lit "cat lnk")
                   (lit "/elsewhere")
     = Returns (lit "cat lnk").
Proof. repeat split; vm_compute; reflexivity. Qed.

(** *** Commands that need no correction *)

Lemma correct_parts_untouched fs cutoff wd files : forall parts acc modified,
  Forall (fun part =>
            startswith part (lit "-") = true
            \/ (path_exists fs (Posixpath.join wd part) = true
                /\ (In part files \/ contains (lit "/") part = true)))
         parts ->
  correct_parts fs cutoff wd files parts acc modified
  = Some (acc ++ parts, modified).
Proof.
  induction parts as [|part rest IH]; intros acc modified HF; simpl.
  - now rewrite app_nil_r.
  - inversion HF as [|p r Hp Hr]; subst.
    assert (E : correct_part fs cutoff wd files part = Some (part, false)).
    { unfold correct_part. destruct Hp as [-> | [Hex Hp]]; [reflexivity|].
      destruct (startswith part (lit "-")); [reflexivity|]. rewrite Hex.
      destruct (str_in part files) eqn:Ein; [reflexivity|].
      destruct Hp as [Hp | Hp].
      - apply str_in_iff in Hp. congruence.
      - rewrite Hp, andb_false_r. reflexivity. }
    rewrite E, (IH _ _ Hr), orb_false_r, <- app_assoc. reflexivity.
Qed.

(** A command is handed back exactly as typed, with its own spacing and
    quoting, when each argument is a flag or a path that exists and is
    either listed in the working directory under that very name or holds
    a slash. *)
Theorem existing_arguments_untouched :
  forall (fs : FS) (cutoff : Q) (command wd first : str)
         (rest files : list str),
    Shlex.split command = Shlex.Tokens (first :: rest) ->
    listdir fs wd = Listed files ->
    Forall (fun part =>
              startswith part (lit "-") = true
              \/ (path_exists fs (Posixpath.join wd part) = true
                  /\ (In part files \/ contains (lit "/") part = true)))
           rest ->
    correct_paths fs cutoff command wd = Returns command.
Proof.
  intros fs cutoff command wd first rest files Es El HF. unfold correct_paths.
  rewrite Es, El, (correct_parts_untouched fs cutoff wd files rest _ _ HF).
  destruct (contains (lit "|") command || contains (lit ">") command
            || contains (lit "&&") command); reflexivity.
Qed.

Lemma existing_arguments_witness :
  correct_paths with_data default_cutoff (lit "wc  -l 'data.txt'") (lit "/proj")
  = Returns (lit "wc  -l 'data.txt'").
Proof.
  apply (existing_arguments_untouched with_data default_cutoff
           (lit "wc  -l 'data.txt'") (lit "/proj") (lit "wc")
           [lit "-l"; lit "data.txt"] [lit "data.txt"]).
  - vm_compute. reflexivity.
  - vm_compute. reflexivity.
  - apply Forall_cons; [left; reflexivity|].
    apply Forall_cons; [|apply Forall_nil].
    right. split; [vm_compute; reflexivity | left; now left].
Defined.

(** *** The closest entry *)

(** For a command that holds none of [|], [>], [&&] and splits into a
    command word and one argument, with a cutoff between 0 and 1, where
    the argument is no flag, names no existing path and matches no
    listed entry up to case: if some listed entry passes the thresholds
    of [get_close_matches], the argument is replaced by such an entry,
    and no entry that passes them is more similar to the argument than
    the one chosen. *)
Theorem closest_entry_is_chosen :
  forall (fs : FS) (cutoff : Q) (command wd first part : str)
         (files : list str) (x : str),
    contains (lit "|") command || contains (lit ">") command
    || contains (lit "&&") command = false ->
    Shlex.split command = Shlex.Tokens [first; part] ->
    listdir fs wd = Listed files ->
    startswith part (lit "-") = false ->
    path_exists fs (Posixpath.join wd part) = false ->
    (forall f, In f files -> lower f <> lower part) ->
    (0 <= cutoff)%Q -> (cutoff <= 1)%Q ->
    In x files -> candidate cutoff part x = true ->
    exists best,
      correct_paths fs cutoff command wd = Returns (Shlex.join [first; best])
      /\ In best files
      /\ candidate cutoff part best = true
      /\ forall f, In f files -> candidate cutoff part f = true ->
                   (Difflib.ratio f part <= Difflib.ratio best part)%Q.
Proof.
  intros fs cutoff command wd first part files x Hg Es El Hflag Hex Hcase
    H0 H1 Hx Hcx.
  assert (Hnone : found (_find_case_insensitive part files) = None).
  { destruct (found (_find_case_insensitive part files)) as [m|] eqn:Ef;
      [|reflexivity].
    destruct (found_spec part files _ Ef) as [Hm Hl]. now destruct (Hcase m Hm). }
  assert (Hc : Qle_bool 0 cutoff && Qle_bool cutoff 1 = true).
  { apply andb_true_iff. split; now apply Qle_bool_iff. }
  destruct (Difflib.get_close_matches part files cutoff) as [matches|] eqn:Eg.
  2: { unfold Difflib.get_close_matches in Eg. rewrite Hc in Eg.
       cbn [negb] in Eg.
       destruct (Difflib.close_enough part files cutoff); discriminate. }
  destruct (get_close_matches_spec part files cutoff _ Eg)
    as [[_ Hno] | [best [-> [Hin [Hcb Hbest]]]]].
  { rewrite (Hno x Hx) in Hcx. discriminate. }
  exists best. refine (conj _ (conj Hin (conj Hcb Hbest))).
  unfold correct_paths. rewrite Hg, Es, El.
  cbn [correct_parts]. unfold correct_part. rewrite Hflag, Hex, Eg, Hnone.
  reflexivity.
Qed.

Lemma closest_entry_witness :
  exists best,
    correct_paths with_several default_cutoff (lit "cat data.tx") (lit "/proj")
    = Returns (Shlex.join [lit "cat"; best])
    /\ In best [lit "data.csv"; lit "notes.md"; lit "date.txt";
                lit "data.txt"]
    /\ candidate default_cutoff (lit "data.tx") best = true
    /\ forall f, In f [lit "data.csv"; lit "notes.md"; lit "date.txt";
                       lit "data.txt"] ->
                 candidate default_cutoff (lit "data.tx") f = true ->
                 (Difflib.ratio f (lit "data.tx")
                  <= Difflib.ratio best (lit "data.tx"))%Q.
Proof.
  apply (closest_entry_is_chosen with_several default_cutoff
           (lit "cat data.tx") (lit "/proj") (lit "cat") (lit "data.tx")
           [lit "data.csv"; lit "notes.md"; lit "date.txt"; lit "data.txt"]
           (lit "date.txt")).
  - vm_compute. reflexivity.
  - vm_compute. reflexivity.
  - vm_compute. reflexivity.
  - vm_compute. reflexivity.
  - vm_compute. reflexivity.
  - intros f [<- | [<- | [<- | [<- | []]]]] H; vm_compute in H;
      discriminate H.
  - vm_compute. discriminate.
  - vm_compute. discriminate.
  - right. right. now left.
  - vm_compute. reflexivity.
Defined.

(** Of the four files, "data.csv", "date.txt" and "data.txt" pass the
    thresholds for "data.tx", with the ratios 2/3, 4/5 and 14/15, and
    the last is chosen. *)
Example closest_of_several :
  correct_paths with_several default_cutoff (lit "cat data.tx") (lit "/proj")
  = Returns (lit "cat data.txt")
  /\ map (candidate default_cutoff (lit "data.tx"))
         [lit "data.csv"; lit "notes.md"; lit "date.txt"; lit "data.txt"]
     = [true; false; true; true]
  /\ map (fun f => Qred (Difflib.ratio f (lit "data.tx")))
         [lit "data.csv"; lit "date.txt"; lit "data.txt"]
     = [(2 # 3)%Q; (4 # 5)%Q; (14 # 15)%Q].
Proof. repeat split; vm_compute; reflexivity. Qed.

(** *** Correcting twice *)

Lemma correct_paths_idempotent_witness :
  correct_paths with_data default_cutoff (lit "cat data.txt") (lit "/proj")
  = Returns (lit "cat data.txt")
  /\ (lit "cat data.txt" <> lit "cat data.tx" ->
      exists parts parts',
        Shlex.split (lit "cat data.tx") = Shlex.Tokens parts
        /\ lit "cat data.txt" = Shlex.join parts' /\ parts' <> parts).
Proof.
  apply (@CorrectorFacts.correct_paths_idempotent_when_entries_exist
           with_data default_cutoff (lit "cat data.tx") (lit "/proj")
           (lit "cat data.txt")).
  - intros files f Hl Hf. vm_compute in Hl. injection Hl as <-.
    destruct Hf as [<- | []]. vm_compute. reflexivity.
  - vm_compute. reflexivity.
Defined.

End CorrectorMore.

(** ** Ordering and limiting rows *)

Module SqlFacts.

Section OrderBy.

Variable A : Type.
Variable before : A -> A -> bool.

Definition stands_before (a b : A) : Prop := before a b = true.

Lemma place_perm x : forall l, Permutation (Sql.place before x l) (x :: l).
Proof.
  induction l as [|y l IH]; simpl; [reflexivity|].
  destruct (before x y); [reflexivity|].
  rewrite IH. apply perm_swap.
Qed.

Lemma order_by_perm : forall l, Permutation (Sql.order_by before l) l.
Proof.
  induction l as [|x l IH]; simpl; [reflexivity|].
  rewrite place_perm. now constructor.
Qed.

Lemma order_by_in x l : In x (Sql.order_by before l) <-> In x l.
Proof.
  split; apply Permutation_in;
    [apply order_by_perm | apply Permutation_sym, order_by_perm].
Qed.

(** A row later than every other one is the first of the result. *)
Lemma order_by_newest x : forall l,
  (forall y, In y l -> before y x = false) ->
  Sql.order_by before (l ++ [x]) = x :: Sql.order_by before l.
Proof.
  induction l as [|y l IH]; intros H; simpl; [reflexivity|].
  rewrite IH by (intros z Hz; apply H; now right).
  simpl. now rewrite (H y (or_introl eq_refl)).
Qed.

(** A table already in order comes back as it is. *)
Lemma order_by_fixed : forall l,
  Sorted stands_before l -> Sql.order_by before l = l.
Proof.
  induction l as [|x l IH]; intros H; simpl; [reflexivity|].
  inversion H as [|? ? Hl Hd]; subst. rewrite (IH Hl).
  destruct l as [|y l]; [reflexivity|].
  inversion Hd as [|? ? Hxy]; subst. simpl. now rewrite Hxy.
Qed.

Hypothesis before_total : forall a b, before a b = true \/ before b a = true.

Lemma place_sorted x : forall l,
  Sorted stands_before l -> Sorted stands_before (Sql.place before x l).
Proof.
  induction l as [|y l IH]; intros H; simpl.
  - repeat constructor.
  - destruct (before x y) eqn:E.
    + constructor; [exact H|]. now constructor.
    + inversion H as [|? ? Hl Hd]; subst. constructor; [now apply IH|].
      assert (Hyx : stands_before y x).
      { destruct (before_total x y) as [H1 | H1]; [congruence | exact H1]. }
      destruct l as [|z l]; simpl; [now constructor|].
      destruct (before x z); constructor; [exact Hyx|].
      now inversion Hd.
Qed.

Lemma order_by_sorted : forall l, Sorted stands_before (Sql.order_by before l).
Proof.
  induction l as [|x l IH]; simpl; [constructor|]. now apply place_sorted.
Qed.

Hypothesis before_trans :
  forall a b c, before a b = true -> before b c = true -> before a c = true.

Lemma order_by_strongly_sorted l :
  StronglySorted stands_before (Sql.order_by before l).
Proof.
  apply Sorted_StronglySorted; [|apply order_by_sorted].
  intros a b c. apply before_trans.
Qed.

Lemma strongly_sorted_app : forall a b : list A,
  StronglySorted stands_before (a ++ b) ->
  StronglySorted stands_before a
  /\ forall x y, In x a -> In y b -> stands_before x y.
Proof.
  induction a as [|h a IH]; intros b H; simpl in H.
  - split; [constructor | intros x y []].
  - inversion H as [|? ? Hs Hf]; subst. destruct (IH b Hs) as [Ha Hab].
    rewrite Forall_forall in Hf. split.
    + constructor; [exact Ha|]. apply Forall_forall. intros x Hx.
      apply Hf, in_or_app. now left.
    + intros x y [<- | Hx] Hy; [|now apply Hab].
      apply Hf, in_or_app. now right.
Qed.

(** [ORDER BY ... LIMIT ?]: the rows chosen are in order, and every row
    left out may stand after each of them; below zero the limit leaves
    nothing out. *)
Lemma top_rows (limit : Z) (l : list A) :
  exists rest,
    Permutation (Sql.limit_rows limit (Sql.order_by before l) ++ rest) l
    /\ StronglySorted stands_before
         (Sql.limit_rows limit (Sql.order_by before l))
    /\ (forall c r,
          In c (Sql.limit_rows limit (Sql.order_by before l)) ->
          In r rest -> stands_before c r)
    /\ ((limit < 0)%Z -> rest = [])
    /\ ((0 <= limit)%Z ->
        length (Sql.limit_rows limit (Sql.order_by before l))
        = Nat.min (Z.to_nat limit) (length l)).
Proof.
  pose proof (order_by_strongly_sorted l) as Hs.
  pose proof (order_by_perm l) as Hp.
  unfold Sql.limit_rows. destruct (limit <? 0)%Z eqn:E.
  - exists []. rewrite app_nil_r.
    refine (conj Hp (conj Hs (conj _ (conj (fun _ => eq_refl) _)))).
    + intros c r _ [].
    + apply Z.ltb_lt in E. lia.
  - exists (skipn (Z.to_nat limit) (Sql.order_by before l)).
    rewrite firstn_skipn.
    rewrite <- (firstn_skipn (Z.to_nat limit) (Sql.order_by before l)) in Hs.
    apply strongly_sorted_app in Hs as [Hs Hab].
    refine (conj Hp (conj Hs (conj Hab (conj _ _)))).
    + apply Z.ltb_ge in E. lia.
    + intros _. rewrite length_firstn, (Permutation_length Hp). reflexivity.
Qed.

End OrderBy.

Lemma limit_rows_in (A : Type) (limit : Z) (x : A) (l : list A) :
  In x (Sql.limit_rows limit l) -> In x l.
Proof.
  unfold Sql.limit_rows. destruct (limit <? 0)%Z; [auto|].
  apply HistoryFacts.In_firstn.
Qed.

End SqlFacts.

(** ** Rejected commands *)

Module RejectionsFacts.

Import Rejections.

Lemma rejection_order_total (a b : Rejection) :
  newest_first a b = true \/ newest_first b a = true.
Proof.
  unfold newest_first.
  destruct (History.GroupOrder.str_leb_total (timestamp a) (timestamp b));
    auto.
Qed.

Lemma rejection_order_trans (a b c : Rejection) :
  newest_first a b = true -> newest_first b c = true ->
  newest_first a c = true.
Proof.
  unfold newest_first. intros H1 H2.
  exact (@HistoryFacts.str_leb_trans _ _ _ H2 H1).
Qed.

(** *** A text is LIKE itself between two [%] *)

Lemma like_here_same : forall t : str, History.like_here t t = true.
Proof.
  induction t as [|c t IH]; [reflexivity|].
  destruct (ascii_eqb c History.percent) eqn:E.
  - apply ascii_eqb_eq in E. subst c. apply HistoryFacts.like_percent.
    exists [History.percent], t. auto.
  - cbn [History.like_here]. rewrite E, IH.
    replace (ascii_eqb (History.sql_fold c) (History.sql_fold c)) with true
      by (symmetry; now apply ascii_eqb_eq).
    now rewrite orb_true_r.
Qed.

Lemma like_here_open : forall t : str,
  History.like_here (t ++ [History.percent]) t = true.
Proof.
  induction t as [|c t IH]; [reflexivity|].
  destruct (ascii_eqb c History.percent) eqn:E.
  - apply ascii_eqb_eq in E. subst c.
    change ((History.percent :: t) ++ [History.percent])
      with (History.percent :: t ++ [History.percent]).
    apply HistoryFacts.like_percent. exists [History.percent], t. auto.
  - cbn [app History.like_here]. rewrite E, IH.
    replace (ascii_eqb (History.sql_fold c) (History.sql_fold c)) with true
      by (symmetry; now apply ascii_eqb_eq).
    now rewrite orb_true_r.
Qed.

Lemma c_text_open : forall s : str,
  History.c_text (s ++ [History.percent]) = History.c_text s
  \/ History.c_text (s ++ [History.percent])
     = History.c_text s ++ [History.percent].
Proof.
  induction s as [|c s IH]; simpl.
  - right. reflexivity.
  - destruct (code c =? 0); [now left|].
    destruct IH as [-> | ->]; [now left | now right].
Qed.

Lemma like_same (s : str) :
  History.like s (History.like_parameter s) = true.
Proof.
  unfold History.like, History.like_parameter.
  change (History.c_text ([History.percent] ++ s ++ [History.percent]))
    with (History.percent :: History.c_text (s ++ [History.percent])).
  apply HistoryFacts.like_percent. exists [], (History.c_text s).
  split; [reflexivity|].
  destruct (c_text_open s) as [-> | ->];
    [apply like_here_same | apply like_here_open].
Qed.

(** A rejection recorded later than the stored ones that are similar to
    the same input is the first that [get_rejections] hands back for
    this input under a positive limit of 64 bits, whatever characters
    the input holds. *)
Theorem latest_rejection_comes_first :
  forall (table : Table) (now_iso natural_language shell_command : str)
         (limit : Z),
    (forall r, In r (rows table) -> similar_to natural_language r = true ->
               str_ltb (timestamp r) now_iso = true) ->
    (0 < limit < 2 ^ 63)%Z ->
    exists older,
      get_rejections
        (snd (add_rejection table None now_iso natural_language shell_command))
        None natural_language limit
      = History.Returns (shell_command :: older).
Proof.
  intros table now_iso nl cmd limit Hlate Hlimit.
  unfold get_rejections, add_rejection. cbn [snd rows].
  replace (History.fits_int64 limit) with true.
  2: { symmetry. unfold History.fits_int64. apply andb_true_iff.
       split; [apply Z.leb_le | apply Z.ltb_lt]; lia. }
  cbn [negb].
  rewrite filter_app. cbn [filter].
  unfold similar_to at 2. cbn [Rejections.natural_language].
  rewrite like_same.
  rewrite SqlFacts.order_by_newest.
  - unfold Sql.limit_rows.
    replace (limit <? 0)%Z with false by (symmetry; apply Z.ltb_ge; lia).
    destruct (Z.to_nat limit) as [|n] eqn:E; [lia|].
    cbn [firstn map Rejections.shell_command]. eexists. reflexivity.
  - intros y Hy. apply filter_In in Hy as [Hy Hs].
    specialize (Hlate y Hy Hs). unfold str_ltb in Hlate.
    unfold newest_first. cbn [Rejections.timestamp].
    now apply negb_true_iff in Hlate.
Qed.

(** In the sample table two stored rejections are similar to
    "list files" and older than the new one; a third, for another input,
    is newer. *)
Lemma latest_rejection_witness :
  exists older,
    get_rejections
      (snd (add_rejection sample_table None
              (lit "2025-02-01T10:00:00") (lit "list files")
              (lit "ls -la")))
      None (lit "list files") 2
    = History.Returns (lit "ls -la" :: older).
Proof.
  apply (latest_rejection_comes_first sample_table
           (lit "2025-02-01T10:00:00") (lit "list files")
           (lit "ls -la") 2).
  - intros r [<- | [<- | [<- | []]]] H; vm_compute in H;
      first [discriminate H | vm_compute; reflexivity].
  - lia.
Defined.

Example latest_rejection_recalled :
  get_rejections
    (snd (add_rejection sample_table None
            (lit "2025-02-01T10:00:00") (lit "list files") (lit "ls -la")))
    None (lit "list files") 2
  = History.Returns [lit "ls -la"; lit "ls /tmp"].
Proof. vm_compute. reflexivity. Qed.

(** With a limit of 64 bits [get_rejections] hands back the commands of
    the newest rows whose input is LIKE the query, newest first: every
    matching row left out is no newer than each row chosen, nothing is
    left out under a negative limit, and a limit from zero on caps the
    number of rows.  A limit beyond 64 bits, which SQLite cannot take,
    raises [OverflowError], and a failing storage gives the empty
    list. *)
Theorem get_rejections_newest_first :
  forall (table : Table) (query : str) (limit : Z),
    ((- 2 ^ 63 <= limit < 2 ^ 63)%Z ->
     exists chosen rest,
       get_rejections table None query limit
       = History.Returns (map shell_command chosen)
       /\ Permutation (chosen ++ rest)
                      (filter (similar_to query) (rows table))
       /\ StronglySorted
            (fun a b => str_leb (timestamp b) (timestamp a) = true) chosen
       /\ (forall c r, In c chosen -> In r rest ->
                       str_leb (timestamp r) (timestamp c) = true)
       /\ ((limit < 0)%Z -> rest = [])
       /\ ((0 <= limit)%Z ->
           length chosen
           = Nat.min (Z.to_nat limit)
                     (length (filter (similar_to query) (rows table)))))
    /\ ((limit < - 2 ^ 63 \/ 2 ^ 63 <= limit)%Z ->
        get_rejections table None query limit
        = History.Raises (History.OverflowError History.too_large))
    /\ forall e, get_rejections table (Some e) query limit = History.Returns [].
Proof.
  intros table query limit. split; [|split; [|reflexivity]].
  - intros Hlimit.
    destruct (SqlFacts.top_rows Rejection newest_first rejection_order_total
                rejection_order_trans limit
                (filter (similar_to query) (rows table)))
      as [rest [Hp [Hs [Hab [Hneg Hlen]]]]].
    exists (Sql.limit_rows limit
              (Sql.order_by newest_first
                 (filter (similar_to query) (rows table)))), rest.
    refine (conj _ (conj Hp (conj Hs (conj Hab (conj Hneg Hlen))))).
    unfold get_rejections.
    replace (History.fits_int64 limit) with true; [reflexivity|].
    symmetry. unfold History.fits_int64. apply andb_true_iff.
    split; [apply Z.leb_le | apply Z.ltb_lt]; lia.
  - intros Hlimit. unfold get_rejections.
    replace (History.fits_int64 limit) with false; [reflexivity|].
    symmetry. unfold History.fits_int64. apply andb_false_iff.
    destruct Hlimit as [Hlimit | Hlimit];
      [left; apply Z.leb_gt | right; apply Z.ltb_ge]; lia.
Qed.

Example rejections_of_sample :
  get_rejections sample_table None (lit "LIST FILES") 1
  = History.Returns [lit "ls /tmp"]
  /\ get_rejections sample_table None (lit "LIST FILES") (-1)
     = History.Returns [lit "ls /tmp"; lit "ls"]
  /\ get_rejections sample_table None (lit "LIST FILES") (2 ^ 63)
     = History.Raises (History.OverflowError History.too_large).
Proof. repeat split; vm_compute; reflexivity. Qed.

(** [clear_rejections] deletes the rows stored for exactly this input,
    while [get_rejections] reads with LIKE: after clearing, the
    rejections recalled for the input without a cap (a negative limit
    of 64 bits) are those stored for other inputs that are LIKE it (a
    longer input, or one in other letter case). *)
Theorem clear_rejections_is_exact :
  forall (table : Table) (query : str) (limit : Z),
    (- 2 ^ 63 <= limit < 0)%Z ->
    exists found,
      get_rejections (clear_rejections table None query) None query limit
      = History.Returns found
      /\ forall cmd,
           In cmd found
           <-> exists r,
                 In r (rows table) /\ shell_command r = cmd
                 /\ similar_to query r = true /\ natural_language r <> query.
Proof.
  intros table query limit Hlimit.
  unfold get_rejections, clear_rejections, Sql.limit_rows. cbn [rows].
  replace (History.fits_int64 limit) with true.
  2: { symmetry. unfold History.fits_int64. apply andb_true_iff.
       split; [apply Z.leb_le | apply Z.ltb_lt]; lia. }
  cbn [negb].
  replace (limit <? 0)%Z with true by (symmetry; apply Z.ltb_lt; lia).
  eexists. split; [reflexivity|]. intros cmd.
  rewrite in_map_iff. split.
  - intros [r [Hc Hr]]. apply SqlFacts.order_by_in in Hr.
    apply filter_In in Hr as [Hr Hs]. apply filter_In in Hr as [Hr Hne].
    exists r. refine (conj Hr (conj Hc (conj Hs _))).
    intros E. apply negb_true_iff in Hne.
    apply str_eqb_eq in E. congruence.
  - intros [r [Hr [Hc [Hs Hne]]]]. exists r. split; [exact Hc|].
    apply SqlFacts.order_by_in. apply filter_In. split; [|exact Hs].
    apply filter_In. split; [exact Hr|]. apply negb_true_iff.
    destruct (str_eqb (natural_language r) query) eqn:E; [|reflexivity].
    apply str_eqb_eq in E. now destruct Hne.
Qed.

(** In the sample table "list files" is cleared; the rejection stored
    for "List Files in /tmp" is still recalled for it. *)
Lemma clear_rejections_witness :
  exists found,
    get_rejections (clear_rejections sample_table None (lit "list files"))
      None (lit "list files") (-1)
    = History.Returns found
    /\ forall cmd,
         In cmd found
         <-> exists r,
               In r (rows sample_table) /\ shell_command r = cmd
               /\ similar_to (lit "list files") r = true
               /\ natural_language r <> lit "list files".
Proof.
  apply (clear_rejections_is_exact sample_table (lit "list files") (-1)).
  lia.
Defined.

Example cleared_rejections_of_sample :
  get_rejections sample_table None (lit "list files") (-1)
  = History.Returns [lit "ls /tmp"; lit "ls"]
  /\ get_rejections (clear_rejections sample_table None (lit "list files"))
       None (lit "list files") (-1)
     = History.Returns [lit "ls /tmp"].
Proof. split; vm_compute; reflexivity. Qed.

End RejectionsFacts.

(** ** Preferences *)

Module PreferencesFacts.

Import Preferences.

Lemma find_after_replace (table : Table) (k other v : str) :
  find (has_key other)
       (filter (fun p => negb (has_key k p)) table
        ++ [ {| key := k; value := v |} ])
  = if str_eqb k other then Some {| key := k; value := v |}
    else find (has_key other) table.
Proof.
  unfold has_key. induction table as [|p table IH]; simpl.
  - destruct (str_eqb k other); reflexivity.
  - destruct (str_eqb (key p) k) eqn:Ek; simpl.
    + rewrite IH. apply str_eqb_eq in Ek. rewrite Ek.
      destruct (str_eqb k other); reflexivity.
    + rewrite IH. destruct (str_eqb (key p) other) eqn:Eo; [|reflexivity].
      destruct (str_eqb k other) eqn:E; [|reflexivity].
      apply str_eqb_eq in Eo, E. subst other.
      rewrite Eo, str_eqb_refl in Ek. discriminate.
Qed.

(** A preference that was set is the one read back, an empty value
    included, and setting it touches no other key.  With a failing
    storage, setting raises and changes nothing, and reading gives the
    default. *)
Theorem preference_set_then_get :
  forall (table : Table) (k v : str) (default : option str),
    get_preference (snd (set_preference table None k v)) None k default
    = Some v
    /\ (forall other,
          other <> k ->
          get_preference (snd (set_preference table None k v)) None other
            default
          = get_preference table None other default)
    /\ (forall e,
          snd (set_preference table (Some e) k v) = table
          /\ (exists message,
                fst (set_preference table (Some e) k v)
                = History.Raises (History.SqliteError message))
          /\ get_preference table (Some e) k default = default).
Proof.
  intros table k v default.
  unfold get_preference, set_preference. cbn [fst snd].
  refine (conj _ (conj _ _)).
  - rewrite find_after_replace, str_eqb_refl. reflexivity.
  - intros other Hne. rewrite find_after_replace.
    destruct (str_eqb k other) eqn:E; [|reflexivity].
    apply str_eqb_eq in E. now destruct Hne.
  - intros e. refine (conj eq_refl (conj _ eq_refl)). eexists. reflexivity.
Qed.

End PreferencesFacts.

(** ** Aliases *)

Module AliasesFacts.

Import Aliases.

(** The invariant of the table: names are unique (the primary key), and
    no name or command is empty. *)
Definition well_formed (table : Table) : Prop :=
  NoDup (map name table)
  /\ forall a, In a table -> name a <> [] /\ command a <> [].

Lemma find_after_add (table : Table) (n other c t : str) :
  find (has_name other)
       (filter (fun a => negb (has_name n a)) table
        ++ [ {| name := n; command := c; created_at := t |} ])
  = if str_eqb n other
    then Some {| name := n; command := c; created_at := t |}
    else find (has_name other) table.
Proof.
  unfold has_name. induction table as [|a table IH]; simpl.
  - destruct (str_eqb n other); reflexivity.
  - destruct (str_eqb (name a) n) eqn:En; simpl.
    + rewrite IH. apply str_eqb_eq in En. rewrite En.
      destruct (str_eqb n other); reflexivity.
    + rewrite IH. destruct (str_eqb (name a) other) eqn:Eo; [|reflexivity].
      destruct (str_eqb n other) eqn:E; [|reflexivity].
      apply str_eqb_eq in Eo, E. subst other.
      rewrite Eo, str_eqb_refl in En. discriminate.
Qed.

Lemma find_after_remove (table : Table) (n other : str) :
  find (has_name other) (filter (fun a => negb (has_name n a)) table)
  = if str_eqb n other then None else find (has_name other) table.
Proof.
  unfold has_name. induction table as [|a table IH]; simpl.
  - destruct (str_eqb n other); reflexivity.
  - destruct (str_eqb (name a) n) eqn:En; simpl.
    + rewrite IH. apply str_eqb_eq in En. rewrite En.
      destruct (str_eqb n other); reflexivity.
    + rewrite IH. destruct (str_eqb (name a) other) eqn:Eo; [|reflexivity].
      destruct (str_eqb n other) eqn:E; [|reflexivity].
      apply str_eqb_eq in Eo, E. subst other.
      rewrite Eo, str_eqb_refl in En. discriminate.
Qed.

Lemma truthy_iff (s : str) : truthy s = true <-> s <> [].
Proof. destruct s; simpl; split; congruence. Qed.

(** An alias that was added with a name and a command that are not
    empty is what [get_alias] hands back under its name, whether the
    name was new or had an alias before; the table then holds one row
    for the name, and no other name is touched.  The name is taken as
    given: an alias is found again only under exactly the same text. *)
Theorem alias_add_then_get :
  forall (table : Table) (now_iso n c : str),
    n <> [] -> c <> [] ->
    fst (add_alias table None now_iso n c) = History.Returns tt
    /\ get_alias (snd (add_alias table None now_iso n c)) None n = Some c
    /\ filter (has_name n) (snd (add_alias table None now_iso n c))
       = [ {| name := n; command := c; created_at := now_iso |} ]
    /\ forall other,
         other <> n ->
         get_alias (snd (add_alias table None now_iso n c)) None other
         = get_alias table None other.
Proof.
  intros table now_iso n c Hn Hc.
  apply truthy_iff in Hn. apply truthy_iff in Hc.
  unfold get_alias, add_alias. rewrite Hn, Hc. cbn [negb orb fst snd].
  rewrite find_after_add, str_eqb_refl. cbn [option_map command].
  refine (conj eq_refl (conj eq_refl (conj _ _))).
  - rewrite filter_app. cbn [filter]. unfold has_name at 3. cbn [name].
    rewrite str_eqb_refl.
    assert (E : filter (has_name n)
                  (filter (fun a => negb (has_name n a)) table) = []).
    { induction table as [|a table IH]; [reflexivity|]. cbn [filter].
      destruct (has_name n a) eqn:Ea; cbn [negb filter]; [exact IH|].
      rewrite Ea. exact IH. }
    rewrite E. reflexivity.
  - intros other Hne. rewrite find_after_add.
    destruct (str_eqb n other) eqn:E; [|reflexivity].
    apply str_eqb_eq in E. now destruct Hne.
Qed.

(** In the sample table "ll" stands for "ls -l"; adding it anew
    replaces the row. *)
Lemma alias_add_witness :
  fst (add_alias sample_table None (lit "2025-01-03T10:00:00") (lit "ll")
         (lit "ls -la"))
  = History.Returns tt
  /\ get_alias
       (snd (add_alias sample_table None (lit "2025-01-03T10:00:00")
               (lit "ll") (lit "ls -la")))
       None (lit "ll")
     = Some (lit "ls -la")
  /\ filter (has_name (lit "ll"))
       (snd (add_alias sample_table None (lit "2025-01-03T10:00:00")
               (lit "ll") (lit "ls -la")))
     = [ {| name := lit "ll"; command := lit "ls -la";
            created_at := lit "2025-01-03T10:00:00" |} ]
  /\ forall other,
       other <> lit "ll" ->
       get_alias
         (snd (add_alias sample_table None (lit "2025-01-03T10:00:00")
                 (lit "ll") (lit "ls -la")))
         None other
       = get_alias sample_table None other.
Proof.
  apply (alias_add_then_get sample_table (lit "2025-01-03T10:00:00")
           (lit "ll") (lit "ls -la")).
  - discriminate.
  - discriminate.
Defined.

Example alias_replaced :
  get_alias sample_table None (lit "ll") = Some (lit "ls -l")
  /\ map name
       (snd (add_alias sample_table None (lit "2025-01-03T10:00:00")
               (lit "ll") (lit "ls -la")))
     = [lit "gs"; lit "ll"].
Proof. split; vm_compute; reflexivity. Qed.

(** [remove_alias] answers [True] exactly when the name had an alias;
    afterwards the name has none, and every other name keeps its own. *)
Theorem remove_alias_reports :
  forall (table : Table) (n : str),
    (fst (remove_alias table None n) = true
     <-> exists c, get_alias table None n = Some c)
    /\ get_alias (snd (remove_alias table None n)) None n = None
    /\ (forall other,
          other <> n ->
          get_alias (snd (remove_alias table None n)) None other
          = get_alias table None other)
    /\ forall e, remove_alias table (Some e) n = (false, table).
Proof.
  intros table n. unfold remove_alias, get_alias. cbn [fst snd].
  refine (conj _ (conj _ (conj _ (fun _ => eq_refl)))).
  - induction table as [|a table IH]; simpl.
    + split; [discriminate | intros [c H]; discriminate].
    + destruct (has_name n a); simpl.
      * split; [intros _; eexists; reflexivity | reflexivity].
      * exact IH.
  - rewrite find_after_remove, str_eqb_refl. reflexivity.
  - intros other Hne. rewrite find_after_remove.
    destruct (str_eqb n other) eqn:E; [|reflexivity].
    apply str_eqb_eq in E. now destruct Hne.
Qed.

(** *** The invariant *)

Lemma filter_keeps_names (table : Table) (f : Alias -> bool) :
  NoDup (map name table) -> NoDup (map name (filter f table)).
Proof.
  induction table as [|a table IH]; simpl; [auto|].
  intros H. inversion H as [|? ? Ha Ht]; subst.
  destruct (f a); simpl; [|now apply IH].
  constructor; [|now apply IH].
  intros Hin. apply Ha. apply in_map_iff in Hin as [b [Hb Hin]].
  apply in_map_iff. exists b. split; [exact Hb|].
  now apply filter_In in Hin.
Qed.

(** Adding and removing aliases keeps the table well formed, whether
    the call succeeds, is refused or meets a failing storage: names
    stay unique, and no alias has an empty name or an empty command. *)
Theorem aliases_stay_well_formed :
  forall (table : Table) (fault : option str) (now_iso n c : str),
    well_formed table ->
    well_formed (snd (add_alias table fault now_iso n c))
    /\ well_formed (snd (remove_alias table fault n)).
Proof.
  intros table fault now_iso n c [Hnd Hne]. split.
  - unfold add_alias.
    destruct (negb (truthy n) || negb (truthy c)) eqn:Ev;
      [split; assumption|].
    destruct fault as [e|]; [split; assumption|].
    apply orb_false_iff in Ev as [En Ec].
    apply negb_false_iff in En, Ec. apply truthy_iff in En, Ec.
    cbn [snd]. split.
    + rewrite map_app. cbn [map name].
      apply NoDup_app; [| repeat constructor; intros [] |].
      * now apply filter_keeps_names.
      * intros x Hx [<- | []].
        apply in_map_iff in Hx as [a [Ha Hx]].
        apply filter_In in Hx as [_ Hx]. apply negb_true_iff in Hx.
        unfold has_name in Hx. rewrite Ha, str_eqb_refl in Hx. discriminate.
    + intros a Ha. apply in_app_or in Ha as [Ha | [<- | []]].
      * apply Hne. now apply filter_In in Ha.
      * cbn [name command]. auto.
  - unfold remove_alias. destruct fault as [e|]; [split; assumption|].
    cbn [snd]. split; [now apply filter_keeps_names|].
    intros a Ha. apply Hne. now apply filter_In in Ha.
Qed.

Lemma sample_table_well_formed : well_formed sample_table.
Proof.
  split.
  - constructor; [intros [H | []]; vm_compute in H; discriminate H|].
    constructor; [intros [] | constructor].
  - intros a [<- | [<- | []]]; split; discriminate.
Qed.

(** On the sample table: "ll" is added a second time, which replaces
    its row, and is removed. *)
Lemma aliases_well_formed_witness :
  well_formed
    (snd (add_alias sample_table None (lit "2025-01-03T10:00:00") (lit "ll")
            (lit "ls -la")))
  /\ well_formed (snd (remove_alias sample_table None (lit "ll"))).
Proof.
  apply (aliases_stay_well_formed sample_table None
           (lit "2025-01-03T10:00:00") (lit "ll") (lit "ls -la")).
  split.
  - constructor; [intros [H | []]; vm_compute in H; discriminate H|].
    constructor; [intros [] | constructor].
  - intros a [<- | [<- | []]]; split; discriminate.
Defined.

(** *** Listing *)

Lemma by_name_total (a b : Alias) : by_name a b = true \/ by_name b a = true.
Proof. apply History.GroupOrder.str_leb_total. Qed.

Lemma by_name_trans (a b c : Alias) :
  by_name a b = true -> by_name b c = true -> by_name a c = true.
Proof. unfold by_name. apply HistoryFacts.str_leb_trans. Qed.

Lemma code_injective (x y : ascii) : code x = code y -> x = y.
Proof.
  unfold code. intros H.
  rewrite <- (ascii_nat_embedding x), <- (ascii_nat_embedding y).
  now rewrite H.
Qed.

Lemma str_leb_antisym : forall a b : str,
  str_leb a b = true -> str_leb b a = true -> a = b.
Proof.
  induction a as [|x a IH]; intros [|y b]; simpl; try congruence.
  rewrite !orb_true_iff, !andb_true_iff, !Nat.ltb_lt, !Nat.eqb_eq.
  intros [H1 | [H1 H1']] [H2 | [H2 H2']]; try lia.
  f_equal; [now apply code_injective | now apply IH].
Qed.

Lemma find_unique (table : Table) (n : str) (a : Alias) :
  NoDup (map name table) ->
  (find (has_name n) table = Some a <-> In a table /\ name a = n).
Proof.
  induction table as [|b table IH]; simpl; intros Hnd.
  - split; [discriminate | intros [[] _]].
  - inversion Hnd as [|? ? Hb Ht]; subst. unfold has_name at 1.
    destruct (str_eqb (name b) n) eqn:E.
    + apply str_eqb_eq in E. split.
      * intros H; injection H as <-. auto.
      * intros [[<- | Ha] Hn]; [reflexivity|].
        destruct Hb. apply in_map_iff. exists a. split; [congruence | exact Ha].
    + rewrite (IH Ht). split.
      * intros [Ha Hn]. auto.
      * intros [[<- | Ha] Hn]; [|auto].
        apply str_eqb_eq in Hn. congruence.
Qed.

(** In a well-formed table [list_aliases] gives the pairs in strictly
    rising order of their names, and a pair is listed exactly when
    [get_alias] gives its command for its name. *)
Theorem list_aliases_sorted_and_complete :
  forall table : Table,
    well_formed table ->
    StronglySorted (fun p q => str_ltb (fst p) (fst q) = true)
                   (list_aliases table None)
    /\ forall n c,
         In (n, c) (list_aliases table None)
         <-> get_alias table None n = Some c.
Proof.
  intros table [Hnd _]. unfold list_aliases, get_alias. split.
  - pose proof (SqlFacts.order_by_strongly_sorted Alias by_name by_name_total
                  by_name_trans table) as Hs.
    assert (Hnd' : NoDup (map name (Sql.order_by by_name table))).
    { eapply Permutation_NoDup; [|exact Hnd].
      apply Permutation_map, Permutation_sym, SqlFacts.order_by_perm. }
    induction Hs as [|a l Hs IH Hf]; simpl; constructor.
    + apply IH. now inversion Hnd'.
    + apply Forall_forall. intros p Hp.
      apply in_map_iff in Hp as [b [<- Hb]]. cbn [fst].
      rewrite Forall_forall in Hf. specialize (Hf b Hb).
      unfold SqlFacts.stands_before, by_name in Hf.
      unfold str_ltb. apply negb_true_iff.
      destruct (str_leb (name b) (name a)) eqn:E; [|reflexivity].
      simpl in Hnd'. inversion Hnd' as [|? ? Ha _]; subst.
      destruct Ha. rewrite (str_leb_antisym _ _ Hf E).
      now apply in_map.
  - intros n c. rewrite in_map_iff. split.
    + intros [a [E Ha]]. injection E as <- <-.
      apply SqlFacts.order_by_in in Ha.
      replace (find (has_name (name a)) table) with (Some a); [reflexivity|].
      symmetry. apply find_unique; auto.
    + destruct (find (has_name n) table) as [a|] eqn:E; [|discriminate].
      intros H; injection H as <-.
      apply find_unique in E as [Ha <-]; [|exact Hnd].
      exists a. split; [reflexivity|]. now apply SqlFacts.order_by_in.
Qed.

Lemma list_aliases_witness :
  StronglySorted (fun p q => str_ltb (fst p) (fst q) = true)
    (list_aliases
       [ {| name := lit "ll"; command := lit "ls -la"; created_at := lit "t" |};
         {| name := lit "gs"; command := lit "git status";
            created_at := lit "t" |} ]
       None)
  /\ forall n c,
       In (n, c)
          (list_aliases
             [ {| name := lit "ll"; command := lit "ls -la";
                  created_at := lit "t" |};
               {| name := lit "gs"; command := lit "git status";
                  created_at := lit "t" |} ]
             None)
       <-> get_alias
             [ {| name := lit "ll"; command := lit "ls -la";
                  created_at := lit "t" |};
               {| name := lit "gs"; command := lit "git status";
                  created_at := lit "t" |} ]
             None n
           = Some c.
Proof.
  apply (list_aliases_sorted_and_complete
           [ {| name := lit "ll"; command := lit "ls -la";
                created_at := lit "t" |};
             {| name := lit "gs"; command := lit "git status";
                created_at := lit "t" |} ]).
  split.
  - repeat constructor; simpl; intros H; vm_compute in H;
      repeat (destruct H as [H | H]; try discriminate H); exact H.
  - intros a [<- | [<- | []]]; split; discriminate.
Defined.

End AliasesFacts.

(** ** Recent commands and the commands of a directory *)

Module HistoryQueriesFacts.

Import History HistoryQueries.

Lemma newest_first_total (a b : HistoryEntry) :
  newest_first a b = true \/ newest_first b a = true.
Proof.
  unfold newest_first.
  destruct (GroupOrder.str_leb_total (timestamp a) (timestamp b)); auto.
Qed.

Lemma newest_first_trans (a b c : HistoryEntry) :
  newest_first a b = true -> newest_first b c = true ->
  newest_first a c = true.
Proof.
  unfold newest_first. intros H1 H2.
  exact (@HistoryFacts.str_leb_trans _ _ _ H2 H1).
Qed.

(** With a positive limit of 64 bits and readable timestamps,
    [get_recent_commands] returns the newest rows of the history,
    newest first: as many as the limit allows, every row left out being
    no newer than each row returned.  A limit of zero or less is refused
    before the storage is touched, and a limit beyond 64 bits, which
    SQLite cannot take, ends in [RuntimeError]. *)
Theorem recent_commands_newest_first :
  forall (store : Store) (fromisoformat : str -> bool)
         (error_text : str -> str) (limit : Z),
    (0 < limit < 2 ^ 63)%Z ->
    (forall r, In r (rows store) -> fromisoformat (timestamp r) = true) ->
    (exists found rest,
        get_recent_commands store None fromisoformat error_text limit
        = Returns found
        /\ Permutation (found ++ rest) (rows store)
        /\ StronglySorted
             (fun a b => str_leb (timestamp b) (timestamp a) = true) found
        /\ (forall c r, In c found -> In r rest ->
                        str_leb (timestamp r) (timestamp c) = true)
        /\ length found = Nat.min (Z.to_nat limit) (length (rows store)))
    /\ (forall bad fault,
          (bad <= 0)%Z ->
          get_recent_commands store fault fromisoformat error_text bad
          = Raises (ValueError (lit "limit must be positive")))
    /\ forall big,
         (2 ^ 63 <= big)%Z ->
         exists message,
           get_recent_commands store None fromisoformat error_text big
           = Raises (RuntimeError message).
Proof.
  intros store fromisoformat error_text limit Hlimit Hiso.
  split; [|split].
  - destruct (SqlFacts.top_rows HistoryEntry newest_first newest_first_total
                newest_first_trans limit (rows store))
      as [rest [Hp [Hs [Hab [_ Hlen]]]]].
    exists (recent_query store limit), rest.
    refine (conj _ (conj Hp (conj Hs (conj Hab _)))).
    + unfold get_recent_commands.
      replace (limit <=? 0)%Z with false by (symmetry; apply Z.leb_gt; lia).
      replace (fits_int64 limit) with true.
      2: { symmetry. unfold fits_int64. apply andb_true_iff.
           split; [apply Z.leb_le | apply Z.ltb_lt]; lia. }
      cbn [negb]. cbv zeta. rewrite HistoryFacts.readable_all; [reflexivity|].
      intros r Hr. apply Hiso. unfold recent_query in Hr.
      apply SqlFacts.limit_rows_in in Hr.
      now apply SqlFacts.order_by_in in Hr.
    + apply Hlen. lia.
  - intros bad fault Hbad. unfold get_recent_commands.
    replace (bad <=? 0)%Z with true by (symmetry; now apply Z.leb_le).
    reflexivity.
  - intros big Hbig. unfold get_recent_commands.
    replace (big <=? 0)%Z with false by (symmetry; apply Z.leb_gt; lia).
    replace (fits_int64 big) with false.
    2: { symmetry. unfold fits_int64. apply andb_false_iff. right.
         apply Z.ltb_ge. lia. }
    cbn [negb]. eexists. reflexivity.
Qed.

(** The two newest of the six commands of the sample history. *)
Lemma recent_commands_witness :
  (exists found rest,
      get_recent_commands sample_history None reads_dates (fun ts => ts) 2
      = Returns found
      /\ Permutation (found ++ rest) (rows sample_history)
      /\ StronglySorted
           (fun a b => str_leb (timestamp b) (timestamp a) = true) found
      /\ (forall c r, In c found -> In r rest ->
                      str_leb (timestamp r) (timestamp c) = true)
      /\ length found = Nat.min (Z.to_nat 2) (length (rows sample_history)))
  /\ (forall bad fault,
        (bad <= 0)%Z ->
        get_recent_commands sample_history fault reads_dates (fun ts => ts) bad
        = Raises (ValueError (lit "limit must be positive")))
  /\ forall big,
       (2 ^ 63 <= big)%Z ->
       exists message,
         get_recent_commands sample_history None reads_dates (fun ts => ts) big
         = Raises (RuntimeError message).
Proof.
  apply (recent_commands_newest_first sample_history reads_dates
           (fun ts => ts) 2).
  - lia.
  - intros r [<- | [<- | [<- | [<- | [<- | [<- | []]]]]]]; reflexivity.
Defined.

Example recent_of_sample :
  option_map (map id)
    (match get_recent_commands sample_history None reads_dates (fun ts => ts) 2
     with
     | Returns found => Some found
     | Raises _ => None
     end)
  = Some [6%Z; 5%Z].
Proof. vm_compute. reflexivity. Qed.

(** *** The commands of a directory *)

Lemma directory_result_is_group store directory limit e :
  In e (directory_query store directory limit) ->
  exists g,
    In g (group_by_command (filter (run_in directory) (rows store)))
    /\ row g = e.
Proof.
  unfold directory_query. intros H. apply SqlFacts.limit_rows_in in H.
  apply in_map_iff in H as [g [Hg H]]. exists g. split; [|exact Hg].
  eapply Permutation_in; [apply Permutation_sym, GroupSort.Permuted_sort|].
  exact H.
Qed.

(** With a positive limit of 64 bits and readable timestamps,
    [get_directory_suggestions] returns rows of the history that were
    run in exactly the directory asked for, one for each command, which
    is the latest run of this command there; the rows stand in falling
    order of the number of runs there and, at equal numbers, of the
    time of the last run; there are at most [limit] of them; and the
    command of every row run in the directory is among them, unless
    there are [limit] results and each of them may stand before that
    row in the order. *)
Theorem directory_suggestions_ranked :
  forall (store : Store) (fromisoformat : str -> bool)
         (error_text : str -> str) (directory : str) (limit : Z),
    (0 < limit < 2 ^ 63)%Z ->
    (forall r, In r (rows store) -> fromisoformat (timestamp r) = true) ->
    exists results,
      get_directory_suggestions store None fromisoformat error_text
        directory limit
      = Returns results
      /\ (forall e, In e results ->
                    In e (rows store) /\ working_directory e = directory)
      /\ NoDup (map shell_command results)
      /\ (forall e r, In e results -> In r (rows store) ->
                      working_directory r = directory ->
                      shell_command r = shell_command e ->
                      str_leb (timestamp r) (timestamp e) = true)
      /\ LocallySorted (ranked_in store directory) results
      /\ (Z.of_nat (length results) <= limit)%Z
      /\ (forall r, In r (rows store) -> working_directory r = directory ->
                    (exists e, In e results
                               /\ shell_command e = shell_command r)
                    \/ (Z.of_nat (length results) = limit
                        /\ forall e, In e results ->
                                     ranked_in store directory e r)).
Proof.
  intros store fromisoformat error_text directory limit Hlimit Hiso.
  unfold get_directory_suggestions.
  replace (limit <=? 0)%Z with false by (symmetry; apply Z.leb_gt; lia).
  replace (fits_int64 limit) with true.
  2: { symmetry. unfold fits_int64. apply andb_true_iff.
       split; [apply Z.leb_le | apply Z.ltb_lt]; lia. }
  cbn [negb]. cbv zeta.
  assert (Hin : forall e,
             In e (directory_query store directory limit) ->
             In e (rows store) /\ working_directory e = directory).
  { intros e He. apply directory_result_is_group in He as [g [Hg <-]].
    apply HistoryFacts.group_spec in Hg as [Hg _].
    apply filter_In in Hg as [Hg Hd]. split; [exact Hg|].
    now apply str_eqb_eq in Hd. }
  rewrite HistoryFacts.readable_all
    by (intros r Hr; apply Hiso; now apply Hin).
  eexists. split; [reflexivity|].
  assert (Hcut : directory_query store directory limit
                 = firstn (Z.to_nat limit)
                     (map row (GroupSort.sort
                        (group_by_command
                           (filter (run_in directory) (rows store)))))).
  { unfold directory_query, Sql.limit_rows.
    replace (limit <? 0)%Z with false by (symmetry; apply Z.ltb_ge; lia).
    reflexivity. }
  assert (Hgroup : forall g,
             In g (group_by_command (filter (run_in directory) (rows store))) ->
             frequency g = runs_in store directory (row g)
             /\ last_used g = timestamp (row g)).
  { intros g Hg.
    apply HistoryFacts.group_spec in Hg as [_ [Hf [Hu _]]].
    split; [exact Hf | exact Hu]. }
  assert (Hsorted : forall g,
             In g (GroupSort.sort
                     (group_by_command
                        (filter (run_in directory) (rows store)))) ->
             In g (group_by_command (filter (run_in directory) (rows store)))).
  { intros g Hg. eapply Permutation_in;
      [apply Permutation_sym, GroupSort.Permuted_sort | exact Hg]. }
  refine (conj Hin (conj _ (conj _ (conj _ (conj _ _))))).
  - rewrite Hcut, <- firstn_map. apply HistoryFacts.NoDup_firstn.
    rewrite map_map.
    eapply Permutation_NoDup;
      [apply Permutation_map, GroupSort.Permuted_sort|].
    apply HistoryFacts.group_commands_distinct.
  - intros e r He Hr Hd Hc.
    apply directory_result_is_group in He as [g [Hg <-]].
    apply HistoryFacts.group_spec in Hg as [_ [_ [_ Hg]]].
    apply Hg; [|exact Hc]. apply filter_In. split; [exact Hr|].
    now apply str_eqb_eq.
  - rewrite Hcut. apply HistoryFacts.LocallySorted_firstn.
    eapply HistoryFacts.LocallySorted_map;
      [apply GroupSort.LocallySorted_sort|].
    intros a b Ha Hb Hab.
    destruct (Hgroup a (Hsorted a Ha)) as [Hfa Hua].
    destruct (Hgroup b (Hsorted b Hb)) as [Hfb Hub].
    unfold is_true, GroupOrder.leb in Hab. rewrite Hfa, Hfb, Hua, Hub in Hab.
    apply orb_true_iff in Hab as [Hab | Hab].
    + left. now apply Nat.ltb_lt.
    + apply andb_true_iff in Hab as [Hab1 Hab2]. right.
      split; [now apply Nat.eqb_eq | exact Hab2].
  - rewrite Hcut.
    pose proof (firstn_le_length (Z.to_nat limit)
                  (map row (GroupSort.sort
                     (group_by_command
                        (filter (run_in directory) (rows store)))))) as H.
    lia.
  - rewrite Hcut. intros r Hr Hd.
    assert (Hrin : In r (filter (run_in directory) (rows store))).
    { apply filter_In. split; [exact Hr|]. now apply str_eqb_eq. }
    destruct (@HistoryFacts.group_complete _ r Hrin) as [g [Hgin Hc]].
    rewrite firstn_map.
    destruct (@HistoryFacts.cut_keeps_the_best
                (group_by_command (filter (run_in directory) (rows store)))
                (Z.to_nat limit) g Hgin) as [Hk | [Hlen Hbest]].
    + left. exists (row g). split; [now apply in_map | exact Hc].
    + right. split; [rewrite length_map, Hlen; lia|].
      intros e He. apply in_map_iff in He as [g' [<- Hg']].
      specialize (Hbest g' Hg').
      destruct (Hgroup g Hgin) as [Hfg Hug].
      destruct (Hgroup g' (Hsorted g' (@HistoryFacts.In_firstn _ g' _ _ Hg')))
        as [Hfg' Hug'].
      assert (Hruns : runs_in store directory (row g)
                      = runs_in store directory r).
      { unfold runs_in. now rewrite Hc. }
      assert (Hts : str_leb (timestamp r) (timestamp (row g)) = true).
      { apply HistoryFacts.group_spec in Hgin as [_ [_ [_ Hlate]]].
        apply Hlate; [exact Hrin | now symmetry]. }
      unfold GroupOrder.leb in Hbest.
      rewrite Hfg, Hfg', Hug, Hug', Hruns in Hbest.
      apply orb_true_iff in Hbest as [Hbest | Hbest].
      * left. now apply Nat.ltb_lt.
      * apply andb_true_iff in Hbest as [Hb1 Hb2]. right.
        split; [now apply Nat.eqb_eq|].
        exact (@HistoryFacts.str_leb_trans _ _ _ Hts Hb2).
Qed.

(** The sample history holds five runs in [/proj], of four commands;
    the limit 2 leaves two commands out. *)
Lemma directory_suggestions_witness :
  exists results,
    get_directory_suggestions sample_history None reads_dates (fun ts => ts)
      (lit "/proj") 2
    = Returns results
    /\ (forall e, In e results ->
                  In e (rows sample_history)
                  /\ working_directory e = lit "/proj")
    /\ NoDup (map shell_command results)
    /\ (forall e r, In e results -> In r (rows sample_history) ->
                    working_directory r = lit "/proj" ->
                    shell_command r = shell_command e ->
                    str_leb (timestamp r) (timestamp e) = true)
    /\ LocallySorted (ranked_in sample_history (lit "/proj")) results
    /\ (Z.of_nat (length results) <= 2)%Z
    /\ (forall r, In r (rows sample_history) ->
                  working_directory r = lit "/proj" ->
                  (exists e, In e results
                             /\ shell_command e = shell_command r)
                  \/ (Z.of_nat (length results) = 2%Z
                      /\ forall e, In e results ->
                                   ranked_in sample_history (lit "/proj")
                                     e r)).
Proof.
  apply (directory_suggestions_ranked sample_history reads_dates
           (fun ts => ts) (lit "/proj") 2).
  - lia.
  - intros r [<- | [<- | [<- | [<- | [<- | [<- | []]]]]]]; reflexivity.
Defined.

Example directory_of_sample :
  option_map (map (fun e => (id e, shell_command e)))
    (match get_directory_suggestions sample_history None reads_dates
             (fun ts => ts) (lit "/proj") 2
     with
     | Returns found => Some found
     | Raises _ => None
     end)
  = Some [(6%Z, lit "ls"); (5%Z, lit "ls -S")].
Proof. vm_compute. reflexivity. Qed.

End HistoryQueriesFacts.

(** ** The stored rituals *)

Module RitualStoreFacts.

Import RitualStore.

Lemma inserted_ritual_id (rid : Z) : forall steps last i s,
  In s (insert_steps rid last i steps) -> ritual_id s = rid.
Proof.
  induction steps as [|cmd rest IH]; intros last i s; simpl; [intros []|].
  intros [<- | H]; [reflexivity | now apply IH in H].
Qed.

Lemma inserted_kept (rid : Z) (steps : list str) (last i : Z) :
  filter (step_of rid) (insert_steps rid last i steps)
  = insert_steps rid last i steps.
Proof.
  apply forallb_filter_id, forallb_forall. intros s Hs.
  apply inserted_ritual_id in Hs. unfold step_of. now apply Z.eqb_eq.
Qed.

Lemma inserted_dropped (rid other : Z) : forall steps last i,
  other <> rid ->
  filter (step_of other) (insert_steps rid last i steps) = [].
Proof.
  induction steps as [|cmd rest IH]; intros last i Hne; simpl; [reflexivity|].
  unfold step_of at 1. cbn [ritual_id].
  replace (rid =? other)%Z with false
    by (symmetry; apply Z.eqb_neq; congruence).
  now apply IH.
Qed.

Lemma inserted_in_order (rid : Z) : forall steps last i,
  Sorted (SqlFacts.stands_before StepRow by_sequence)
         (insert_steps rid last i steps).
Proof.
  induction steps as [|cmd rest IH]; intros last i; simpl; constructor.
  - apply IH.
  - destruct rest as [|cmd' rest]; simpl; constructor.
    unfold SqlFacts.stands_before, by_sequence. cbn [sequence_order].
    apply Z.leb_le. lia.
Qed.

Lemma inserted_numbered (rid : Z) : forall steps last i,
  map (fun r => Rituals.fresh_step (sequence_order r) (command r))
      (insert_steps rid last i steps)
  = numbered i steps.
Proof.
  induction steps as [|cmd rest IH]; intros last i; simpl; [reflexivity|].
  now rewrite IH.
Qed.

Lemma older_steps_dropped (steps : list StepRow) (last rid : Z) :
  (forall s, In s steps -> (ritual_id s <= last)%Z) ->
  (last < rid)%Z ->
  filter (step_of rid) steps = [].
Proof.
  intros Hall Hlt. induction steps as [|s l IH]; [reflexivity|]. simpl.
  unfold step_of at 1.
  pose proof (Hall s (or_introl eq_refl)) as Hs.
  replace (ritual_id s =? rid)%Z with false by (symmetry; apply Z.eqb_neq; lia).
  apply IH. intros x Hx. apply Hall. now right.
Qed.

Lemma find_new_row (rows : list RitualRow) (n other : str) (r : RitualRow) :
  name r = n ->
  existsb (has_name n) rows = false ->
  find (has_name other) (rows ++ [r])
  = if str_eqb n other then Some r else find (has_name other) rows.
Proof.
  intros Hr. unfold has_name. induction rows as [|x rows IH]; simpl.
  - intros _. rewrite Hr. destruct (str_eqb n other); reflexivity.
  - intros H. apply orb_false_iff in H as [Hx H]. rewrite (IH H).
    destruct (str_eqb (name x) other) eqn:Eo; [|reflexivity].
    destruct (str_eqb n other) eqn:E; [|reflexivity].
    apply str_eqb_eq in Eo, E. subst other. rewrite Eo, str_eqb_refl in Hx.
    discriminate.
Qed.

Lemma absent_iff (db : Database) (n : str) :
  get_ritual db None n = None <-> existsb (has_name n) (rituals db) = false.
Proof.
  unfold get_ritual.
  destruct (find (has_name n) (rituals db)) as [r|] eqn:E.
  - apply find_some in E as [Hin Hn]. split; [discriminate|].
    intros H. assert (Ht : existsb (has_name n) (rituals db) = true).
    { apply existsb_exists. eauto. }
    congruence.
  - split; [|reflexivity]. intros _.
    destruct (existsb (has_name n) (rituals db)) eqn:Ex; [|reflexivity].
    apply existsb_exists in Ex as [r [Hin Hn]].
    now rewrite (find_none _ _ E r Hin) in Hn.
Qed.

Lemma find_in_rituals (rows : list RitualRow) (n : str) (r : RitualRow) :
  find (has_name n) rows = Some r -> In r rows.
Proof. intros H. now apply find_some in H. Qed.

(** What a successful [create_ritual] leaves in the store. *)
Lemma create_then_get (db : Database) (now_iso n d : str) (steps : list str) :
  consistent db -> n <> [] -> steps <> [] ->
  existsb (has_name n) (rituals db) = false ->
  fst (create_ritual db None now_iso n d steps) = History.Returns tt
  /\ get_ritual (snd (create_ritual db None now_iso n d steps)) None n
     = Some {| Rituals.id := (last_ritual_id db + 1)%Z;
               Rituals.name := n;
               Rituals.ritual_description := d;
               Rituals.steps := numbered 0 steps |}
  /\ forall other,
       other <> n ->
       get_ritual (snd (create_ritual db None now_iso n d steps)) None other
       = get_ritual db None other.
Proof.
  intros [Hr Hs] Hn Hsteps Hnew. unfold create_ritual.
  replace (truthy n) with true by (destruct n; [now destruct Hn | reflexivity]).
  replace (0 <? length steps) with true
    by (destruct steps; [now destruct Hsteps | reflexivity]).
  cbn [negb orb]. rewrite Hnew. cbn [fst snd].
  refine (conj eq_refl (conj _ _)).
  - unfold get_ritual. cbn [rituals ritual_steps].
    erewrite find_new_row; [|reflexivity | exact Hnew].
    rewrite str_eqb_refl.
    cbn [id name description]. rewrite filter_app, inserted_kept.
    rewrite (older_steps_dropped (ritual_steps db) (last_ritual_id db) _ Hs)
      by lia.
    cbn [app]. rewrite SqlFacts.order_by_fixed by apply inserted_in_order.
    now rewrite inserted_numbered.
  - intros other Hne. unfold get_ritual. cbn [rituals ritual_steps].
    erewrite find_new_row; [|reflexivity | exact Hnew].
    cbn [name].
    replace (str_eqb n other) with false.
    2: { symmetry. destruct (str_eqb n other) eqn:E; [|reflexivity].
         apply str_eqb_eq in E. now destruct Hne. }
    destruct (find (has_name other) (rituals db)) as [row|] eqn:E;
      [|reflexivity].
    rewrite filter_app, inserted_dropped, app_nil_r; [reflexivity|].
    pose proof (Hr row (find_in_rituals _ _ _ E)). lia.
Qed.

Lemma consistent_after_delete (db : Database) (fault : option str) (n : str) :
  consistent db -> consistent (snd (delete_ritual db fault n)).
Proof.
  intros [Hr Hs]. unfold delete_ritual. destruct fault; [now split|].
  cbn [snd]. split; cbn [rituals ritual_steps last_ritual_id]; [|exact Hs].
  intros r H. apply Hr. now apply filter_In in H.
Qed.

Lemma absent_after_delete (db : Database) (n : str) :
  existsb (has_name n) (rituals (snd (delete_ritual db None n))) = false.
Proof.
  unfold delete_ritual. cbn [snd rituals].
  destruct (existsb (has_name n)
              (filter (fun r => negb (has_name n r)) (rituals db))) eqn:E;
    [|reflexivity].
  apply existsb_exists in E as [r [Hin Hn]].
  apply filter_In in Hin as [_ Hin]. now rewrite Hn in Hin.
Qed.

(** A ritual created under a free name is read back by [get_ritual]
    with the next id, its description, and its commands in the order
    given, numbered from 0 and pending; the rituals stored under other
    names read as before. *)
Theorem created_ritual_is_read_back :
  forall (db : Database) (now_iso n d : str) (steps : list str),
    consistent db -> n <> [] -> steps <> [] ->
    get_ritual db None n = None ->
    fst (create_ritual db None now_iso n d steps) = History.Returns tt
    /\ get_ritual (snd (create_ritual db None now_iso n d steps)) None n
       = Some {| Rituals.id := (last_ritual_id db + 1)%Z;
                 Rituals.name := n;
                 Rituals.ritual_description := d;
                 Rituals.steps := numbered 0 steps |}
    /\ forall other,
         other <> n ->
         get_ritual (snd (create_ritual db None now_iso n d steps)) None other
         = get_ritual db None other.
Proof.
  intros db now_iso n d steps Hc Hn Hsteps Hnew.
  apply create_then_get; try assumption. now apply absent_iff.
Qed.

Lemma created_ritual_witness :
  fst (create_ritual empty None (lit "2025-01-01T10:00:00") (lit "deploy")
         (lit "Deploy") [lit "git pull"; lit "make test"])
  = History.Returns tt
  /\ get_ritual
       (snd (create_ritual empty None (lit "2025-01-01T10:00:00")
               (lit "deploy") (lit "Deploy")
               [lit "git pull"; lit "make test"]))
       None (lit "deploy")
     = Some {| Rituals.id := (last_ritual_id empty + 1)%Z;
               Rituals.name := lit "deploy";
               Rituals.ritual_description := lit "Deploy";
               Rituals.steps := numbered 0 [lit "git pull"; lit "make test"] |}
  /\ forall other,
       other <> lit "deploy" ->
       get_ritual
         (snd (create_ritual empty None (lit "2025-01-01T10:00:00")
                 (lit "deploy") (lit "Deploy")
                 [lit "git pull"; lit "make test"]))
         None other
       = get_ritual empty None other.
Proof.
  apply (created_ritual_is_read_back empty (lit "2025-01-01T10:00:00")
           (lit "deploy") (lit "Deploy") [lit "git pull"; lit "make test"]).
  - split; intros x [].
  - discriminate.
  - discriminate.
  - reflexivity.
Defined.

(** Creating a ritual and deleting a ritual, of the same name or of
    another, keep the store consistent, whether the call succeeds, is
    refused or meets a failing storage: no row points past the last id
    given out. *)
Theorem ritual_store_stays_consistent :
  forall (db : Database) (fault : option str) (now_iso n d : str)
         (steps : list str) (deleted : str),
    consistent db ->
    consistent (snd (create_ritual db fault now_iso n d steps))
    /\ consistent (snd (delete_ritual db fault deleted))
    /\ consistent
         (snd (delete_ritual (snd (create_ritual db fault now_iso n d steps))
                 fault deleted)).
Proof.
  intros db fault now_iso n d steps deleted Hc.
  assert (Hcreated :
            consistent (snd (create_ritual db fault now_iso n d steps))).
  { destruct Hc as [Hr Hs]. unfold create_ritual.
    destruct (negb (truthy n) || negb (0 <? length steps)); [now split|].
    destruct fault; [now split|].
    destruct (existsb (has_name n) (rituals db)); [now split|].
    cbn [snd]. split; cbn [rituals ritual_steps last_ritual_id].
    - intros r H. apply in_app_or in H as [H | [<- | []]].
      + specialize (Hr r H). lia.
      + cbn [id]. lia.
    - intros s H. apply in_app_or in H as [H | H].
      + specialize (Hs s H). lia.
      + apply inserted_ritual_id in H. lia. }
  split; [exact Hcreated|].
  split; now apply consistent_after_delete.
Qed.

(** On the sample store: "release" is created with two steps, and
    "deploy" is deleted. *)
Lemma ritual_store_consistent_witness :
  consistent
    (snd (create_ritual sample_database None (lit "2025-01-04T10:00:00")
            (lit "release") (lit "Release")
            [lit "make test"; lit "make dist"]))
  /\ consistent (snd (delete_ritual sample_database None (lit "deploy")))
  /\ consistent
       (snd (delete_ritual
               (snd (create_ritual sample_database None
                       (lit "2025-01-04T10:00:00") (lit "release")
                       (lit "Release") [lit "make test"; lit "make dist"]))
               None (lit "deploy"))).
Proof.
  apply (ritual_store_stays_consistent sample_database None
           (lit "2025-01-04T10:00:00") (lit "release") (lit "Release")
           [lit "make test"; lit "make dist"] (lit "deploy")).
  split.
  - intros r [<- | [<- | []]]; simpl; lia.
  - intros s [<- | [<- | [<- | [<- | []]]]]; simpl; lia.
Defined.

Example sample_store_changes :
  let db :=
    snd (delete_ritual
           (snd (create_ritual sample_database None
                   (lit "2025-01-04T10:00:00") (lit "release")
                   (lit "Release") [lit "make test"; lit "make dist"]))
           None (lit "deploy")) in
  map id (rituals db) = [3%Z; 4%Z]
  /\ map (fun s => (row_id s, ritual_id s)) (ritual_steps db)
     = [(1, 1); (2, 1); (3, 2); (4, 3); (5, 4); (6, 4)]%Z
  /\ last_ritual_id db = 4%Z.
Proof. vm_compute. repeat split. Qed.

(** Deleting a ritual leaves its step rows in the table, and still a
    ritual created anew under the same name holds the new commands
    only: the old rows stay tied to the id of the deleted ritual, which
    is not given out again. *)
Theorem recreated_ritual_has_new_steps_only :
  forall (db : Database) (now_iso n d : str) (steps : list str),
    consistent db -> n <> [] -> steps <> [] ->
    get_ritual (snd (delete_ritual db None n)) None n = None
    /\ ritual_steps (snd (delete_ritual db None n)) = ritual_steps db
    /\ get_ritual
         (snd (create_ritual (snd (delete_ritual db None n)) None now_iso
                 n d steps))
         None n
       = Some {| Rituals.id := (last_ritual_id db + 1)%Z;
                 Rituals.name := n;
                 Rituals.ritual_description := d;
                 Rituals.steps := numbered 0 steps |}.
Proof.
  intros db now_iso n d steps Hc Hn Hsteps.
  refine (conj _ (conj eq_refl _)).
  - apply absent_iff, absent_after_delete.
  - destruct (create_then_get (snd (delete_ritual db None n)) now_iso n d steps
                (consistent_after_delete db None n Hc) Hn Hsteps
                (absent_after_delete db n)) as [_ [H _]].
    exact H.
Qed.

Lemma recreated_ritual_witness :
  get_ritual
    (snd (delete_ritual
            {| rituals := [ {| id := 1; name := lit "deploy";
                               description := lit "old";
                               created_at := lit "t" |} ];
               ritual_steps := [ {| row_id := 1; ritual_id := 1;
                                    sequence_order := 0;
                                    command := lit "make install" |} ];
               last_ritual_id := 1; last_step_id := 1 |}
            None (lit "deploy")))
    None (lit "deploy")
  = None
  /\ ritual_steps
       (snd (delete_ritual
               {| rituals := [ {| id := 1; name := lit "deploy";
                                  description := lit "old";
                                  created_at := lit "t" |} ];
                  ritual_steps := [ {| row_id := 1; ritual_id := 1;
                                       sequence_order := 0;
                                       command := lit "make install" |} ];
                  last_ritual_id := 1; last_step_id := 1 |}
               None (lit "deploy")))
     = [ {| row_id := 1; ritual_id := 1; sequence_order := 0;
            command := lit "make install" |} ]
  /\ get_ritual
       (snd (create_ritual
               (snd (delete_ritual
                       {| rituals := [ {| id := 1; name := lit "deploy";
                                          description := lit "old";
                                          created_at := lit "t" |} ];
                          ritual_steps := [ {| row_id := 1; ritual_id := 1;
                                               sequence_order := 0;
                                               command := lit "make install" |} ];
                          last_ritual_id := 1; last_step_id := 1 |}
                       None (lit "deploy")))
               None (lit "2025-01-02T10:00:00") (lit "deploy") (lit "new")
               [lit "git pull"]))
       None (lit "deploy")
     = Some {| Rituals.id := (1 + 1)%Z;
               Rituals.name := lit "deploy";
               Rituals.ritual_description := lit "new";
               Rituals.steps := numbered 0 [lit "git pull"] |}.
Proof.
  apply (recreated_ritual_has_new_steps_only
           {| rituals := [ {| id := 1; name := lit "deploy";
                              description := lit "old";
                              created_at := lit "t" |} ];
              ritual_steps := [ {| row_id := 1; ritual_id := 1;
                                   sequence_order := 0;
                                   command := lit "make install" |} ];
              last_ritual_id := 1; last_step_id := 1 |}
           (lit "2025-01-02T10:00:00") (lit "deploy") (lit "new")
           [lit "git pull"]).
  - split.
    + intros r [<- | []]. cbn. lia.
    + intros s [<- | []]. cbn. lia.
  - discriminate.
  - discriminate.
Defined.

(** [create_ritual] refuses an empty name or an empty list of steps
    before it touches the storage, and it refuses a name that
    [get_ritual] finds; each time it raises [ValueError] and the store
    is as before. *)
Theorem create_ritual_refusals :
  forall (db : Database) (fault : option str) (now_iso n d : str)
         (steps : list str),
    (n = [] \/ steps = [] ->
     create_ritual db fault now_iso n d steps
     = (History.Raises
          (History.ValueError
             (lit "Ritual must have a name and at least one step.")), db))
    /\ (n <> [] -> steps <> [] ->
        (exists r, get_ritual db None n = Some r) ->
        exists message,
          create_ritual db None now_iso n d steps
          = (History.Raises (History.ValueError message), db)).
Proof.
  intros db fault now_iso n d steps. unfold create_ritual. split.
  - intros [-> | ->]; [reflexivity|]. cbn [length Nat.ltb Nat.leb negb].
    now rewrite orb_true_r.
  - intros Hn Hsteps [r Hr].
    replace (truthy n) with true
      by (destruct n; [now destruct Hn | reflexivity]).
    replace (0 <? length steps) with true
      by (destruct steps; [now destruct Hsteps | reflexivity]).
    cbn [negb orb].
    destruct (existsb (has_name n) (rituals db)) eqn:E.
    + eexists. reflexivity.
    + apply absent_iff in E. congruence.
Qed.

End RitualStoreFacts.

(** ** Suggestions *)

Module SpiritsFacts.

Import History Spirits.

Lemma unique_matches_spec : forall (matches : list suggestion) (seen : list str),
  NoDup (map fst (unique_matches seen matches))
  /\ forall m, In m (unique_matches seen matches) -> In m matches.
Proof.
  assert (Hout : forall (matches : list suggestion) (seen : list str) m,
             In m (unique_matches seen matches) ->
             In m matches /\ ~ In (fst m) seen).
  { induction matches as [|x rest IH]; intros seen m; simpl; [intros []|].
    destruct (str_in (fst x) seen) eqn:E.
    - intros H. destruct (IH seen m H). auto.
    - intros [<- | H].
      + split; [now left|]. intros Hin. apply str_in_iff in Hin. congruence.
      + destruct (IH (fst x :: seen) m H) as [H1 H2]. split; [now right|].
        intros Hin. apply H2. now right. }
  induction matches as [|x rest IH]; intros seen; simpl.
  - split; [constructor | intros m []].
  - destruct (str_in (fst x) seen).
    + destruct (IH seen) as [Hn Hi]. split; [exact Hn | auto].
    + destruct (IH (fst x :: seen)) as [Hn Hi]. split.
      * simpl. constructor; [|exact Hn]. intros Hin.
        apply in_map_iff in Hin as [m [Hm Hin]].
        destruct (Hout rest (fst x :: seen) m Hin) as [_ H].
        apply H. left. now symmetry.
      * intros m [<- | H]; [now left | right; auto].
Qed.

Lemma recent_are_stored store fault fromisoformat error_text limit recent e :
  HistoryQueries.get_recent_commands store fault fromisoformat error_text limit
  = Returns recent ->
  In e recent -> In e (rows store).
Proof.
  unfold HistoryQueries.get_recent_commands.
  destruct (limit <=? 0)%Z; [discriminate|].
  destruct fault; [discriminate|].
  destruct (negb (fits_int64 limit)); [discriminate|]. cbv zeta.
  destruct (unreadable fromisoformat (HistoryQueries.recent_query store limit));
    [discriminate|].
  intros H; injection H as <-. unfold HistoryQueries.recent_query. intros He.
  apply SqlFacts.limit_rows_in in He. now apply SqlFacts.order_by_in in He.
Qed.

(** [_get_history_suggestions] gives at most three suggestions with
    different texts.  Each text is the input of a stored command whose
    lowered form holds the typed text, and the two reasons tell whether
    it holds it at its start; when the history cannot be read there is
    no suggestion. *)
Theorem history_suggestions_are_stored_inputs :
  forall (store : Store) (fault : option str) (fromisoformat : str -> bool)
         (error_text : str -> str) (partial : str),
    length (_get_history_suggestions store fault fromisoformat error_text
              partial) <= 3
    /\ NoDup (map fst (_get_history_suggestions store fault fromisoformat
                         error_text partial))
    /\ (forall text reason,
          In (text, reason)
             (_get_history_suggestions store fault fromisoformat error_text
                partial) ->
          (exists entry,
              In entry (rows store) /\ natural_language entry = text)
          /\ contains partial (lower text) = true
          /\ ((reason = lit "you've done this before"
               /\ startswith (lower text) partial = true)
              \/ (reason = lit "similar to past commands"
                  /\ startswith (lower text) partial = false)))
    /\ (forall e,
          _get_history_suggestions store (Some e) fromisoformat error_text
            partial = []).
Proof.
  intros store fault fromisoformat error_text partial.
  unfold _get_history_suggestions.
  refine (conj _ (conj _ (conj _ _))).
  - destruct (HistoryQueries.get_recent_commands store fault fromisoformat
                error_text 50); [simpl; lia|].
    rewrite length_firstn. lia.
  - destruct (HistoryQueries.get_recent_commands store fault fromisoformat
                error_text 50) as [e|recent]; [constructor|].
    rewrite <- firstn_map. apply HistoryFacts.NoDup_firstn.
    apply unique_matches_spec.
  - intros text reason.
    destruct (HistoryQueries.get_recent_commands store fault fromisoformat
                error_text 50) as [e|recent] eqn:Er; [intros []|].
    intros H. apply HistoryFacts.In_firstn in H.
    apply unique_matches_spec in H. apply in_flat_map in H as [entry [He H]].
    pose proof (recent_are_stored store fault fromisoformat error_text 50
                  recent entry Er He) as Hs.
    unfold match_entry in H. cbv zeta in H.
    destruct (startswith (lower (natural_language entry)) partial) eqn:Ep.
    + destruct H as [H | []]. injection H as <- <-.
      refine (conj _ (conj _ _)); [eauto | | now left].
      now apply ExecutorFacts.contains_of_startswith.
    + destruct (contains partial (lower (natural_language entry))) eqn:Ec;
        [|destruct H].
      destruct H as [H | []]. injection H as <- <-.
      refine (conj _ (conj Ec _)); [eauto | now right].
  - intros e. unfold HistoryQueries.get_recent_commands. reflexivity.
Qed.

(** *** Suggestions for git *)

Lemma other_keywords_skipped (rest : str) :
  startswith (lit "git" ++ rest) (lit "find") = false
  /\ startswith (lit "git" ++ rest) (lit "list") = false
  /\ startswith (lit "git" ++ rest) (lit "show") = false.
Proof. repeat split. Qed.

(** When nothing in the history fits an input that begins with git, the
    hour decides alone: from 6 to 11 the suggestion is to pull and from
    17 to 22 it is to push, whatever git command was typed. *)
Theorem git_suggestion_follows_the_clock :
  forall (store : Store) (fault : option str) (fromisoformat : str -> bool)
         (error_text : str -> str) (partial_input current_directory : str)
         (hour : Z),
    3 <= length partial_input ->
    startswith (strip (lower partial_input)) (lit "git") = true ->
    _get_history_suggestions store fault fromisoformat error_text
      (strip (lower partial_input)) = [] ->
    ((6 <= hour < 12)%Z ->
     get_suggestion store fault fromisoformat error_text partial_input
       current_directory (Some hour)
     = Some (lit "git pull latest changes", lit "morning routine"))
    /\ ((17 <= hour < 23)%Z ->
        get_suggestion store fault fromisoformat error_text partial_input
          current_directory (Some hour)
        = Some (lit "git push my changes", lit "evening routine")).
Proof.
  intros store fault fromisoformat error_text partial_input current_directory
    hour Hlen Hgit Hnone.
  unfold get_suggestion.
  replace (truthy partial_input) with true
    by (destruct partial_input; [simpl in Hlen; lia | reflexivity]).
  replace (length partial_input <? 3) with false
    by (symmetry; apply Nat.ltb_ge; exact Hlen).
  cbn [negb orb]. cbv zeta. rewrite Hnone.
  apply startswith_iff in Hgit as [rest Hrest]. rewrite Hrest.
  destruct (other_keywords_skipped rest) as [Hf [Hl Hs]].
  unfold _get_pattern_suggestion, patterns. cbn [first_pattern].
  rewrite Hf, Hl, Hs, startswith_app.
  unfold _get_git_suggestion. split; intros Hh.
  - replace ((6 <=? hour)%Z && (hour <? 12)%Z) with true; [reflexivity|].
    symmetry. apply andb_true_iff. split; [apply Z.leb_le | apply Z.ltb_lt]; lia.
  - replace ((6 <=? hour)%Z && (hour <? 12)%Z) with false.
    2: { symmetry. apply andb_false_iff. right. apply Z.ltb_ge. lia. }
    replace ((17 <=? hour)%Z && (hour <? 23)%Z) with true; [reflexivity|].
    symmetry. apply andb_true_iff. split; [apply Z.leb_le | apply Z.ltb_lt]; lia.
Qed.

Lemma git_suggestion_witness :
  ((6 <= 9 < 12)%Z ->
   get_suggestion one_listing None reads_example (fun ts => ts)
     (lit "Git push origin") (lit "/tmp") (Some 9%Z)
   = Some (lit "git pull latest changes", lit "morning routine"))
  /\ ((17 <= 9 < 23)%Z ->
      get_suggestion one_listing None reads_example (fun ts => ts)
        (lit "Git push origin") (lit "/tmp") (Some 9%Z)
      = Some (lit "git push my changes", lit "evening routine")).
Proof.
  apply (git_suggestion_follows_the_clock one_listing None reads_example
           (fun ts => ts) (lit "Git push origin") (lit "/tmp") 9%Z).
  - vm_compute. lia.
  - vm_compute. reflexivity.
  - vm_compute. reflexivity.
Defined.

End SpiritsFacts.

(** ** The pass of the prompt: what runs and what is recorded *)

Module CliFacts.

Import Cli.

(** The answers [get_confirmation] gives, and when it says yes. *)
Lemma confirmation_yes (command : str) (risk : CommandRisk) (print : console)
  (io : interaction) (confirmation : str) :
  get_confirmation command risk print io = Answers confirmation ->
  str_eqb confirmation (lit "retry") = false ->
  str_eqb confirmation (lit "no") = false ->
  confirmation = lit "yes"
  /\ exists response,
       io = Responds response
       /\ match risk with
          | DESTRUCTIVE =>
              response = lit "EXECUTE"
              /\ print (lit "Command: " ++ command) = None
          | _ => str_in (lower response) [lit "y"; lit "yes"] = true
          end.
Proof.
  intros H Hr Hn.
  assert (Hno : forall e, report_error print e <> Answers confirmation).
  { intros e. unfold report_error. destruct (print _); [discriminate|].
    intros E. injection E as <-. vm_compute in Hn. discriminate Hn. }
  unfold get_confirmation in H.
  destruct risk.
  3: destruct (print (lit "Command: " ++ command)) as [e|] eqn:Ep;
       [now apply Hno in H|].
  all: destruct io as [response| | |message]; try (now apply Hno in H);
    try (injection H as <-; vm_compute in Hn; discriminate Hn).
  - destruct (str_in (lower response) [lit "y"; lit "yes"]) eqn:Ey.
    + injection H as <-. split; [reflexivity | eauto].
    + destruct (str_in (lower response) [lit "r"; lit "retry"]);
        injection H as <-;
        [vm_compute in Hr; discriminate Hr | vm_compute in Hn; discriminate Hn].
  - destruct (str_in (lower response) [lit "y"; lit "yes"]) eqn:Ey.
    + injection H as <-. split; [reflexivity | eauto].
    + destruct (str_in (lower response) [lit "r"; lit "retry"]);
        injection H as <-;
        [vm_compute in Hr; discriminate Hr | vm_compute in Hn; discriminate Hn].
  - destruct (str_eqb response confirmation_text) eqn:Ee.
    + injection H as <-. split; [reflexivity|]. exists response.
      split; [reflexivity|]. split; [now apply str_eqb_eq in Ee | reflexivity].
    + destruct (str_in (lower response) [lit "retry"; lit "r"]);
        injection H as <-;
        [vm_compute in Hr; discriminate Hr | vm_compute in Hn; discriminate Hn].
Qed.

(** A command that the pass executes for an interpreted input (the
    path of [run] from [correct_paths] to [display_output]; the steps of
    a ritual and the built-in commands take other paths, which
    [handle] does not cover) went through every check: it is the
    command as [correct_paths] left it, [validate_syntax] accepts it,
    and the prompt answered, with exactly EXECUTE after the command
    line was printed where the command is classified as destructive,
    and with y or yes (in any letter case) otherwise. *)
Theorem nothing_runs_unconfirmed :
  forall (fs : Corrector.FS) (os : Executor.OS) (clk : Executor.Clock)
         (screen : Screen) (print : console) (io : interaction)
         (storage : Storage)
         (now_iso : str) (s s' : Session) (user_input interpreted : str)
         (r : Executor.ExecutionResult) (shown : bool),
    handle fs os clk screen print io storage now_iso s user_input interpreted
    = (Executed r shown, s') ->
    exists cmd response,
      Corrector.correct_paths fs Corrector.default_cutoff interpreted
        (working_directory s)
      = Corrector.Returns cmd
      /\ Executor.validate_syntax cmd = true
      /\ io = Responds response
      /\ match classify_command cmd with
         | DESTRUCTIVE =>
             response = lit "EXECUTE"
             /\ print (lit "Command: " ++ cmd) = None
         | _ => str_in (lower response) [lit "y"; lit "yes"] = true
         end
      /\ fst (Executor.execute os clk (working_directory s) cmd)
         = Executor.Returns r.
Proof.
  intros fs os clk screen print io storage now_iso s s' user_input
    interpreted r shown H.
  unfold handle in H. cbv zeta in H.
  destruct (Corrector.correct_paths fs Corrector.default_cutoff interpreted
              (working_directory s)) as [message|cmd]; [discriminate|].
  destruct (correction_shown screen); [|discriminate]. cbn [negb] in H.
  destruct (Executor.validate_syntax cmd) eqn:Ev; [|discriminate].
  cbn [negb] in H.
  destruct (preview_shown screen); [|discriminate]. cbn [negb] in H.
  destruct (get_confirmation cmd (classify_command cmd) print io)
    as [confirmation|raised] eqn:Ec; [|discriminate].
  destruct (str_eqb confirmation (lit "retry")) eqn:Er.
  { destruct (retry_shown screen); discriminate. }
  destruct (str_eqb confirmation (lit "no")) eqn:En.
  { destruct (cancel_shown screen); discriminate. }
  destruct (spacing_shown screen); [|discriminate]. cbn [negb] in H.
  destruct (confirmation_yes cmd (classify_command cmd) print io confirmation
              Ec Er En) as [_ [response [Hio Hresp]]].
  exists cmd, response.
  refine (conj eq_refl (conj Ev (conj Hio (conj Hresp _)))).
  destruct (Executor.execute os clk (working_directory s) cmd) as [[e|r0] wd].
  { destruct (Executor.is_value_error e); discriminate. }
  destruct (output_shown screen); injection H as <- _ _; reflexivity.
Qed.

(** The input "remove the build" interpreted as "rm -rf build", which
    is destructive, with EXECUTE typed at the prompt. *)
Lemma nothing_runs_witness :
  exists cmd response,
    Corrector.correct_paths no_files Corrector.default_cutoff
      (lit "rm -rf build") (working_directory fresh_session)
    = Corrector.Returns cmd
    /\ Executor.validate_syntax cmd = true
    /\ Responds (lit "EXECUTE") = Responds response
    /\ match classify_command cmd with
       | DESTRUCTIVE =>
           response = lit "EXECUTE"
           /\ prints_all (lit "Command: " ++ cmd) = None
       | _ => str_in (lower response) [lit "y"; lit "yes"] = true
       end
    /\ fst (Executor.execute Executor.os_home Executor.clock0
              (working_directory fresh_session) cmd)
       = Executor.Returns
           {| Executor.command := lit "rm -rf build"; Executor.stdout := [];
              Executor.stderr := []; Executor.exit_code := 0;
              Executor.execution_time := (1 - 0)%Q;
              Executor.timestamp := 0 |}.
Proof.
  apply (nothing_runs_unconfirmed no_files Executor.os_home Executor.clock0
           clear_screen prints_all (Responds (lit "EXECUTE")) sound_storage
           (lit "2025-01-01T10:00:00") fresh_session
           (snd (handle no_files Executor.os_home Executor.clock0
                   clear_screen prints_all (Responds (lit "EXECUTE"))
                   sound_storage
                   (lit "2025-01-01T10:00:00") fresh_session
                   (lit "remove the build") (lit "rm -rf build")))
           (lit "remove the build") (lit "rm -rf build") _ true).
  vm_compute. reflexivity.
Defined.

(** The same command is not executed when "y" is typed, and the pass
    ends in the handler of the safety check when the console refuses
    the command line and the error report. *)
Example destructive_needs_execute :
  fst (handle no_files Executor.os_home Executor.clock0 clear_screen
         prints_all (Responds (lit "y")) sound_storage
         (lit "2025-01-01T10:00:00") fresh_session
         (lit "remove the build") (lit "rm -rf build"))
  = Cancelled
  /\ fst (handle no_files Executor.os_home Executor.clock0 clear_screen
            refuses_closing_tags (Responds (lit "EXECUTE")) sound_storage
            (lit "2025-01-01T10:00:00") fresh_session
            (lit "remove x") (lit "rm [/tmp/x]"))
     = SafetyCheckError
         (lit "closing tag '[/tmp/x]' doesn't match any open tag").
Proof. split; vm_compute; reflexivity. Qed.

(** Before it executes, the pass has validated the command, so the
    [ValueError] that [execute] raises for an empty or malformed command
    cannot occur there.  The handler [except ValueError] of the pass is
    entered all the same, in one case only: the command ran into the
    timeout and left output that [decode()] rejects, and
    [UnicodeDecodeError] is a [ValueError].  This case occurs: for "ls"
    confirmed with "y", where every subprocess hangs with such
    output. *)
Theorem execute_is_not_refused_in_a_pass :
  (forall (fs : Corrector.FS) (os : Executor.OS) (clk : Executor.Clock)
          (screen : Screen) (print : console) (io : interaction)
          (storage : Storage)
          (now_iso : str) (s : Session) (user_input interpreted : str)
          (e : Executor.exception),
      fst (handle fs os clk screen print io storage now_iso s user_input
             interpreted)
      = FailedValidation e ->
      e = Executor.UnicodeDecodeError
      /\ exists cmd,
           Corrector.correct_paths fs Corrector.default_cutoff interpreted
             (working_directory s)
           = Corrector.Returns cmd
           /\ Executor.validate_syntax cmd = true
           /\ Executor.run os cmd (working_directory s)
              = Executor.TimeoutExpired Executor.Undecodable)
  /\ fst (handle no_files Executor.os_hanging Executor.clock0 clear_screen
            prints_all (Responds (lit "y")) sound_storage
            (lit "2025-01-01T10:00:00") fresh_session
            (lit "list files") (lit "ls"))
     = FailedValidation Executor.UnicodeDecodeError.
Proof.
  split; [|vm_compute; reflexivity].
  intros fs os clk screen print io storage now_iso s user_input interpreted e.
  unfold handle. cbv zeta.
  destruct (Corrector.correct_paths fs Corrector.default_cutoff interpreted
              (working_directory s)) as [m|cmd]; [discriminate|].
  destruct (correction_shown screen); [|discriminate]. cbn [negb].
  destruct (Executor.validate_syntax cmd) eqn:Ev; [|discriminate].
  cbn [negb].
  destruct (preview_shown screen); [|discriminate]. cbn [negb].
  destruct (get_confirmation cmd (classify_command cmd) print io)
    as [confirmation|raised]; [|discriminate].
  destruct (str_eqb confirmation (lit "retry")).
  { destruct (retry_shown screen); discriminate. }
  destruct (str_eqb confirmation (lit "no")).
  { destruct (cancel_shown screen); discriminate. }
  destruct (spacing_shown screen); [|discriminate]. cbn [negb].
  unfold Executor.execute. rewrite Ev. cbn [negb].
  assert (Hb : blank cmd = false).
  { unfold Executor.validate_syntax in Ev.
    destruct (blank cmd); [discriminate | reflexivity]. }
  rewrite Hb.
  destruct (startswith (strip cmd) (lit "cd ")).
  - destruct (Executor._execute_cd os clk (working_directory s) cmd) as [r wd].
    destruct (output_shown screen); discriminate.
  - unfold Executor.run_subprocess. cbv zeta.
    destruct (Executor.run os cmd (working_directory s))
      as [out err code|[|text|]|m|m|m|tn m] eqn:Erun;
      try (destruct (output_shown screen); discriminate).
    cbn [Executor.is_value_error fst]. intros H. injection H as <-.
    split; [reflexivity|]. exists cmd. auto.
Qed.

(** *** What is recorded *)

(** What a pass may have done to the two tables, for the command [cmd]
    and the outcome [p]. *)
Definition recorded (user_input cmd : str) (p : pass) (s s' : Session)
  : Prop :=
  (forall e, In e (History.rows (history s')) ->
             In e (History.rows (history s))
             \/ (exists r,
                   p = Executed r true /\ Executor.exit_code r = 0%Z)
                /\ History.natural_language e = user_input
                /\ History.shell_command e = cmd
                /\ History.working_directory e = working_directory s'
                /\ History.exit_code e = 0%Z)
  /\ (forall e, In e (History.rows (history s)) ->
                In e (History.rows (history s')))
  /\ (forall x, In x (Rejections.rows (rejections s')) ->
                In x (Rejections.rows (rejections s))
                \/ (exists r,
                      p = Executed r true /\ Executor.exit_code r <> 0%Z)
                   /\ Rejections.natural_language x = user_input
                   /\ Rejections.shell_command x = cmd)
  /\ (forall x, In x (Rejections.rows (rejections s)) ->
                Rejections.natural_language x <> user_input ->
                In x (Rejections.rows (rejections s'))).

Lemma recorded_nothing (user_input cmd : str) (p : pass) (s s' : Session) :
  history s' = history s -> rejections s' = rejections s ->
  recorded user_input cmd p s s'.
Proof.
  intros Hh Hr. unfold recorded. rewrite Hh, Hr.
  refine (conj _ (conj _ (conj _ _))); auto.
Qed.

Lemma record_recorded (storage : Storage) (now_iso : str) (s : Session)
  (wd user_input cmd : str) (r : Executor.ExecutionResult) :
  recorded user_input cmd (Executed r true) s
    (record storage now_iso (with_directory s wd) user_input cmd r).
Proof.
  unfold recorded, record.
  destruct (Executor.exit_code r =? 0)%Z eqn:Ex;
    cbn [history rejections working_directory with_directory].
  - apply Z.eqb_eq in Ex. refine (conj _ (conj _ (conj _ _))).
    + intros e He. unfold History.save_command in He.
      destruct (blank user_input); [now left|].
      destruct (blank cmd); [now left|].
      destruct (negb (Qle_bool 0 (Executor.execution_time r))); [now left|].
      destruct (save_fault storage); [now left|].
      destruct (negb (History.fits_int64 (Executor.exit_code r)));
        [now left|].
      cbn [snd History.rows] in He.
      apply in_app_or in He as [He | [<- | []]]; [now left|].
      right. cbn. rewrite Ex. split; [eauto | auto].
    + intros e He. unfold History.save_command.
      destruct (blank user_input); [exact He|].
      destruct (blank cmd); [exact He|].
      destruct (negb (Qle_bool 0 (Executor.execution_time r))); [exact He|].
      destruct (save_fault storage); [exact He|].
      destruct (negb (History.fits_int64 (Executor.exit_code r)));
        [exact He|].
      cbn [snd History.rows]. apply in_or_app. now left.
    + intros x Hx. left. unfold Rejections.clear_rejections in Hx.
      destruct (clear_fault storage); [exact Hx|].
      cbn [Rejections.rows] in Hx. now apply filter_In in Hx.
    + intros x Hx Hne. unfold Rejections.clear_rejections.
      destruct (clear_fault storage); [exact Hx|].
      cbn [Rejections.rows]. apply filter_In. split; [exact Hx|].
      apply negb_true_iff.
      destruct (str_eqb (Rejections.natural_language x) user_input) eqn:E;
        [|reflexivity].
      apply str_eqb_eq in E. now destruct Hne.
  - apply Z.eqb_neq in Ex. refine (conj _ (conj _ (conj _ _))).
    + intros e He. now left.
    + auto.
    + intros x Hx. unfold Rejections.add_rejection in Hx.
      destruct (rejection_fault storage); [now left|].
      cbn [snd Rejections.rows] in Hx.
      apply in_app_or in Hx as [Hx | [<- | []]]; [now left|].
      right. cbn. split; [eauto | auto].
    + intros x Hx _. unfold Rejections.add_rejection.
      destruct (rejection_fault storage); [exact Hx|].
      cbn [snd Rejections.rows]. apply in_or_app. now left.
Qed.

(** A pass adds a row to the persistent history only for a command it
    executed with exit code 0 and whose result it could show, and this
    row holds the input, the command as executed and the directory the
    executor is in afterwards; no stored row is lost.  It adds a row to
    the rejections only for an executed command with another exit code,
    and it removes no rejection stored for another input. *)
Theorem pass_records_what_ran :
  forall (fs : Corrector.FS) (os : Executor.OS) (clk : Executor.Clock)
         (screen : Screen) (print : console) (io : interaction)
         (storage : Storage)
         (now_iso : str) (s : Session) (user_input interpreted : str),
    exists cmd,
      (forall c,
          Corrector.correct_paths fs Corrector.default_cutoff interpreted
            (working_directory s)
          = Corrector.Returns c -> c = cmd)
      /\ recorded user_input cmd
           (fst (handle fs os clk screen print io storage now_iso s
                   user_input interpreted))
           s
           (snd (handle fs os clk screen print io storage now_iso s
                   user_input interpreted)).
Proof.
  intros fs os clk screen print io storage now_iso s user_input interpreted.
  unfold handle. cbv zeta.
  destruct (Corrector.correct_paths fs Corrector.default_cutoff interpreted
              (working_directory s)) as [m|cmd].
  { exists []. split; [discriminate|]. now apply recorded_nothing. }
  exists cmd. split; [intros c H; now injection H|].
  destruct (correction_shown screen); cbn [negb];
    [|now apply recorded_nothing].
  destruct (Executor.validate_syntax cmd); cbn [negb];
    [|now apply recorded_nothing].
  destruct (preview_shown screen); cbn [negb]; [|now apply recorded_nothing].
  destruct (get_confirmation cmd (classify_command cmd) print io)
    as [confirmation|raised]; [|now apply recorded_nothing].
  destruct (str_eqb confirmation (lit "retry")).
  { destruct (retry_shown screen); now apply recorded_nothing. }
  destruct (str_eqb confirmation (lit "no")).
  { destruct (cancel_shown screen); cbn [negb fst snd];
      [|now apply recorded_nothing].
    destruct (classify_command cmd); now apply recorded_nothing. }
  destruct (spacing_shown screen); cbn [negb]; [|now apply recorded_nothing].
  destruct (Executor.execute os clk (working_directory s) cmd) as [[e|r] wd].
  { destruct (Executor.is_value_error e); now apply recorded_nothing. }
  destruct (output_shown screen); cbn [negb fst snd].
  - apply record_recorded.
  - now apply recorded_nothing.
Qed.

End CliFacts.

(** ** The built-in commands: what reaches them *)

Module BuiltinFacts.

Import Builtin.

Definition no_space (s : str) : bool :=
  forallb (fun c => negb (ascii_eqb c space)) s.

(** The branches that read an argument after the command word. *)
Definition reads_argument (b : builtin) : bool :=
  match b with
  | Explain _ | AddAlias _ _ | AliasUsage | RemoveAlias _ => true
  | _ => false
  end.

Lemma lstrip_lower (s : str) : lstrip (lower s) = lower (lstrip s).
Proof.
  unfold lower. induction s as [|c s IH]; simpl; [reflexivity|].
  rewrite SafetyMore.lower_char_space. destruct (isspace c); [exact IH|].
  reflexivity.
Qed.

Lemma strip_lower (s : str) : strip (lower s) = lower (strip s).
Proof.
  unfold strip, rstrip. rewrite lstrip_lower.
  unfold lower at 1. rewrite <- map_rev. fold (lower (rev (lstrip s))).
  rewrite lstrip_lower. unfold lower. now rewrite map_rev.
Qed.

Lemma lower_no_space (s : str) : no_space (lower s) = true -> no_space s = true.
Proof.
  unfold no_space, lower. induction s as [|c s IH]; simpl; [reflexivity|].
  intros H. apply andb_true_iff in H as [Hc Hs]. rewrite (IH Hs), andb_true_r.
  destruct (ascii_eqb c space) eqn:E; [|reflexivity].
  apply ascii_eqb_eq in E. subst c. discriminate Hc.
Qed.

(** A text without the separator is not split. *)
Lemma split_whole (maxsplit : option nat) : forall s : str,
  no_space s = true -> split_char space maxsplit s = [s].
Proof.
  induction s as [|c s IH]; simpl; [reflexivity|].
  intros H. apply andb_true_iff in H as [Hc Hs].
  apply negb_true_iff in Hc. now rewrite Hc, (IH Hs).
Qed.

Lemma word_alone (user_input w : str) :
  no_space w = true ->
  strip (lower user_input) = w ->
  split_char space (Some 1) (strip user_input) = [strip user_input].
Proof.
  intros Hw E. apply split_whole, lower_no_space.
  now rewrite <- strip_lower, E.
Qed.

Lemma never_reads_argument (user_input : str) :
  match handle_builtin_command user_input with
  | Some b => reads_argument b = false
  | None => True
  end.
Proof.
  unfold handle_builtin_command. cbv zeta.
  destruct (str_in (strip (lower user_input))
              [lit "help"; lit "?"; lit "commands"]); [reflexivity|].
  destruct (str_eqb (strip (lower user_input)) (lit "history"));
    [reflexivity|].
  destruct (str_eqb (strip (lower user_input)) (lit "ritual")); [reflexivity|].
  destruct (str_eqb (strip (lower user_input)) (lit "knowledge"));
    [reflexivity|].
  destruct (str_eqb (strip (lower user_input)) (lit "clear")); [reflexivity|].
  destruct (str_eqb (strip (lower user_input)) (lit "explain")) eqn:Ee.
  { apply str_eqb_eq in Ee.
    now rewrite (word_alone user_input (lit "explain") eq_refl Ee). }
  destruct (str_eqb (strip (lower user_input)) (lit "alias")) eqn:Ea.
  { apply str_eqb_eq in Ea. cbn [orb].
    now rewrite (word_alone user_input (lit "alias") eq_refl Ea). }
  destruct (str_eqb (strip (lower user_input)) (lit "aliases")) eqn:Es.
  { apply str_eqb_eq in Es. cbn [orb].
    now rewrite (word_alone user_input (lit "aliases") eq_refl Es). }
  cbn [orb].
  destruct (str_eqb (strip (lower user_input)) (lit "unalias")) eqn:Eu.
  { apply str_eqb_eq in Eu.
    now rewrite (word_alone user_input (lit "unalias") eq_refl Eu). }
  destruct (str_eqb (strip (lower user_input)) (lit "system")); [reflexivity|].
  destruct (startswith (strip (lower user_input)) (lit "suggest")).
  { destruct (split_char space (Some 1) (strip user_input)) as [|a [|b l]];
      reflexivity. }
  destruct (startswith (strip (lower user_input)) (lit "config")).
  { destruct (split_char space None (strip user_input))
      as [|a [|action [|key values]]]; try reflexivity.
    destruct (str_eqb action (lit "set")); [destruct values; reflexivity|].
    destruct (str_eqb action (lit "get")); reflexivity. }
  destruct (startswith (strip (lower user_input)) (lit "ritual")); [|exact I].
  destruct (split_char space (Some 2) (strip user_input))
    as [|a [|action rest]]; try reflexivity.
  destruct (str_eqb action (lit "list")); [reflexivity|].
  destruct rest as [|name rest]; [reflexivity|].
  destruct (str_eqb action (lit "show")); [reflexivity|].
  destruct (str_eqb action (lit "delete")); [reflexivity|].
  destruct (str_eqb action (lit "run")); [reflexivity|].
  destruct (str_eqb action (lit "create")); reflexivity.
Qed.

Lemma argument_goes_on (w rest : str) :
  In w [lit "alias "; lit "unalias "; lit "explain "] ->
  str_in (w ++ rest) [lit "help"; lit "?"; lit "commands"] = false
  /\ str_eqb (w ++ rest) (lit "history") = false
  /\ str_eqb (w ++ rest) (lit "ritual") = false
  /\ str_eqb (w ++ rest) (lit "knowledge") = false
  /\ str_eqb (w ++ rest) (lit "clear") = false
  /\ str_eqb (w ++ rest) (lit "explain") = false
  /\ str_eqb (w ++ rest) (lit "alias") = false
  /\ str_eqb (w ++ rest) (lit "aliases") = false
  /\ str_eqb (w ++ rest) (lit "unalias") = false
  /\ str_eqb (w ++ rest) (lit "system") = false
  /\ startswith (w ++ rest) (lit "suggest") = false
  /\ startswith (w ++ rest) (lit "config") = false
  /\ startswith (w ++ rest) (lit "ritual") = false.
Proof.
  intros [<- | [<- | [<- | []]]]; repeat split; reflexivity.
Qed.

(** The built-in commands explain, alias and unalias are recognised
    only when the whole input is the command word, and then there is
    nothing after it: [handle_builtin_command] never explains a command,
    never adds an alias and never removes one.  An input that carries
    an argument after one of these words is not handled at all and goes
    on to the interpretation. *)
Theorem builtin_arguments_never_arrive :
  forall user_input : str,
    (forall target_cmd,
        handle_builtin_command user_input <> Some (Explain target_cmd))
    /\ (forall name command,
          handle_builtin_command user_input <> Some (AddAlias name command))
    /\ (forall name,
          handle_builtin_command user_input <> Some (RemoveAlias name))
    /\ (forall w rest,
          In w [lit "alias "; lit "unalias "; lit "explain "] ->
          strip (lower user_input) = w ++ rest ->
          handle_builtin_command user_input = None).
Proof.
  intros user_input. pose proof (never_reads_argument user_input) as H.
  refine (conj _ (conj _ (conj _ _))).
  - intros t E. rewrite E in H. discriminate H.
  - intros n c E. rewrite E in H. discriminate H.
  - intros n E. rewrite E in H. discriminate H.
  - intros w rest Hw E. unfold handle_builtin_command. cbv zeta. rewrite E.
    destruct (argument_goes_on w rest Hw)
      as [H1 [H2 [H3 [H4 [H5 [H6 [H7 [H8 [H9 [H10 [H11 [H12 H13]]]]]]]]]]]].
    now rewrite H1, H2, H3, H4, H5, H6, H7, H8, H9, H10, H11, H12, H13.
Qed.

Example alias_definition_goes_on :
  handle_builtin_command (lit "alias ll = ls -la") = None
  /\ handle_builtin_command (lit "unalias ll") = None
  /\ handle_builtin_command (lit " Alias ") = Some ListAliases
  /\ handle_builtin_command (lit "unalias") = Some UnaliasUsage.
Proof. vm_compute. repeat split. Qed.

(** *** config set *)

Lemma split_nonempty (sep : ascii) (maxsplit : option nat) : forall s : str,
  exists first others, split_char sep maxsplit s = first :: others.
Proof.
  intros s. revert maxsplit. induction s as [|c s IH]; intros maxsplit; simpl.
  - eauto.
  - destruct (ascii_eqb c sep).
    + destruct maxsplit as [[|n]|]; eauto.
    + destruct (IH maxsplit) as [f [o ->]]. eauto.
Qed.

Lemma join_cons_head (c : ascii) (first : str) (others : list str) :
  Pystr.join (lit " ") ((c :: first) :: others)
  = c :: Pystr.join (lit " ") (first :: others).
Proof. destruct others; reflexivity. Qed.

(** Joining what was split gives the text back. *)
Lemma join_split : forall s : str,
  Pystr.join (lit " ") (split_char space None s) = s.
Proof.
  induction s as [|c s IH]; [reflexivity|]. cbn [split_char].
  destruct (ascii_eqb c space) eqn:E.
  - apply ascii_eqb_eq in E. subst c.
    destruct (split_nonempty space None s) as [f [o Es]].
    rewrite Es in *.
    change (Pystr.join (lit " ") ([] :: f :: o))
      with (space :: Pystr.join (lit " ") (f :: o)).
    now rewrite IH.
  - destruct (split_nonempty space None s) as [f [o Es]].
    rewrite Es in *. now rewrite join_cons_head, IH.
Qed.

Lemma split_word (a b : str) :
  no_space a = true ->
  split_char space None (a ++ space :: b) = a :: split_char space None b.
Proof.
  induction a as [|c a IH]; intros H; [reflexivity|].
  simpl in H. apply andb_true_iff in H as [Hc Ha].
  apply negb_true_iff in Hc. cbn [app split_char]. rewrite Hc.
  now rewrite (IH Ha).
Qed.

Lemma rstrip_keeps (s : str) (c : ascii) :
  isspace c = false -> rstrip (s ++ [c]) = s ++ [c].
Proof.
  intros H. unfold rstrip. rewrite rev_app_distr. cbn [rev app lstrip].
  rewrite H. cbn [rev]. now rewrite rev_involutive.
Qed.

Lemma config_is_reached (rest : str) :
  str_in (lit "config " ++ rest) [lit "help"; lit "?"; lit "commands"] = false
  /\ str_eqb (lit "config " ++ rest) (lit "history") = false
  /\ str_eqb (lit "config " ++ rest) (lit "ritual") = false
  /\ str_eqb (lit "config " ++ rest) (lit "knowledge") = false
  /\ str_eqb (lit "config " ++ rest) (lit "clear") = false
  /\ str_eqb (lit "config " ++ rest) (lit "explain") = false
  /\ str_eqb (lit "config " ++ rest) (lit "alias") = false
  /\ str_eqb (lit "config " ++ rest) (lit "aliases") = false
  /\ str_eqb (lit "config " ++ rest) (lit "unalias") = false
  /\ str_eqb (lit "config " ++ rest) (lit "system") = false
  /\ startswith (lit "config " ++ rest) (lit "suggest") = false
  /\ startswith (lit "config " ++ rest) (lit "config") = true.
Proof. repeat split; reflexivity. Qed.

(** [config set <key> <value>]: the preference handed to
    [set_preference] has the key typed and, as its value, everything
    after the blank that follows the key, inner blanks included. *)
Theorem config_set_keeps_the_value :
  forall (key value : str) (last : ascii),
    no_space key = true ->
    isspace last = false ->
    handle_builtin_command
      (lit "config set " ++ key ++ lit " " ++ value ++ [last])
    = Some (SetPreference key (value ++ [last])).
Proof.
  intros key value last Hkey Hlast.
  set (input := lit "config set " ++ key ++ lit " " ++ value ++ [last]).
  assert (Hstrip : strip input = input).
  { unfold strip. change (lstrip input) with input.
    unfold input. rewrite !app_assoc. apply rstrip_keeps. exact Hlast. }
  assert (Hcmd : strip (lower input)
                 = lit "config " ++ lower (lit "set " ++ key ++ lit " "
                                             ++ value ++ [last])).
  { rewrite strip_lower, Hstrip. unfold input, lower.
    change (lit "config set " ++ key ++ lit " " ++ value ++ [last])
      with (lit "config " ++ lit "set " ++ key ++ lit " " ++ value ++ [last]).
    now rewrite map_app. }
  assert (Hsplit : split_char space None input
                   = lit "config" :: lit "set" :: key
                     :: split_char space None (value ++ [last])).
  { unfold input.
    change (lit "config set " ++ key ++ lit " " ++ value ++ [last])
      with (lit "config" ++ space
            :: (lit "set" ++ space :: (key ++ space :: value ++ [last]))).
    rewrite (split_word (lit "config")), (split_word (lit "set")),
      (split_word key); auto. }
  unfold handle_builtin_command. cbv zeta. rewrite Hcmd, Hstrip, Hsplit.
  destruct (config_is_reached
              (lower (lit "set " ++ key ++ lit " " ++ value ++ [last])))
    as [H1 [H2 [H3 [H4 [H5 [H6 [H7 [H8 [H9 [H10 [H11 H12]]]]]]]]]]].
  rewrite H1, H2, H3, H4, H5, H6, H7, H8, H9, H10, H11, H12.
  destruct (split_nonempty space None (value ++ [last])) as [f [o Es]].
  pose proof (join_split (value ++ [last])) as Hj. rewrite Es in Hj.
  rewrite Es. cbv beta iota.
  change (str_eqb (lit "set") (lit "set")) with true. cbv beta iota.
  now rewrite Hj.
Qed.

Lemma config_set_witness :
  handle_builtin_command
    (lit "config set " ++ lit "editor" ++ lit " " ++ lit "vim  -" ++ ["u"%char])
  = Some (SetPreference (lit "editor") (lit "vim  -" ++ ["u"%char])).
Proof.
  apply (config_set_keeps_the_value (lit "editor") (lit "vim  -") "u"%char).
  - reflexivity.
  - reflexivity.
Defined.

End BuiltinFacts.
